(** * Availability accounting of the reading logger (src/server.js)

    A shallow embedding of the reading logger: the status classifier
    [computeOnline], the replay [recomputeStats], the incremental update of
    [appendReading], the two retention prunes and the serial frame extractor
    [flushBuffer], followed by the properties of the accounting engine.

    Conventions of the embedding.
    - A JS string is a [string] of code units below 256.  A log line or a
      frame with a [\u] escape of 256 or more is outside this alphabet;
      the statements that read a log back say so ([in_alphabet]).
    - A JS value that comes out of [JSON.parse] is a [jsval]; an object is
      the association list of its own properties in creation order.  (The
      engine lists the keys that are array indices first, in ascending
      order; the statements below compare objects that are built alike
      and do not depend on where such a key stands.)
    - A JSON number [VNum m e] stands for the binary64 number nearest to
      the decimal [m / 10^e]: Infinity when the decimal is beyond the range
      of binary64, which [JSON.stringify] writes as [null]; a decimal that
      is nearer to zero than to any other binary64 number is read as
      [VNum 0 0].
      A finite number is written with the digits of its decimal, which
      read back as the same number; the engine writes the shortest digits
      that do.
    - Time values and millisecond totals are [number]s: an integer or NaN.
      A number is made a time value by rounding to binary64 and truncating
      ([TimeClip]).  Differences and sums of milliseconds are those of the
      integers, as they are in the engine up to [2^53].
    - [Date.parse] on strings is specific to the engine and is a parameter
      of the development; [iso_parse] is the reference instance for the
      format that [toISOString] writes.
    - [new Date(v)] throws on an object with an own [toString] that cannot
      be called ([Date_throws]); where the code catches it the value counts
      as no date, where it does not the function throws
      ([recompute_throws]).
    - A chunk of the serial link is the text it decodes to.
    - File operations succeed, except that reading a missing file throws. *)

From Stdlib Require Import ZArith List String Ascii Bool Lia Sorted Permutation.
Import ListNotations.
Local Open Scope string_scope.
Local Open Scope Z_scope.

(** Sequencing of partial computations. *)
Notation "' p <- e ;; k" :=
  (match e with Some p => k | None => None end)
  (at level 61, p pattern, e at next level, right associativity).
Notation "x <- e ;; k" :=
  (match e with Some x => k | None => None end)
  (at level 61, e at next level, right associativity).

(** ** Strings *)

Definition code (c : ascii) : Z := Z.of_N (N_of_ascii c).
Definition chr (n : Z) : ascii := ascii_of_N (Z.to_N n).

Definition LF : ascii := chr 10.

(** WhiteSpace and LineTerminator code units below 256, as stripped by
    [String.prototype.trim]. *)
Definition isWhiteSpace (c : ascii) : bool :=
  let n := code c in
  ((9 <=? n) && (n <=? 13)) || (n =? 32) || (n =? 160).

Fixpoint trimStart (s : string) : string :=
  match s with
  | String c t => if isWhiteSpace c then trimStart t else s
  | EmptyString => EmptyString
  end.

Fixpoint trimEnd (s : string) : string :=
  match s with
  | String c t =>
      match trimEnd t with
      | EmptyString => if isWhiteSpace c then EmptyString else String c EmptyString
      | t' => String c t'
      end
  | EmptyString => EmptyString
  end.

Definition trim (s : string) : string := trimEnd (trimStart s).

Definition lowerChar (c : ascii) : ascii :=
  let n := code c in
  if ((65 <=? n) && (n <=? 90))
     || ((192 <=? n) && (n <=? 222) && negb (n =? 215))
  then chr (n + 32) else c.

Fixpoint toLowerCase (s : string) : string :=
  match s with
  | String c t => String (lowerChar c) (toLowerCase t)
  | EmptyString => EmptyString
  end.

Fixpoint join (sep : string) (l : list string) : string :=
  match l with
  | [] => ""
  | [x] => x
  | x :: t => x ++ sep ++ join sep t
  end.

(** [s.split("\n")]: the pieces of [s] between line feeds. *)
Fixpoint split_lines (s : string) : list string :=
  match s with
  | EmptyString => [""]
  | String c t =>
      if Ascii.eqb c LF then "" :: split_lines t
      else match split_lines t with
           | l :: ls => String c l :: ls
           | [] => [String c ""]
           end
  end.

Definition nonempty (s : string) : bool :=
  match s with EmptyString => false | _ => true end.

(** [raw.split("\n").filter(Boolean)] *)
Definition lines_of (raw : string) : list string :=
  filter nonempty (split_lines raw).

(** [s] has no occurrence of [c]. *)
Fixpoint lacks (c : ascii) (s : string) : bool :=
  match s with
  | String x t => negb (Ascii.eqb x c) && lacks c t
  | EmptyString => true
  end.

(** ** Decimal digits *)

Definition isDigit (c : ascii) : bool := (48 <=? code c) && (code c <=? 57).
Definition digitVal (c : ascii) : Z := code c - 48.
Definition digitChar (d : Z) : ascii := chr (48 + d).

(** The value of a run of digits, most significant first. *)
Fixpoint digitsVal (acc : Z) (s : string) : Z :=
  match s with
  | String c t => digitsVal (10 * acc + digitVal c) t
  | EmptyString => acc
  end.

Fixpoint allDigits (s : string) : bool :=
  match s with
  | String c t => isDigit c && allDigits t
  | EmptyString => true
  end.

(** The decimal digits of [n >= 0], without leading zeros ("0" for 0). *)
Fixpoint digitsOf (fuel : nat) (n : Z) (acc : string) : string :=
  match fuel with
  | O => acc
  | S f =>
      let acc' := String (digitChar (n mod 10)) acc in
      if n <? 10 then acc' else digitsOf f (n / 10) acc'
  end.

Definition natToString (n : Z) : string :=
  digitsOf (S (Z.to_nat (Z.log2 n))) n "".

Definition intToString (n : Z) : string :=
  if n <? 0 then String "-" (natToString (- n)) else natToString n.

(** [s.padStart(w, "0")] *)
Definition padStart0 (w : nat) (s : string) : string :=
  let fix zeros (k : nat) : string :=
    match k with O => "" | S k' => String "0" (zeros k') end in
  zeros (w - String.length s)%nat ++ s.

(** ** Values *)

(** Values that [JSON.parse] can return, and [undefined] for a property
    that is absent.  [VNum m e] is the number that the engine reads from
    the decimal [m / 10^e]: the binary64 number nearest to it, which is
    Infinity (of the sign of [m]) when the decimal is beyond the range of
    binary64 ([overflows]).  A decimal that the engine reads as zero is
    [VNum 0 0] ([parse_number]), so that [m] is zero exactly when the
    number is. *)
#[local] Set Warnings "-register-all".
Inductive jsval : Type :=
| VUndefined
| VNull
| VBool (b : bool)
| VNum (m : Z) (e : nat)
| VStr (s : string)
| VArr (items : list jsval)
| VObj (fields : list (string * jsval)).

Definition record : Type := list (string * jsval).

(** Induction on values, through arrays and objects. *)
Section jsval_induction.
Variable P : jsval -> Prop.
Hypothesis P_undefined : P VUndefined.
Hypothesis P_null : P VNull.
Hypothesis P_bool : forall b, P (VBool b).
Hypothesis P_num : forall m e, P (VNum m e).
Hypothesis P_str : forall s, P (VStr s).
Hypothesis P_arr : forall l, Forall P l -> P (VArr l).
Hypothesis P_obj : forall fs, Forall (fun kv => P (snd kv)) fs -> P (VObj fs).

Fixpoint jsval_induction (v : jsval) : P v :=
  match v with
  | VUndefined => P_undefined
  | VNull => P_null
  | VBool b => P_bool b
  | VNum m e => P_num m e
  | VStr s => P_str s
  | VArr l =>
      P_arr l
        ((fix go (l : list jsval) : Forall P l :=
            match l with
            | [] => Forall_nil P
            | x :: t => Forall_cons x (jsval_induction x) (go t)
            end) l)
  | VObj fs =>
      P_obj fs
        ((fix go (fs : list (string * jsval))
           : Forall (fun kv => P (snd kv)) fs :=
            match fs with
            | [] => Forall_nil _
            | (k, x) :: t =>
                Forall_cons (P := fun kv => P (snd kv)) (k, x)
                            (jsval_induction x) (go t)
            end) fs)
  end.
End jsval_induction.


(** [o[k]] on own properties *)
Fixpoint get (o : record) (k : string) : jsval :=
  match o with
  | [] => VUndefined
  | (k', v) :: t => if (k' =? k)%string then v else get t k
  end.

(** [o[k] = v]: an existing property keeps its place. *)
Fixpoint set (o : record) (k : string) (v : jsval) : record :=
  match o with
  | [] => [(k, v)]
  | (k', v') :: t =>
      if (k' =? k)%string then (k, v) :: t else (k', v') :: set t k v
  end.

(** ToBoolean *)
Definition truthy (v : jsval) : bool :=
  match v with
  | VUndefined | VNull => false
  | VBool b => b
  | VNum m _ => negb (m =? 0)
  | VStr s => nonempty s
  | VArr _ | VObj _ => true
  end.

(** ** Numbers of the accounting: time values and millisecond counts *)

Inductive number : Type :=
| NaN
| Ms (z : Z).

Definition isNaN (x : number) : bool :=
  match x with NaN => true | Ms _ => false end.

Definition nadd (x y : number) : number :=
  match x, y with Ms a, Ms b => Ms (a + b) | _, _ => NaN end.

Definition nsub (x y : number) : number :=
  match x, y with Ms a, Ms b => Ms (a - b) | _, _ => NaN end.

(** [Math.max(0, x)] *)
Definition Math_max0 (x : number) : number :=
  match x with Ms a => Ms (Z.max 0 a) | NaN => NaN end.

(** [x > 0] *)
Definition gt0 (x : number) : bool :=
  match x with Ms a => 0 <? a | NaN => false end.

(** [x >= c] *)
Definition nge (x : number) (c : Z) : bool :=
  match x with Ms a => c <=? a | NaN => false end.

(** ** Dates *)

(** Civil date of a day number counted from 1970-01-01. *)
Definition civil_from_days (days : Z) : Z * Z * Z :=
  let z := days + 719468 in
  let era := z / 146097 in
  let doe := z - era * 146097 in
  let yoe := (doe - doe / 1460 + doe / 36524 - doe / 146096) / 365 in
  let doy := doe - (365 * yoe + yoe / 4 - yoe / 100) in
  let mp := (5 * doy + 2) / 153 in
  let d := doy - (153 * mp + 2) / 5 + 1 in
  let m := if mp <? 10 then mp + 3 else mp - 9 in
  let y := yoe + era * 400 in
  (if m <=? 2 then y + 1 else y, m, d).

Definition days_from_civil (y m d : Z) : Z :=
  let y := if m <=? 2 then y - 1 else y in
  let era := y / 400 in
  let yoe := y - era * 400 in
  let doy := (153 * (if 2 <? m then m - 3 else m + 9) + 2) / 5 + d - 1 in
  let doe := yoe * 365 + yoe / 4 - yoe / 100 + doy in
  era * 146097 + doe - 719468.

Definition pad (w : nat) (n : Z) : string := padStart0 w (natToString n).

Definition msPerDay : Z := 86400000.

(** [new Date(t).toISOString()] *)
Definition toISOString (t : Z) : string :=
  let '(y, m, d) := civil_from_days (t / msPerDay) in
  let r := t mod msPerDay in
  let year :=
    if (0 <=? y) && (y <=? 9999) then pad 4 y
    else String (if y <? 0 then "-"%char else "+"%char) (pad 6 (Z.abs y)) in
  year ++ "-" ++ pad 2 m ++ "-" ++ pad 2 d ++ "T"
       ++ pad 2 (r / 3600000) ++ ":" ++ pad 2 (r / 60000 mod 60) ++ ":"
       ++ pad 2 (r / 1000 mod 60) ++ "." ++ pad 3 (r mod 1000) ++ "Z".

(** Splits [s] after its first [n] characters. *)
Fixpoint splitAt (n : nat) (s : string) : option (string * string) :=
  match n, s with
  | O, _ => Some ("", s)
  | S n', String c t =>
      match splitAt n' t with
      | Some (a, b) => Some (String c a, b)
      | None => None
      end
  | S _, EmptyString => None
  end.

(** Reads [n] digits of [s], then the separator [sep]. *)
Definition field (n : nat) (sep : string) (s : string) : option (Z * string) :=
  match splitAt n s with
  | Some (ds, r) =>
      if allDigits ds then
        match splitAt (String.length sep) r with
        | Some (p, r') => if (p =? sep)%string then Some (digitsVal 0 ds, r') else None
        | None => None
        end
      else None
  | None => None
  end.

Definition daysInMonth (y m : Z) : Z :=
  days_from_civil (if m =? 12 then y + 1 else y) (if m =? 12 then 1 else m + 1) 1
  - days_from_civil y m 1.

(** Reference instance of the engine's date parser: the UTC date-time form
    [YYYY-MM-DDTHH:mm:ss.sssZ], with a signed six-digit year outside
    0..9999, which is what [toISOString] writes.  Any other string is NaN. *)
Definition iso_year (s : string) : option (Z * string) :=
  match s with
  | String c t =>
      if Ascii.eqb c "+" then field 6 "-" t
      else if Ascii.eqb c "-" then
        '(y, r) <- field 6 "-" t ;;
        if y =? 0 then None else Some (- y, r)
      else field 4 "-" s
  | EmptyString => None
  end.

Definition iso_fields (s : string) : option Z :=
  '(y, r) <- iso_year s ;;
  '(m, r) <- field 2 "-" r ;;
  '(d, r) <- field 2 "T" r ;;
  '(hh, r) <- field 2 ":" r ;;
  '(mi, r) <- field 2 ":" r ;;
  '(ss, r) <- field 2 "." r ;;
  '(ms, r) <- field 3 "Z" r ;;
  if nonempty r then None
  else if (1 <=? m) && (m <=? 12) && (1 <=? d) && (d <=? daysInMonth y m)
          && (hh <? 24) && (mi <? 60) && (ss <? 60)
  then Some (days_from_civil y m d * msPerDay
             + hh * 3600000 + mi * 60000 + ss * 1000 + ms)
  else None.

Definition iso_parse (s : string) : number :=
  match iso_fields s with
  | Some t => if Z.abs t <=? 8640000000000000 then Ms t else NaN
  | None => NaN
  end.

(** ** JSON *)

Definition DQ : ascii := chr 34.
Definition BS : ascii := chr 92.

Definition hexChar (n : Z) : ascii :=
  if n <? 10 then chr (48 + n) else chr (87 + n).

Definition hexVal (c : ascii) : option Z :=
  let n := code c in
  if (48 <=? n) && (n <=? 57) then Some (n - 48)
  else if (97 <=? n) && (n <=? 102) then Some (n - 87)
  else if (65 <=? n) && (n <=? 70) then Some (n - 55)
  else None.

(** QuoteJSONString on one code unit *)
Definition escapeChar (c : ascii) : string :=
  let n := code c in
  if n =? 34 then String BS (String DQ "")
  else if n =? 92 then String BS (String BS "")
  else if n =? 8 then String BS "b"
  else if n =? 12 then String BS "f"
  else if n =? 10 then String BS "n"
  else if n =? 13 then String BS "r"
  else if n =? 9 then String BS "t"
  else if n <? 32 then
    String BS ("u00" ++ String (hexChar (n / 16)) (String (hexChar (n mod 16)) ""))
  else String c "".

Fixpoint escapeString (s : string) : string :=
  match s with
  | String c t => escapeChar c ++ escapeString t
  | EmptyString => ""
  end.

Definition quote (s : string) : string :=
  String DQ (escapeString s ++ String DQ "").

(** The decimal expansion of [m / 10^e]. *)
Definition numToString (m : Z) (e : nat) : string :=
  let ds := padStart0 (S e) (natToString (Z.abs m)) in
  let body :=
    match e with
    | O => ds
    | S _ =>
        match splitAt (String.length ds - e) ds with
        | Some (a, b) => a ++ "." ++ b
        | None => ds
        end
    end in
  if m <? 0 then String "-" body else body.

(** Binary64, round to nearest, ties to even: a decimal [m / 10^e] of
    magnitude [2^1024 - 2^970] or more is read as Infinity, one of
    magnitude [2^-1075] or less as zero. *)
Definition overflows (m : Z) (e : nat) : bool :=
  (2 ^ 1024 - 2 ^ 970) * 10 ^ Z.of_nat e <=? Z.abs m.

Definition underflows (m : Z) (e : nat) : bool :=
  Z.abs m * 2 ^ 1075 <=? 10 ^ Z.of_nat e.

(** SerializeJSONProperty: [None] stands for [undefined]; a number that
    is not finite is written as [null]. *)
Fixpoint serialize (v : jsval) : option string :=
  match v with
  | VUndefined => None
  | VNull => Some "null"
  | VBool b => Some (if b then "true" else "false")
  | VNum m e => Some (if overflows m e then "null" else numToString m e)
  | VStr s => Some (quote s)
  | VArr l =>
      Some ("[" ++ join ","
                   (map (fun x => match serialize x with
                                  | Some t => t
                                  | None => "null"
                                  end) l) ++ "]")
  | VObj fs =>
      Some ("{" ++ join ","
                   (flat_map (fun kv => match serialize (snd kv) with
                                        | Some t => [quote (fst kv) ++ ":" ++ t]
                                        | None => []
                                        end) fs) ++ "}")
  end.

(** [JSON.stringify(o)] for an object [o] *)
Definition JSON_stringify (o : record) : string :=
  match serialize (VObj o) with Some t => t | None => "" end.

Definition isJsonWs (c : ascii) : bool :=
  let n := code c in (n =? 32) || (n =? 9) || (n =? 10) || (n =? 13).

Fixpoint skip_ws (s : string) : string :=
  match s with
  | String c t => if isJsonWs c then skip_ws t else s
  | EmptyString => EmptyString
  end.

Definition unescape (c : ascii) : option ascii :=
  let n := code c in
  if (n =? 34) || (n =? 92) || (n =? 47) then Some c
  else if n =? 98 then Some (chr 8)
  else if n =? 102 then Some (chr 12)
  else if n =? 110 then Some (chr 10)
  else if n =? 114 then Some (chr 13)
  else if n =? 116 then Some (chr 9)
  else None.

(** The characters of a string literal after its opening quote, and what
    follows the closing quote. *)
Fixpoint parse_chars (s : string) : option (string * string) :=
  match s with
  | EmptyString => None
  | String c r =>
      if Ascii.eqb c DQ then Some ("", r)
      else if code c <? 32 then None
      else if Ascii.eqb c BS then
        match r with
        | String x r1 =>
            if Ascii.eqb x "u" then
              match r1 with
              | String h3 (String h2 (String h1 (String h0 r2))) =>
                  a <- hexVal h3 ;; b <- hexVal h2 ;;
                  c1 <- hexVal h1 ;; d <- hexVal h0 ;;
                  let n := ((a * 16 + b) * 16 + c1) * 16 + d in
                  if n <? 256 then
                    '(t, rest) <- parse_chars r2 ;; Some (String (chr n) t, rest)
                  else None
              | _ => None
              end
            else
              u <- unescape x ;;
              '(t, rest) <- parse_chars r1 ;; Some (String u t, rest)
        | EmptyString => None
        end
      else '(t, rest) <- parse_chars r ;; Some (String c t, rest)
  end.

Fixpoint span_digits (s : string) : string * string :=
  match s with
  | String c t =>
      if isDigit c then let '(a, b) := span_digits t in (String c a, b)
      else ("", s)
  | EmptyString => ("", "")
  end.

(** [m / 10^e] with the trailing zeros of the fraction removed *)
Fixpoint normalize (m : Z) (e : nat) : Z * nat :=
  match e with
  | O => (m, O)
  | S e' => if m mod 10 =? 0 then normalize (m / 10) e' else (m, e)
  end.

Definition startsWith (c : ascii) (s : string) : option string :=
  match s with
  | String x t => if Ascii.eqb x c then Some t else None
  | EmptyString => None
  end.

Definition parse_number (s : string) : option (jsval * string) :=
  let '(neg, s1) :=
    match startsWith "-" s with Some t => (true, t) | None => (false, s) end in
  let '(ip, s2) := span_digits s1 in
  match ip with
  | EmptyString => None
  | String "0" (String _ _) => None
  | _ =>
      '(fp, s3) <-
        match startsWith "." s2 with
        | Some t =>
            let '(fp, s3) := span_digits t in
            if nonempty fp then Some (fp, s3) else None
        | None => Some ("", s2)
        end ;;
      '(x, s4) <-
        match s3 with
        | String c t =>
            if Ascii.eqb c "e" || Ascii.eqb c "E" then
              let '(sg, t1) :=
                match startsWith "-" t with
                | Some t' => (-1, t')
                | None =>
                    match startsWith "+" t with
                    | Some t' => (1, t')
                    | None => (1, t)
                    end
                end in
              let '(xp, s4) := span_digits t1 in
              if nonempty xp then Some (sg * digitsVal 0 xp, s4) else None
            else Some (0, s3)
        | EmptyString => Some (0, s3)
        end ;;
      let mag := digitsVal 0 (ip ++ fp) in
      let m := if neg then - mag else mag in
      let k := x - Z.of_nat (String.length fp) in
      if 0 <=? k then Some (VNum (m * 10 ^ k) 0, s4)
      else if underflows m (Z.to_nat (- k)) then Some (VNum 0 0, s4)
      else let '(m', e') := normalize m (Z.to_nat (- k)) in
           Some (VNum m' e', s4)
  end.

Fixpoint dropPrefix (p s : string) : option string :=
  match p, s with
  | EmptyString, _ => Some s
  | String a p', String b s' => if Ascii.eqb a b then dropPrefix p' s' else None
  | String _ _, EmptyString => None
  end.

Fixpoint parse_value (fuel : nat) (s : string) : option (jsval * string) :=
  match fuel with
  | O => None
  | S f =>
      match skip_ws s with
      | EmptyString => None
      | String c r as s' =>
          if Ascii.eqb c "{" then
            match startsWith "}" (skip_ws r) with
            | Some r' => Some (VObj [], r')
            | None => parse_members f [] r
            end
          else if Ascii.eqb c "[" then
            match startsWith "]" (skip_ws r) with
            | Some r' => Some (VArr [], r')
            | None => parse_elements f [] r
            end
          else if Ascii.eqb c DQ then
            '(t, rest) <- parse_chars r ;; Some (VStr t, rest)
          else if Ascii.eqb c "-" || isDigit c then parse_number s'
          else match dropPrefix "true" s' with
               | Some rest => Some (VBool true, rest)
               | None =>
               match dropPrefix "false" s' with
               | Some rest => Some (VBool false, rest)
               | None =>
               match dropPrefix "null" s' with
               | Some rest => Some (VNull, rest)
               | None => None
               end end end
      end
  end
with parse_elements (fuel : nat) (acc : list jsval) (s : string)
  : option (jsval * string) :=
  match fuel with
  | O => None
  | S f =>
      '(v, r) <- parse_value f s ;;
      match skip_ws r with
      | String c r' =>
          if Ascii.eqb c "," then parse_elements f (v :: acc) r'
          else if Ascii.eqb c "]" then Some (VArr (rev (v :: acc)), r')
          else None
      | EmptyString => None
      end
  end
with parse_members (fuel : nat) (acc : record) (s : string)
  : option (jsval * string) :=
  match fuel with
  | O => None
  | S f =>
      r <- startsWith DQ (skip_ws s) ;;
      '(k, r1) <- parse_chars r ;;
      r2 <- startsWith ":" (skip_ws r1) ;;
      '(v, r3) <- parse_value f r2 ;;
      match skip_ws r3 with
      | String c r4 =>
          if Ascii.eqb c "," then parse_members f (set acc k v) r4
          else if Ascii.eqb c "}" then Some (VObj (set acc k v), r4)
          else None
      | EmptyString => None
      end
  end.

(** [JSON.parse(s)]: [None] when it throws a SyntaxError. *)
Definition JSON_parse (s : string) : option jsval :=
  '(v, rest) <- parse_value (2 * String.length s + 2) s ;;
  if nonempty (skip_ws rest) then None else Some v.

(** ** The accounting engine *)

Record Stats : Type := mkStats {
  total_online_ms : number;
  total_offline_ms : number;
  last_status : option bool;
  last_timestamp : jsval
}.

Definition resetStats : Stats := mkStats (Ms 0) (Ms 0) None VNull.

(** The arguments of [appendStatsSegment]. *)
Record Segment : Type := mkSegment {
  status : string;
  start_at : jsval;
  end_at : jsval;
  duration_ms : number
}.

Definition computeOnline (reading : record) : bool :=
  match get reading "power" with
  | VBool p => p
  | VNum p _ => negb (p =? 0)
  | VStr p => (toLowerCase (trim p) =? "on")%string || (trim p =? "1")%string
  | _ => false
  end.

Definition formatMs (ms : number) : string :=
  match ms with
  | NaN => "NaN:NaN:NaN"
  | Ms ms =>
      let totalSeconds := ms / 1000 in
      let hours := padStart0 2 (intToString (totalSeconds / 3600)) in
      let minutes := padStart0 2 (intToString (Z.rem totalSeconds 3600 / 60)) in
      let seconds := padStart0 2 (intToString (Z.rem totalSeconds 60)) in
      hours ++ ":" ++ minutes ++ ":" ++ seconds
  end.

(** [Array.prototype.sort(cmp)]: a stable sort, written as the insertion
    sort; [a] moves behind [b] when [cmp(a, b) > 0], and a NaN result
    counts as zero.  With a comparator that orders the elements (here:
    every timestamp parses) this is the order the language prescribes.
    When the comparator returns NaN the order is left to the engine; the
    insertion sort then agrees with it on the lists whose neighbours the
    comparator all finds in order, a NaN counting as in order: the engine
    takes such a list as one ascending run and leaves it as it is. *)
Section Sort.
Context {A : Type} (cmp : A -> A -> number).

Fixpoint insert (x : A) (l : list A) : list A :=
  match l with
  | [] => [x]
  | h :: t => if gt0 (cmp x h) then h :: insert x t else x :: l
  end.

Fixpoint Array_sort (l : list A) : list A :=
  match l with
  | [] => []
  | x :: t => insert x (Array_sort t)
  end.

(** [a] may stand before [b]. *)
Definition keeps (a b : A) : Prop := gt0 (cmp a b) = false.
End Sort.

(** ToString, for the values that [new Date(v)] turns into a string.  An
    object is taken with the default [toString]. *)
Fixpoint ToString (v : jsval) : string :=
  match v with
  | VUndefined => "undefined"
  | VNull => "null"
  | VBool b => if b then "true" else "false"
  | VNum m e =>
      if overflows m e then (if m <? 0 then "-Infinity" else "Infinity")
      else numToString m e
  | VStr s => s
  | VArr l =>
      join "," (map (fun x => match x with
                              | VUndefined | VNull => ""
                              | _ => ToString x
                              end) l)
  | VObj _ => "[object Object]"
  end.

(** The binary64 number nearest to [a / d] is the integer above [n], the
    integer part of [a / d], for [n] below [2^53]: [a / d] lies beyond the
    middle of that integer and the binary64 number before it, or in the
    middle when the tie goes to the integer (its significand is even). *)
Definition rounds_up (a d n : Z) : bool :=
  let j := Z.log2 (n + 1) in
  let power := n + 1 =? 2 ^ j in
  let x := if power then 54 - j else 53 - j in
  let middle := ((n + 1) * 2 ^ x - 1) * d in
  (middle <? a * 2 ^ x)
  || ((middle =? a * 2 ^ x) && (power || (j <? 52) || Z.even (n + 1))).

(** TimeClip(ToNumber(v)) for the number read from [m / 10^e]: the integer
    part of the binary64 number, NaN beyond 8.64e15. *)
Definition TimeClip (m : Z) (e : nat) : number :=
  let d := 10 ^ Z.of_nat e in
  let a := Z.abs m in
  let n := a / d in
  if 2 ^ 53 <=? n then NaN
  else
    let n := if rounds_up a d n then n + 1 else n in
    if n <=? 8640000000000000 then Ms (Z.sgn m * n) else NaN.

(** The serial buffer, the two log files ([None]: the file is absent), the
    statistics, and the readings of the system clock still to come. *)
Record World : Type := mkWorld {
  stats : Stats;
  LOG_FILE : option string;
  STATS_LOG : option string;
  buffer : string;
  clock : nat -> Z;
  ticks : nat
}.

Definition set_stats (st : Stats) (w : World) : World :=
  mkWorld st (LOG_FILE w) (STATS_LOG w) (buffer w) (clock w) (ticks w).
Definition set_LOG_FILE (f : option string) (w : World) : World :=
  mkWorld (stats w) f (STATS_LOG w) (buffer w) (clock w) (ticks w).
Definition set_STATS_LOG (f : option string) (w : World) : World :=
  mkWorld (stats w) (LOG_FILE w) f (buffer w) (clock w) (ticks w).
Definition set_buffer (b : string) (w : World) : World :=
  mkWorld (stats w) (LOG_FILE w) (STATS_LOG w) b (clock w) (ticks w).

(** [Date.now()], [new Date()] *)
Definition Date_now (w : World) : Z * World :=
  (clock w (ticks w),
   mkWorld (stats w) (LOG_FILE w) (STATS_LOG w) (buffer w) (clock w) (S (ticks w))).

(** [fs.appendFile(f, data)] on the content of [f] *)
Definition appendFile (f : option string) (data : string) : option string :=
  match f with
  | Some raw => Some (raw ++ data)
  | None => Some data
  end.

(** [fs.readFile] then [split] and [filter], with the [catch] *)
Definition read_lines (f : option string) : list string :=
  match f with
  | Some raw => lines_of raw
  | None => []
  end.

(** [kept.map((obj) => JSON.stringify(obj)).join("\n") + "\n"] *)
Definition payload (kept : list record) : string :=
  join (String LF "") (map JSON_stringify kept) ++ String LF "".

(** [{ ...reading }] *)
Fixpoint indexed {A : Type} (i : Z) (l : list A) : list (string * A) :=
  match l with
  | [] => []
  | x :: t => (natToString i, x) :: indexed (i + 1) t
  end.

Definition spread (reading : jsval) : record :=
  match reading with
  | VObj o => o
  | VArr l => indexed 0 l
  | VStr s => indexed 0 (map (fun c => VStr (String c "")) (list_ascii_of_string s))
  | _ => []
  end.

Definition num_val (x : number) : jsval :=
  match x with Ms z => VNum z 0 | NaN => VNull end.

(** [new Date(v)] throws a TypeError: ToPrimitive finds no method of [v]
    that gives a primitive.  This is so for an object with an own
    [toString] property, which is not callable when it comes out of
    [JSON.parse], and for an array that holds such an object. *)
Fixpoint Date_throws (v : jsval) : bool :=
  match v with
  | VObj fs => existsb (fun kv => (fst kv =? "toString")%string) fs
  | VArr l => existsb Date_throws l
  | _ => false
  end.

Section Engine.

(** [new Date(s).getTime()] for a string [s], as the engine parses it *)
Variable Date_parse : string -> number.

(** The retention window in milliseconds *)
Variable RETENTION_MS : Z.

(** [new Date(v).getTime()]; NaN also stands for the TypeError of
    [Date_throws], which the callers that do not catch check first. *)
Definition Date_getTime (v : jsval) : number :=
  match v with
  | VUndefined => NaN
  | VNull => Ms 0
  | VBool b => Ms (if b then 1 else 0)
  | VNum m e => TimeClip m e
  | VStr s => Date_parse s
  | VArr _ | VObj _ => if Date_throws v then NaN else Date_parse (ToString v)
  end.

(** *** recomputeStats *)

Definition by_timestamp (a b : record) : number :=
  let ta := Date_getTime (get a "timestamp") in
  let tb := Date_getTime (get b "timestamp") in
  nsub ta tb.

(** One turn of the loop of [recomputeStats]. *)
Definition replay (nextStats : Stats) (reading : record) : Stats :=
  let tsMs := Date_getTime (get reading "timestamp") in
  if isNaN tsMs then nextStats
  else
    let online := computeOnline reading in
    let nextStats :=
      match last_status nextStats with
      | Some ls =>
          if truthy (last_timestamp nextStats) then
            let lastMs := Date_getTime (last_timestamp nextStats) in
            let delta := Math_max0 (nsub tsMs lastMs) in
            if ls then
              mkStats (nadd (total_online_ms nextStats) delta)
                      (total_offline_ms nextStats)
                      (last_status nextStats) (last_timestamp nextStats)
            else
              mkStats (total_online_ms nextStats)
                      (nadd (total_offline_ms nextStats) delta)
                      (last_status nextStats) (last_timestamp nextStats)
          else nextStats
      | None => nextStats
      end in
    mkStats (total_online_ms nextStats) (total_offline_ms nextStats)
            (Some online) (get reading "timestamp").

(** The call throws: [new Date(reading.timestamp)] throws for one of
    the readings, in the comparator or in the loop. *)
Definition recompute_throws (readings : list record) : bool :=
  existsb (fun r => Date_throws (get r "timestamp")) readings.

(** What [recomputeStats] returns, when it does not throw. *)
Definition recomputeStats (readings : list record) : Stats :=
  let sorted := Array_sort by_timestamp readings in
  fold_left replay sorted resetStats.

(** *** appendReading *)

(** Lines 219-240: the elapsed time goes to the total of the previous
    status; the result carries the segment handed to
    [appendStatsSegment], if any. *)
Definition attribute (st : Stats) (stamped : record) : Stats * option Segment :=
  let nowMs := Date_getTime (get stamped "timestamp") in
  let online := computeOnline stamped in
  match last_status st with
  | Some ls =>
      if truthy (last_timestamp st) then
        let lastMs := Date_getTime (last_timestamp st) in
        let delta := Math_max0 (nsub nowMs lastMs) in
        let st' :=
          if ls then
            mkStats (nadd (total_online_ms st) delta) (total_offline_ms st)
                    (last_status st) (last_timestamp st)
          else
            mkStats (total_online_ms st) (nadd (total_offline_ms st) delta)
                    (last_status st) (last_timestamp st) in
        if negb (Bool.eqb online ls) && gt0 delta then
          (st', Some (mkSegment (if ls then "online" else "offline")
                                (last_timestamp st)
                                (get stamped "timestamp") delta))
        else (st', None)
      else (st, None)
  | None => (st, None)
  end.

(** Lines 242-243 *)
Definition commit (st : Stats) (stamped : record) : Stats :=
  mkStats (total_online_ms st) (total_offline_ms st)
          (Some (computeOnline stamped)) (get stamped "timestamp").

(** The update of the statistics by one stamped reading. *)
Definition applyReading (st : Stats) (stamped : record) : Stats * option Segment :=
  let '(st', seg) := attribute st stamped in
  (commit st' stamped, seg).

Definition appendStatsSegment (seg : Segment) (w : World) : World :=
  let '(now, w) := Date_now w in
  let entry : record :=
    [ ("snapshot_at", VStr (toISOString now));
      ("status", VStr (status seg));
      ("start_at", start_at seg);
      ("end_at", end_at seg);
      ("duration_ms", num_val (duration_ms seg));
      ("duration_hms", VStr (formatMs (duration_ms seg))) ] in
  set_STATS_LOG
    (appendFile (STATS_LOG w) (JSON_stringify entry ++ String LF "")) w.

(** Lines 213-217: the reading is stamped and written to the log. *)
Definition stamp (reading : jsval) (w : World) : record * World :=
  let '(now, w) := Date_now w in
  let stamped := set (spread reading) "timestamp" (VStr (toISOString now)) in
  (stamped,
   set_LOG_FILE
     (appendFile (LOG_FILE w) (JSON_stringify stamped ++ String LF "")) w).

(** Lines 219-240 on the world. *)
Definition account (stamped : record) (w : World) : World * option Segment :=
  let '(st', seg) := attribute (stats w) stamped in
  let w := set_stats st' w in
  match seg with
  | Some sg => (appendStatsSegment sg w, seg)
  | None => (w, None)
  end.

Definition settle (stamped : record) (w : World) : World :=
  set_stats (commit (stats w) stamped) w.

(** A call of [appendReading] that is not interleaved with another. *)
Definition appendReading (reading : jsval) (w : World) : record * World :=
  let '(stamped, w) := stamp reading w in
  let '(w, _) := account stamped w in
  (stamped, settle stamped w).

(** *** Retention *)

(** The loop of [pruneOldStatsLog]; a line that fails to parse, or whose
    value has no properties, is skipped by the [catch]. *)
Fixpoint keep_segments (cutoff : Z) (lines : list string) : list record :=
  match lines with
  | [] => []
  | line :: rest =>
      match JSON_parse line with
      | Some (VObj obj) =>
          let ts := get obj "snapshot_at" in
          let tsMs := if truthy ts then Date_getTime ts else NaN in
          if negb (isNaN tsMs) && nge tsMs cutoff
          then obj :: keep_segments cutoff rest
          else keep_segments cutoff rest
      | _ => keep_segments cutoff rest
      end
  end.

Definition pruneOldStatsLog (w : World) : World :=
  let '(now, w) := Date_now w in
  let cutoff := now - RETENTION_MS in
  let lines := read_lines (STATS_LOG w) in
  let kept := keep_segments cutoff lines in
  match kept with
  | [] => set_STATS_LOG (Some "") w
  | _ => set_STATS_LOG (Some (payload kept)) w
  end.

(** The loop of [pruneOldReadings]. *)
Fixpoint keep_readings (cutoff : Z) (lines : list string) : list record :=
  match lines with
  | [] => []
  | line :: rest =>
      match JSON_parse line with
      | Some (VObj obj) =>
          let tsMs := Date_getTime (get obj "timestamp") in
          if negb (isNaN tsMs) && nge tsMs cutoff
          then obj :: keep_readings cutoff rest
          else keep_readings cutoff rest
      | _ => keep_readings cutoff rest
      end
  end.

Definition pruneOldReadings (w : World) : World :=
  let '(now, w) := Date_now w in
  let cutoff := now - RETENTION_MS in
  let lines := read_lines (LOG_FILE w) in
  let kept := keep_readings cutoff lines in
  match kept with
  | [] => set_stats resetStats (set_LOG_FILE (Some "") w)
  | _ => set_stats (recomputeStats kept) (set_LOG_FILE (Some (payload kept)) w)
  end.

(** *** The frame extractor of the serial link *)

Fixpoint indexOf (c : ascii) (s : string) : option nat :=
  match s with
  | EmptyString => None
  | String x t =>
      if Ascii.eqb x c then Some O
      else match indexOf c t with Some i => Some (S i) | None => None end
  end.

(** [s.slice(n)] *)
Fixpoint slice (n : nat) (s : string) : string :=
  match n, s with
  | O, _ => s
  | S n', String _ t => slice n' t
  | S _, EmptyString => EmptyString
  end.

(** The [for] loop of [flushBuffer], from index [i] with nesting
    [depth]: the index of the brace that closes the frame. *)
Fixpoint frame_end (s : string) (i : nat) (depth : Z) : option nat :=
  match s with
  | EmptyString => None
  | String ch t =>
      let depth := if Ascii.eqb ch "{" then depth + 1 else depth in
      let depth := if Ascii.eqb ch "}" then depth - 1 else depth in
      if (depth =? 0) && Ascii.eqb ch "}" then Some i
      else frame_end t (S i) depth
  end.

(** [flushBuffer]: the readings saved, oldest first.  Every turn but the
    last shortens the buffer, so a fuel of its length is enough. *)
Fixpoint flushBuffer (fuel : nat) (w : World) : list record * World :=
  match fuel with
  | O => ([], w)
  | S fuel' =>
      match indexOf "{" (buffer w) with
      | None => ([], set_buffer "" w)
      | Some start =>
          let w := if (0 <? start)%nat
                   then set_buffer (slice start (buffer w)) w else w in
          match frame_end (buffer w) 0 0 with
          | None => ([], w)
          | Some e =>
              let candidate := substring 0 (e + 1) (buffer w) in
              let w := set_buffer (slice (e + 1) (buffer w)) w in
              match JSON_parse candidate with
              | Some parsed =>
                  let '(saved, w) := appendReading parsed w in
                  let '(more, w) := flushBuffer fuel' w in
                  (saved :: more, w)
              | None => flushBuffer fuel' w
              end
          end
      end
  end.

(** The handler of the port's [data] event. *)
Definition onData (chunk : string) (w : World) : list record * World :=
  let w := set_buffer (buffer w ++ chunk) w in
  flushBuffer (S (String.length (buffer w))) w.

(** *** Vocabulary of the properties *)

Definition timestamp_ms (r : record) : number :=
  Date_getTime (get r "timestamp").

(** The timestamp of [r] parses. *)
Definition parseable (r : record) : Prop := isNaN (timestamp_ms r) = false.

(** Both timestamps parse and that of [a] is not the later one. *)
Definition not_later (a b : record) : Prop :=
  match timestamp_ms a, timestamp_ms b with
  | Ms x, Ms y => x <= y
  | _, _ => False
  end.

Definition chronological (l : list record) : Prop :=
  Forall parseable l /\ Sorted not_later l.

(** The statistics after [applyReading] has taken the readings of [l]
    one after the other, from the unset statistics. *)
Definition incremental (l : list record) : Stats :=
  fold_left (fun st r => fst (applyReading st r)) l resetStats.


(** The renderings of dates and of records stay folded in proofs. *)
Arguments toISOString t : simpl never.
Arguments JSON_stringify o : simpl never.
Arguments formatMs ms : simpl never.

(** *** Calls of [appendReading] in flight *)

(** Where a call of [appendReading] stands: not started, suspended at the
    [await] of line 217, suspended at the [await] of line 233, returned. *)
Inductive call : Type :=
| Called (reading : jsval)
| AwaitLog (stamped : record)
| AwaitSegment (stamped : record)
| Returned (stamped : record).

Definition emitted (seg : option Segment) : list Segment :=
  match seg with Some sg => [sg] | None => [] end.

(** The call runs up to its next [await] or to its end; the result
    carries the segment it hands to [appendStatsSegment], if any. *)
Definition resume (c : call) (w : World) : call * World * option Segment :=
  match c with
  | Called reading =>
      let '(stamped, w) := stamp reading w in (AwaitLog stamped, w, None)
  | AwaitLog stamped =>
      let '(w, seg) := account stamped w in
      match seg with
      | Some _ => (AwaitSegment stamped, w, seg)
      | None => (Returned stamped, settle stamped w, None)
      end
  | AwaitSegment stamped => (Returned stamped, settle stamped w, None)
  | Returned _ => (c, w, None)
  end.

(** Two calls on one event loop; the schedule says which of them resumes
    next ([true]: the first).  The result carries the segments emitted, in
    order. *)
Fixpoint interleave (sched : list bool) (a b : call) (w : World)
  : call * call * World * list Segment :=
  match sched with
  | [] => (a, b, w, [])
  | first :: rest =>
      if first then
        let '(a, w, seg) := resume a w in
        let '(a, b, w, segs) := interleave rest a b w in
        (a, b, w, (emitted seg ++ segs)%list)
      else
        let '(b, w, seg) := resume b w in
        let '(a, b, w, segs) := interleave rest a b w in
        (a, b, w, (emitted seg ++ segs)%list)
  end.

(** The statistics and segments when the stamped readings of [l] are
    taken one after the other. *)
Fixpoint serial (st : Stats) (l : list record) : Stats * list Segment :=
  match l with
  | [] => (st, [])
  | r :: t =>
      let '(st, seg) := applyReading st r in
      let '(st, segs) := serial st t in
      (st, (emitted seg ++ segs)%list)
  end.

(** Under [sched], two calls that have both returned leave the statistics
    and the segments of one of the two serial orders. *)
Definition serialized (sched : list bool) (ra rb : jsval) (w : World) : Prop :=
  let '(a, b, w', segs) := interleave sched (Called ra) (Called rb) w in
  forall sa sb : record,
    a = Returned sa -> b = Returned sb ->
    (stats w', segs) = serial (stats w) [sa; sb]
    \/ (stats w', segs) = serial (stats w) [sb; sa].

(** The first call returns before the second is made. *)
Definition one_after_the_other : list bool :=
  [true; true; true; false; false; false].

(** The call is suspended at the [await] of line 217, of line 233. *)
Definition at_log (c : call) : bool :=
  match c with AwaitLog _ => true | _ => false end.

Definition at_segment (c : call) : bool :=
  match c with AwaitSegment _ => true | _ => false end.

(** Under [sched], no call resumes from the [await] of line 217 while the
    other is suspended at the [await] of line 233: a call that has added
    its delta and waits for its segment to be written sets the last status
    and timestamp before the other call reads them. *)
Fixpoint exclusive (sched : list bool) (a b : call) (w : World) : bool :=
  match sched with
  | [] => true
  | first :: rest =>
      if first then
        negb (at_log a && at_segment b)
        && (let '(a, w, _) := resume a w in exclusive rest a b w)
      else
        negb (at_log b && at_segment a)
        && (let '(b, w, _) := resume b w in exclusive rest a b w)
  end.

(** The call has added its delta to the statistics. *)
Definition accounted (c : call) : bool :=
  match c with AwaitSegment _ | Returned _ => true | _ => false end.

(** The stamped reading of a call that has passed line 216. *)
Definition stamped_of (c : call) : option record :=
  match c with
  | Called _ => None
  | AwaitLog s | AwaitSegment s | Returned s => Some s
  end.

(** The statistics once the call suspended at line 233, if there is one,
    has run lines 242-243. *)
Definition settled_stats (a b : call) (w : World) : Stats :=
  match a, b with
  | AwaitSegment s, _ => commit (stats w) s
  | _, AwaitSegment s => commit (stats w) s
  | _, _ => stats w
  end.

(** What the rest of a schedule leaves, from any state of the two calls:
    the calls that have not added their delta yet take effect, in some
    order, on the statistics as the call suspended at line 233 sets
    them. *)
Definition rest_serialized (a b : call) (w : World) (st : Stats)
           (segs : list Segment) (sa sb : record) : Prop :=
  match accounted a, accounted b with
  | true, true => (st, segs) = (settled_stats a b w, [])
  | true, false => (st, segs) = serial (settled_stats a b w) [sb]
  | false, true => (st, segs) = serial (settled_stats a b w) [sa]
  | false, false =>
      (st, segs) = serial (settled_stats a b w) [sa; sb]
      \/ (st, segs) = serial (settled_stats a b w) [sb; sa]
  end.

(** Both calls stamp their reading before either goes on. *)
Definition overlap_at_the_log : list bool :=
  [true; false; true; true; false; false].

(** *** Frames *)

(** What [flushBuffer] cuts from a buffer: the frames that parse, in
    order, and the buffer that is left. *)
Fixpoint frames (fuel : nat) (buf : string) : list jsval * string :=
  match fuel with
  | O => ([], buf)
  | S fuel' =>
      match indexOf "{" buf with
      | None => ([], "")
      | Some start =>
          let buf := if (0 <? start)%nat then slice start buf else buf in
          match frame_end buf 0 0 with
          | None => ([], buf)
          | Some e =>
              let candidate := substring 0 (e + 1) buf in
              let '(more, rest) := frames fuel' (slice (e + 1) buf) in
              match JSON_parse candidate with
              | Some parsed => (parsed :: more, rest)
              | None => (more, rest)
              end
          end
      end
  end.

(** A reading saved by [appendReading] is the frame with a stamp. *)
Definition stamped_from (saved : record) (parsed : jsval) : Prop :=
  exists ts : string, saved = set (spread parsed) "timestamp" (VStr ts).

Definition quoted (s : string) : string := String DQ (s ++ String DQ "").

(** The two chunks of the example, and the first chunk's statement as the
    example has it: one record with [power] 1 after the first chunk, one
    more with [power] 0 after the second. *)
Definition chunk_one : string :=
  "garbage{" ++ quoted "power" ++ ":1}{" ++ String DQ "pow".
Definition chunk_two : string := "er" ++ String DQ ":0".

Definition yields_power (l : list record) (p : Z) : Prop :=
  exists r : record, l = [r] /\ get r "power" = VNum p 0.

Definition two_chunks_example (w : World) : Prop :=
  let '(l1, w1) := onData chunk_one w in
  let '(l2, _) := onData chunk_two w1 in
  yields_power l1 1 /\ yields_power l2 0.

(** *** Pairing *)

(** The last status and the last timestamp are both unset or both set. *)
Definition paired (st : Stats) : Prop :=
  (last_status st = None /\ last_timestamp st = VNull)
  \/ (last_status st <> None /\ last_timestamp st <> VNull).

(** *** Retention *)

(** The records of a log: the objects that its lines parse to. *)
Definition records_of (lines : list string) : list record :=
  flat_map (fun line => match JSON_parse line with
                        | Some (VObj o) => [o]
                        | _ => []
                        end) lines.

(** The time of a segment for retention: that of [snapshot_at]. *)
Definition snapshot_ms (o : record) : number :=
  let ts := get o "snapshot_at" in
  if truthy ts then Date_getTime ts else NaN.

(** The records of [l] whose time is [cutoff] or later. *)
Definition retained (time : record -> number) (cutoff : Z) (l : list record)
  : list record :=
  filter (fun o => nge (time o) cutoff) l.

(** What a prune writes for the records it keeps. *)
Definition written (kept : list record) : string :=
  match kept with [] => "" | _ => payload kept end.

(** [o] is read back from the line that [JSON.stringify] writes for it. *)
Definition reads_back (o : record) : Prop :=
  JSON_parse (JSON_stringify o) = Some (VObj o).

(** *** Sample data *)

Definition T0 : Z := 1762050000000.

Definition reading_at (power : jsval) (t : Z) : record :=
  [("power", power); ("timestamp", VStr (toISOString t))].

(** Off at [T0], on five seconds later, off again ten seconds after. *)
Definition sample_log : list record :=
  [ reading_at (VNum 0 0) T0;
    reading_at (VNum 1 0) (T0 + 5000);
    reading_at (VNum 0 0) (T0 + 15000) ].

Definition sample_segment (snap : Z) (st : string) (a b : Z) : record :=
  [ ("snapshot_at", VStr (toISOString snap));
    ("status", VStr st);
    ("start_at", VStr (toISOString a));
    ("end_at", VStr (toISOString b));
    ("duration_ms", VNum (b - a) 0);
    ("duration_hms", VStr (formatMs (Ms (b - a)))) ].

Definition sample_clock (times : list Z) : nat -> Z := fun n => nth n times 0.

(** A world with nothing on disk and an empty buffer. *)
Definition fresh_world (times : list Z) : World :=
  mkWorld resetStats None None "" (sample_clock times) 0.

(** The device was seen off at [T0]; the clock then reads
    [T0 + 5000], [T0 + 5001], [T0 + 5002], [T0 + 5003]. *)
Definition off_world : World :=
  mkWorld (mkStats (Ms 0) (Ms 0) (Some false) (VStr (toISOString T0)))
          None None ""
          (sample_clock [T0 + 5000; T0 + 5001; T0 + 5002; T0 + 5003]) 0.

(** Both logs hold a line that is not JSON and records of several ages;
    the clock stands at [T0 + 15000]. *)
Definition logged_world : World :=
  mkWorld resetStats
          (Some ("{oops" ++ String LF (payload sample_log)))
          (Some (payload [ sample_segment (T0 - 59999) "offline" (T0 - 65000)
                                          (T0 - 60000);
                           sample_segment (T0 + 15001) "online" (T0 + 5000)
                                          (T0 + 15000) ]
                   ++ "}{" ++ String LF ""))
          "" (fun _ => T0 + 15000) 0.

(** A log whose only reading, stamped [T0], has a power that binary64
    does not hold; the clock stands at [T0]. *)
Definition overflow_world : World :=
  mkWorld resetStats
          (Some ("{" ++ quoted "power" ++ ":1e400," ++ quoted "timestamp"
                     ++ ":" ++ quoted (toISOString T0) ++ "}" ++ String LF ""))
          None "" (fun _ => T0) 0.

(** A log whose only reading has a null timestamp. *)
Definition null_stamp_world : World :=
  mkWorld resetStats
          (Some ("{" ++ quoted "power" ++ ":1," ++ quoted "timestamp"
                     ++ ":null}" ++ String LF ""))
          None "" (fun _ => T0) 0.

(** Nothing on disk and unset statistics; the clock reads [T0], then
    [T0 + 5000], and [T0 + 15000] from then on. *)
Definition rising_world : World :=
  mkWorld resetStats None None ""
          (fun n => nth n [T0; T0 + 5000] (T0 + 15000)) 0.

(** Three readings as a client posts them. *)
Definition posted : list jsval :=
  [ VObj [("power", VNum 0 0)];
    VObj [("power", VStr "on"); ("id", VNum 7 0)];
    VObj [("power", VBool false); ("timestamp", VStr "soon")] ].

(** Two readings of the sample log around one whose timestamp is no
    date. *)
Definition mixed_log : list record :=
  [ reading_at (VNum 0 0) T0;
    [("power", VNum 1 0); ("timestamp", VStr "soon")];
    reading_at (VNum 1 0) (T0 + 5000) ].

(** [x <= y] on numbers that are not NaN *)
Definition num_le (x y : number) : Prop :=
  match x, y with
  | Ms a, Ms b => a <= b
  | _, _ => False
  end.

(** No total is NaN, and a last timestamp that the guard of line 222 lets
    through parses. *)
Definition healthy (st : Stats) : Prop :=
  isNaN (total_online_ms st) = false
  /\ isNaN (total_offline_ms st) = false
  /\ (truthy (last_timestamp st) = true ->
      isNaN (Date_getTime (last_timestamp st)) = false).

(** One turn of the loop of [flushBuffer] on a buffer that starts at an
    opening brace, and the turns that follow. *)
Definition extract (fuel : nat) (w : World) : list record * World :=
  match frame_end (buffer w) 0 0 with
  | None => ([], w)
  | Some e =>
      let candidate := substring 0 (e + 1) (buffer w) in
      let w := set_buffer (slice (e + 1) (buffer w)) w in
      match JSON_parse candidate with
      | Some parsed =>
          let '(saved, w) := appendReading parsed w in
          let '(more, w) := flushBuffer fuel w in
          (saved :: more, w)
      | None => flushBuffer fuel w
      end
  end.

(** [flushBuffer] with the fuel that [onData] gives it. *)
Definition flush (w : World) : list record * World :=
  flushBuffer (S (String.length (buffer w))) w.

(** The buffer holds nothing, or the beginning of a frame that is still
    open. *)
Definition open_frame (b : string) : Prop :=
  b = "" \/ (indexOf "{" b = Some O /\ frame_end b 0 0 = None).

(** *** Start-up *)

(** A parsed line as [recomputeStats] reads it: [null] has no properties
    and reading one throws; a value that is not an object has neither a
    [timestamp] nor a [power]. *)
Definition as_reading (v : jsval) : option record :=
  match v with
  | VObj o => Some o
  | VNull | VUndefined => None
  | VBool _ | VNum _ _ | VStr _ | VArr _ => Some []
  end.

(** The loop of [loadStatsFromReadings]: the lines that parse. *)
Fixpoint parsed_lines (lines : list string) : list jsval :=
  match lines with
  | [] => []
  | line :: rest =>
      match JSON_parse line with
      | Some v => v :: parsed_lines rest
      | None => parsed_lines rest
      end
  end.

Fixpoint all_readings (vs : list jsval) : option (list record) :=
  match vs with
  | [] => Some []
  | v :: t =>
      r <- as_reading v ;; rs <- all_readings t ;; Some (r :: rs)
  end.

(** [loadStatsFromReadings]; [None] when [recomputeStats] throws, which
    leaves the statistics as they were. *)
Definition loadStatsFromReadings (w : World) : option World :=
  let lines := read_lines (LOG_FILE w) in
  let readings := parsed_lines lines in
  match readings with
  | [] => Some (set_stats resetStats w)
  | _ =>
      rs <- all_readings readings ;;
      if recompute_throws rs then None
      else Some (set_stats (recomputeStats rs) w)
  end.

(** [initialize], up to the start of the daily timer. *)
Definition initialize (w : World) : option World :=
  loadStatsFromReadings (pruneOldStatsLog (pruneOldReadings w)).

(** Calls of [appendReading] one after the other. *)
Fixpoint appendReadings (rs : list jsval) (w : World) : World :=
  match rs with
  | [] => w
  | r :: t => appendReadings t (snd (appendReading r w))
  end.

(** The timestamp of [r] parses. *)
Definition parseableb (r : record) : bool := negb (isNaN (timestamp_ms r)).

(** *** What [JSON.parse] reads back *)

(** What follows a run of digits does not go on with a digit. *)
Definition no_digit_ahead (s : string) : Prop :=
  match s with
  | String c _ => isDigit c = false
  | EmptyString => True
  end.

(** What follows a serialized value inside an array or an object, or at
    the end of the text. *)
Definition delimited (s : string) : Prop :=
  match s with
  | EmptyString => True
  | String c _ => c = ","%char \/ c = "]"%char \/ c = "}"%char
  end.

(** A run of digits that is a JSON integer part: not empty, and a
    leading zero stands alone. *)
Definition integer_part (a : string) : Prop :=
  match a with
  | EmptyString => False
  | String c t => isDigit c = true /\ (c = "0"%char -> t = "")
  end.

(** No string occurs twice in [ks]. *)
Fixpoint distinct (ks : list string) : bool :=
  match ks with
  | [] => true
  | k :: t => negb (existsb (String.eqb k) t) && distinct t
  end.

(** A number as [parse_number] builds it: no trailing zeros in the
    fraction, and not so small that it is read as zero. *)
Definition normal (m : Z) (e : nat) : bool :=
  match e with
  | O => true
  | S _ => negb (m mod 10 =? 0) && negb (underflows m e)
  end.

(** The values that [JSON.parse] builds: no [undefined], numbers as
    [parse_number] builds them, objects without a repeated key. *)
Fixpoint shaped (v : jsval) : bool :=
  match v with
  | VUndefined => false
  | VNull | VBool _ | VStr _ => true
  | VNum m e => normal m e
  | VArr l => forallb shaped l
  | VObj fs =>
      distinct (map fst fs) && forallb (fun kv => shaped (snd kv)) fs
  end.

(** No number of [v] is beyond the range of binary64. *)
Fixpoint in_range (v : jsval) : bool :=
  match v with
  | VNum m e => negb (overflows m e)
  | VArr l => forallb in_range l
  | VObj fs => forallb (fun kv => in_range (snd kv)) fs
  | _ => true
  end.

(** The values that [JSON.parse] builds with finite numbers; they are the
    values that are read back from what [JSON.stringify] writes. *)
Fixpoint wellformed (v : jsval) : bool :=
  match v with
  | VUndefined => false
  | VNull | VBool _ | VStr _ => true
  | VNum m e => normal m e && negb (overflows m e)
  | VArr l => forallb wellformed l
  | VObj fs =>
      distinct (map fst fs) && forallb (fun kv => wellformed (snd kv)) fs
  end.

(** No [\u] escape of the text denotes a code unit of 256 or more, which
    the strings of the embedding do not hold. *)
Fixpoint no_wide_escape (s : string) : bool :=
  match s with
  | String c t =>
      if Ascii.eqb c BS then
        match t with
        | String x t1 =>
            if Ascii.eqb x "u" then
              match t1 with
              | String h3 (String h2 t2) =>
                  Ascii.eqb h3 "0" && Ascii.eqb h2 "0" && no_wide_escape t2
              | _ => true
              end
            else no_wide_escape t1
        | EmptyString => true
        end
      else no_wide_escape t
  | EmptyString => true
  end.

(** The lines of a log file are within the alphabet of the embedding. *)
Definition in_alphabet (f : option string) : bool :=
  match f with
  | Some raw => forallb no_wide_escape (lines_of raw)
  | None => true
  end.



(** The numbers of the records are within the range of binary64. *)
Definition all_in_range (records : list record) : bool :=
  forallb (fun o => in_range (VObj o)) records.


(** A fuel that is enough to parse what [serialize] writes for [v]. *)
Fixpoint need (v : jsval) : nat :=
  match v with
  | VArr l => S (list_sum (map (fun x => S (need x)) l))
  | VObj fs => S (list_sum (map (fun kv => S (need (snd kv))) fs))
  | _ => 1
  end.

(** [v] is read back, with any sufficient fuel, from what is written for
    it and is followed by a delimiter. *)
Definition reparsed (v : jsval) : Prop :=
  forall t : string, serialize v = Some t ->
  forall rest : string, delimited rest ->
  forall fuel : nat, (need v <= fuel)%nat ->
  parse_value fuel (t ++ rest) = Some (v, rest).

(** The text of a value, [null] standing for [undefined] as in arrays. *)
Definition text (v : jsval) : string :=
  match serialize v with Some t => t | None => "null" end.

(** The first character of the text of a value starts a value. *)
Definition value_head (s : string) : Prop :=
  exists c t, s = String c t
              /\ isJsonWs c = false /\ Ascii.eqb c "]" = false.

(** The text of a property of an object. *)
Definition entry (kv : string * jsval) : string :=
  quote (fst kv) ++ ":" ++ text (snd kv).

(** [a[k] = v] for a property [(k, v)] *)
Definition put (a : record) (kv : string * jsval) : record :=
  set a (fst kv) (snd kv).


(** From tick [t0] on the clock does not go back, and the engine's date
    parser reads the stamps that [toISOString] writes for its readings. *)
Definition steady_clock (t0 : nat) (clk : nat -> Z) : Prop :=
  (forall i j : nat, (t0 <= i)%nat -> (i <= j)%nat -> clk i <= clk j)
  /\ (forall n : nat, (t0 <= n)%nat -> Date_parse (toISOString (clk n)) = Ms (clk n)).

(** The readings log holds the lines of [L] and nothing else. *)
Definition log_holds (L : list record) (f : option string) : Prop :=
  match L with
  | [] => f = None \/ f = Some ""
  | _ => f = Some (payload L)
  end.

(** [w] is what calls of [appendReading], made one after the other since
    tick [t0] on an empty log and unset statistics, leave when they have
    stamped and saved the readings [L]. *)
Definition replayable (clk : nat -> Z) (t0 : nat) (L : list record) (w : World)
  : Prop :=
  clock w = clk
  /\ (t0 <= ticks w)%nat
  /\ log_holds L (LOG_FILE w)
  /\ stats w = incremental L
  /\ Forall (fun r => wellformed (VObj r) = true) L
  /\ Forall (fun r => exists n : nat,
                 (t0 <= n)%nat /\ (n < ticks w)%nat
                 /\ get r "timestamp" = VStr (toISOString (clk n))) L
  /\ Sorted not_later L.

(** The statistics [st] stand at the reading [cur], with the totals [on]
    and [off]. *)
Definition tracks (st : Stats) (cur : record) (on off : Z) : Prop :=
  last_status st <> None
  /\ last_timestamp st = get cur "timestamp"
  /\ total_online_ms st = Ms on
  /\ total_offline_ms st = Ms off.

(** Both totals are integers that are not negative, and a truthy last
    timestamp parses. *)
Definition sound (st : Stats) : Prop :=
  (exists on off : Z,
      total_online_ms st = Ms on /\ total_offline_ms st = Ms off
      /\ 0 <= on /\ 0 <= off)
  /\ (truthy (last_timestamp st) = true ->
      isNaN (Date_getTime (last_timestamp st)) = false).

(** The fields of a duration text [H:MM:SS], read as numbers: hours of
    two digits or more, minutes and seconds of two digits each. *)
Definition read_hms (s : string) : option (Z * Z * Z) :=
  let '(h, r1) := span_digits s in
  match r1 with
  | String c1 r1 =>
      let '(m, r2) := span_digits r1 in
      match r2 with
      | String c2 r2 =>
          let '(sec, r3) := span_digits r2 in
          if (Ascii.eqb c1 ":" && Ascii.eqb c2 ":" && (r3 =? "")%string
              && (2 <=? String.length h)%nat && (String.length m =? 2)%nat
              && (String.length sec =? 2)%nat)%bool
          then Some (digitsVal 0 h, digitsVal 0 m, digitsVal 0 sec)
          else None
      | EmptyString => None
      end
  | EmptyString => None
  end.

(** Every code unit of the text is below 128: the text is its own UTF-8
    encoding, byte for byte, wherever it is cut. *)
Fixpoint is_ascii (s : string) : bool :=
  match s with
  | String c t => (code c <? 128) && is_ascii t
  | EmptyString => true
  end.

(** The text starts with an opening brace, and its braces balance at its
    last character and not before: [flushBuffer] takes it as one frame. *)
Definition one_frame (f : string) : Prop :=
  indexOf "{" f = Some O
  /\ frame_end f 0 0 = Some (String.length f - 1)%nat.

(** A reading as a device writes it, with spaces. *)
Definition device_frame : string :=
  "{" ++ quoted "power" ++ ": 1, " ++ quoted "id" ++ ": 7 }".

(** *** Sorting by timestamp *)






(** * Properties *)

(** ** The status classifier *)

Lemma lowerChar_one (c : ascii) : lowerChar c = "1"%char -> c = "1"%char.
Proof.
destruct c as [[] [] [] [] [] [] [] []]; vm_compute; intro H;
  solve [reflexivity | discriminate H].
Qed.

Lemma toLowerCase_one (s : string) : toLowerCase s = "1" <-> s = "1".
Proof.
split.
- destruct s as [|c [|c' t]]; simpl; intro H; try discriminate H.
  injection H as H. now rewrite (lowerChar_one c H).
- intros ->. reflexivity.
Qed.

Lemma toLowerCase_one_eqb (s : string) :
(toLowerCase s =? "1")%string = (s =? "1")%string.
Proof.
destruct (String.eqb_spec s "1") as [E | E].
- subst s. reflexivity.
- apply String.eqb_neq. intro H. apply E. now apply toLowerCase_one.
Qed.

(** C7.  Whatever the [power] property of a reading holds, [computeOnline]
  yields a boolean: the value itself for a boolean, "differs from zero"
  for a number, for a string whether its trimmed, lower-cased text is
  "on" or "1", and [false] for anything else, a missing property
  included. *)
Theorem computeOnline_rule (reading : record) :
computeOnline reading =
  match get reading "power" with
  | VBool b => b
  | VNum m _ => negb (m =? 0)
  | VStr s =>
      let t := toLowerCase (trim s) in
      (t =? "on")%string || (t =? "1")%string
  | VUndefined | VNull | VArr _ | VObj _ => false
  end.
Proof.
unfold computeOnline.
destruct (get reading "power"); try reflexivity.
cbv zeta. now rewrite toLowerCase_one_eqb.
Qed.

(** The truth table of the classifier. *)
Example computeOnline_table :
computeOnline [("power", VBool true)] = true
/\ computeOnline [("power", VNum 0 0)] = false
/\ computeOnline [("power", VStr "On")] = true
/\ computeOnline [("power", VStr " 1 ")] = true
/\ computeOnline [("power", VStr "off")] = false
/\ computeOnline [("power", VNull)] = false
/\ computeOnline [("power", VObj [])] = false
/\ computeOnline [] = false.
Proof. repeat split. Qed.

(** ** Sorting *)

Section SortFacts.
Context {A : Type} (cmp : A -> A -> number).

Hypothesis cmp_antisym :
  forall a b, gt0 (cmp a b) = true -> gt0 (cmp b a) = false.

#[local] Abbreviation keeps := (keeps cmp).

Lemma insert_HdRel (x a : A) (l : list A) :
  keeps a x -> HdRel keeps a l -> HdRel keeps a (insert cmp x l).
Proof.
  intros Hax Hal. destruct l as [|h t]; simpl.
  - now constructor.
  - destruct (gt0 (cmp x h)); constructor; trivial.
    now inversion Hal.
Qed.

Lemma insert_Sorted (x : A) (l : list A) :
  Sorted keeps l -> Sorted keeps (insert cmp x l).
Proof.
  induction l as [|h t IH]; intro Hs; simpl.
  - repeat constructor.
  - destruct (gt0 (cmp x h)) eqn:E.
    + inversion Hs; subst. constructor; [now apply IH |].
      apply insert_HdRel; trivial. now apply cmp_antisym.
    + constructor; trivial. now constructor.
Qed.

Lemma Array_sort_Sorted (l : list A) : Sorted keeps (Array_sort cmp l).
Proof.
  induction l as [|x t IH]; simpl; [constructor | now apply insert_Sorted].
Qed.

Lemma insert_Permutation (x : A) (l : list A) :
  Permutation (x :: l) (insert cmp x l).
Proof.
  induction l as [|h t IH]; simpl; trivial.
  destruct (gt0 (cmp x h)); trivial.
  rewrite perm_swap. now constructor.
Qed.

Lemma Array_sort_Permutation (l : list A) : Permutation l (Array_sort cmp l).
Proof.
  induction l as [|x t IH]; simpl; trivial.
  rewrite <- insert_Permutation. now constructor.
Qed.

(** A list that is in order already is left as it is. *)
Lemma Array_sort_fixes (l : list A) : Sorted keeps l -> Array_sort cmp l = l.
Proof.
  induction l as [|x t IH]; intro Hs; simpl; trivial.
  inversion Hs as [|? ? Ht Hx]; subst. rewrite (IH Ht).
  destruct t as [|h t']; simpl; trivial.
  inversion Hx as [|? ? Hk]; subst. unfold keeps in Hk. now rewrite Hk.
Qed.

Lemma Array_sort_idempotent (l : list A) :
  Array_sort cmp (Array_sort cmp l) = Array_sort cmp l.
Proof. apply Array_sort_fixes, Array_sort_Sorted. Qed.
End SortFacts.

(** ** Replay *)


Lemma not_later_keeps (a b : record) :
  not_later a b -> keeps by_timestamp a b.
Proof.
  unfold not_later, keeps, by_timestamp, timestamp_ms.
  destruct (Date_getTime (get a "timestamp")),
           (Date_getTime (get b "timestamp")); simpl; trivial.
  intro H. apply Z.ltb_ge. lia.
Qed.

Lemma chronological_Sorted (l : list record) :
  chronological l -> Sorted (keeps by_timestamp) l.
Proof.
  intros [_ Hs]. induction Hs as [|a l Hs IH Hd]; constructor; trivial.
  destruct Hd; constructor. now apply not_later_keeps.
Qed.

(** On a reading whose timestamp parses, a turn of the replay loop is the
    incremental update. *)
Lemma replay_applyReading (st : Stats) (r : record) :
  parseable r -> replay st r = fst (applyReading st r).
Proof.
  unfold parseable, timestamp_ms, replay,
    applyReading, attribute, commit.
  intros ->.
  destruct (last_status st) as [[|]|]; trivial;
    destruct (truthy (last_timestamp st)); trivial;
    match goal with
    | |- context [if ?c then _ else _] => destruct c; reflexivity
    end.
Qed.

Lemma fold_replay_applyReading (l : list record) (st : Stats) :
  Forall (parseable) l ->
  fold_left replay l st = fold_left (fun s r => fst (applyReading s r)) l st.
Proof.
  intro H. revert st. induction H as [|r l Hr _ IH]; intro st; simpl; trivial.
  now rewrite replay_applyReading, IH.
Qed.

(** C1.  Replay equivalence: on readings whose timestamps parse and that
    come in chronological order, [recomputeStats] yields the statistics
    (both totals, last status, last timestamp) that the incremental update
    of [appendReading] builds when it takes the same readings in turn,
    starting from the unset statistics. *)
Theorem recompute_replay_equivalence (l : list record) :
  chronological l ->
  recomputeStats l = incremental l.
Proof.
  intro H. unfold recomputeStats, incremental.
  rewrite (Array_sort_fixes _ l (chronological_Sorted l H)).
  apply fold_replay_applyReading, H.
Qed.

(** ** Sort independence *)









(** ** The incremental update *)

(** C2.  When the statistics are set (the guard of line 222 holds) with a
    last timestamp at [last] ms, a reading stamped at [t] ms with status
    [s] adds [delta = max(0, t - last)] to the online total if the last
    status was online, to the offline total otherwise; and a segment for
    the previous status, from the last timestamp to the new one and of
    duration [delta], is emitted exactly when [s] differs from the last
    status and [delta > 0]. *)
Theorem applyReading_step (st : Stats) (stamped : record) (ls : bool) (last t : Z) :
  last_status st = Some ls ->
  truthy (last_timestamp st) = true ->
  Date_getTime (last_timestamp st) = Ms last ->
  timestamp_ms stamped = Ms t ->
  let s := computeOnline stamped in
  let delta := Z.max 0 (t - last) in
  let st' := fst (applyReading st stamped) in
  let seg := snd (applyReading st stamped) in
  total_online_ms st'
    = (if ls then nadd (total_online_ms st) (Ms delta) else total_online_ms st)
  /\ total_offline_ms st'
    = (if ls then total_offline_ms st else nadd (total_offline_ms st) (Ms delta))
  /\ (s <> ls /\ 0 < delta ->
      seg = Some (mkSegment (if ls then "online" else "offline")
                            (last_timestamp st) (get stamped "timestamp")
                            (Ms delta)))
  /\ (~ (s <> ls /\ 0 < delta) -> seg = None).
Proof.
  unfold timestamp_ms, applyReading, attribute, commit.
  intros Hls Htr Hlast Ht. rewrite Hls, Htr, Hlast, Ht. simpl.
  destruct (Bool.eqb (computeOnline stamped) ls) eqn:Es;
    destruct (0 <? Z.max 0 (t - last)) eqn:Ed; simpl;
    (split; [now destruct ls | split; [now destruct ls |]]).
  - apply Bool.eqb_prop in Es. split; [intros [H _]; now elim H | trivial].
  - apply Bool.eqb_prop in Es. split; [intros [H _]; now elim H | trivial].
  - split; [trivial | intro H; elim H]. split.
    + intro E. rewrite E, Bool.eqb_reflx in Es. discriminate Es.
    + now apply Z.ltb_lt.
  - apply Z.ltb_ge in Ed. split; [intros [_ H]; lia | trivial].
Qed.

(** A whole call of [appendReading], in terms of the update of the
    statistics: the segment it emits is the one appended to the segment
    log. *)
Lemma appendReading_applyReading (reading : jsval) (w : World) :
  let stamped := fst (stamp reading w) in
  let w1 := snd (stamp reading w) in
  let st' := fst (applyReading (stats w) stamped) in
  appendReading reading w
  = (stamped,
     set_stats st'
       match snd (applyReading (stats w) stamped) with
       | Some sg => appendStatsSegment sg w1
       | None => w1
       end).
Proof.
  unfold appendReading, stamp, account, settle, applyReading. simpl.
  destruct (attribute _ _) as [st1 [sg|]]; reflexivity.
Qed.

Lemma appendReading_stamped (reading : jsval) (w : World) :
  fst (appendReading reading w)
  = set (spread reading) "timestamp" (VStr (toISOString (clock w (ticks w)))).
Proof. now rewrite appendReading_applyReading. Qed.

Lemma get_set_same (o : record) (k : string) (v : jsval) : get (set o k v) k = v.
Proof.
  induction o as [|[k' v'] t IH]; simpl.
  - now rewrite String.eqb_refl.
  - destruct (k' =? k)%string eqn:E; simpl.
    + now rewrite String.eqb_refl.
    + now rewrite E.
Qed.

Lemma get_set_other (o : record) (k k' : string) (v : jsval) :
  k <> k' -> get (set o k v) k' = get o k'.
Proof.
  intro Hk. induction o as [|[k0 v0] t IH]; simpl.
  - apply String.eqb_neq in Hk. now rewrite Hk.
  - destruct (k0 =? k)%string eqn:E; simpl.
    + apply String.eqb_eq in E. subst k0.
      apply String.eqb_neq in Hk. now rewrite Hk.
    + now rewrite IH.
Qed.

(** C10.  Frame of one call of [appendReading], made on healthy statistics
    with a stamp that parses: one total grows by a [delta >= 0] and the
    other one is untouched, so no total decreases; and with unset
    statistics (the first reading) both totals are untouched. *)
Theorem appendReading_totals (reading : jsval) (w : World) :
  healthy (stats w) ->
  isNaN (Date_parse (toISOString (clock w (ticks w)))) = false ->
  let st := stats w in
  let st' := stats (snd (appendReading reading w)) in
  (exists delta : Z,
      0 <= delta
      /\ ((total_online_ms st' = nadd (total_online_ms st) (Ms delta)
           /\ total_offline_ms st' = total_offline_ms st)
          \/ (total_online_ms st' = total_online_ms st
              /\ total_offline_ms st' = nadd (total_offline_ms st) (Ms delta))))
  /\ num_le (total_online_ms st) (total_online_ms st')
  /\ num_le (total_offline_ms st) (total_offline_ms st')
  /\ (last_status st = None \/ last_timestamp st = VNull ->
      total_online_ms st' = total_online_ms st
      /\ total_offline_ms st' = total_offline_ms st).
Proof.
  intros (Hon & Hoff & Hts) Hnow. cbv zeta.
  rewrite appendReading_applyReading. cbn [snd fst]. cbn [stats set_stats].
  unfold applyReading, attribute, commit, stamp. cbn [fst snd Date_now].
  rewrite get_set_same. cbn [Date_getTime].
  destruct (Date_parse (toISOString (clock w (ticks w)))) as [|t];
    [discriminate Hnow | clear Hnow].
  destruct (total_online_ms (stats w)) as [|on] eqn:Eon; [discriminate Hon |].
  destruct (total_offline_ms (stats w)) as [|off] eqn:Eoff; [discriminate Hoff |].
  destruct (last_status (stats w)) as [ls|] eqn:Els.
  - destruct (truthy (last_timestamp (stats w))) eqn:Etr.
    + specialize (Hts eq_refl).
      destruct (Date_getTime (last_timestamp (stats w))) as [|last];
        [discriminate Hts |].
      cbn [nsub Math_max0].
      assert (Hd : 0 <= Z.max 0 (t - last)) by lia.
      destruct ls;
        match goal with
        | |- context [if ?c then _ else _] => destruct c
        end; cbn; rewrite ?Eon, ?Eoff; cbn;
        (split; [exists (Z.max 0 (t - last)); split; [exact Hd | tauto] |]);
        (split; [lia | split; [lia |]]);
        intros [H | H]; try discriminate H; rewrite H in Etr; discriminate Etr.
    + cbn. rewrite Eon, Eoff. cbn.
      split; [exists 0; split; [lia | left; split; [f_equal; lia | trivial]] |].
      split; [lia | split; [lia | intros _; split; reflexivity]].
  - cbn. rewrite Eon, Eoff. cbn.
    split; [exists 0; split; [lia | left; split; [f_equal; lia | trivial]] |].
    split; [lia | split; [lia | intros _; split; reflexivity]].
Qed.

(** The healthy statistics are those that the program builds. *)
Lemma healthy_resetStats : healthy resetStats.
Proof. repeat split. Qed.

Lemma replay_healthy (st : Stats) (r : record) :
  healthy st -> healthy (replay st r).
Proof.
  intros (Hon & Hoff & Hts). unfold replay.
  destruct (isNaN (Date_getTime (get r "timestamp"))) eqn:Ets;
    [now repeat split |].
  destruct (Date_getTime (get r "timestamp")) as [|t] eqn:Et;
    [discriminate Ets |].
  assert (Hnew : truthy (get r "timestamp") = true ->
                 isNaN (Date_getTime (get r "timestamp")) = false)
    by (intros _; now rewrite Et).
  destruct (last_status st) as [ls|]; [| now repeat split].
  destruct (truthy (last_timestamp st)) eqn:Etr; [| now repeat split].
  specialize (Hts eq_refl).
  destruct (Date_getTime (last_timestamp st)); [discriminate Hts |].
  destruct (total_online_ms st); [discriminate Hon |].
  destruct (total_offline_ms st); [discriminate Hoff |].
  destruct ls; now repeat split.
Qed.

Lemma fold_replay_healthy (l : list record) (st : Stats) :
  healthy st -> healthy (fold_left replay l st).
Proof.
  revert st. induction l as [|r t IH]; intros st H; simpl; trivial.
  apply IH. now apply replay_healthy.
Qed.

Lemma recomputeStats_healthy (l : list record) : healthy (recomputeStats l).
Proof. apply fold_replay_healthy, healthy_resetStats. Qed.

Lemma appendReading_healthy (reading : jsval) (w : World) :
  healthy (stats w) ->
  isNaN (Date_parse (toISOString (clock w (ticks w)))) = false ->
  healthy (stats (snd (appendReading reading w))).
Proof.
  intros (Hon & Hoff & Hts) Hnow.
  rewrite appendReading_applyReading. cbn [snd fst stats set_stats].
  unfold applyReading, attribute, commit, stamp. cbn [fst snd Date_now].
  rewrite get_set_same. cbn [Date_getTime].
  destruct (Date_parse (toISOString (clock w (ticks w)))) as [|t] eqn:Et;
    [discriminate Hnow |].
  destruct (total_online_ms (stats w)) eqn:Eon; [discriminate Hon |].
  destruct (total_offline_ms (stats w)) eqn:Eoff; [discriminate Hoff |].
  assert (Hnew : forall a b s,
             healthy (mkStats (Ms a) (Ms b) s
                              (VStr (toISOString (clock w (ticks w))))))
    by (intros a b s; split; [reflexivity | split; [reflexivity |]];
        intros _; cbn [last_timestamp Date_getTime]; now rewrite Et).
  destruct (last_status (stats w)) as [ls|];
    [| cbn; rewrite Eon, Eoff; apply Hnew].
  destruct (truthy (last_timestamp (stats w))) eqn:Etr;
    [| cbn; rewrite Eon, Eoff; apply Hnew].
  specialize (Hts eq_refl).
  destruct (Date_getTime (last_timestamp (stats w))); [discriminate Hts |].
  cbn [nsub Math_max0].
  destruct ls;
    match goal with
    | |- context [if ?c then _ else _] => destruct c
    end; cbn; rewrite ?Eon, ?Eoff; apply Hnew.
Qed.

(** ** Retention and the statistics *)

(** C6.  After a run of [pruneOldReadings] the statistics are
    [recomputeStats] of the readings kept when there are any, and the
    unset statistics (zero totals, neither status nor timestamp) when
    there are none; the log holds the readings kept. *)
Theorem pruneOldReadings_stats (w : World) :
  let cutoff := clock w (ticks w) - RETENTION_MS in
  let kept := keep_readings cutoff (read_lines (LOG_FILE w)) in
  stats (pruneOldReadings w)
  = match kept with
    | [] => mkStats (Ms 0) (Ms 0) None VNull
    | _ => recomputeStats kept
    end
  /\ LOG_FILE (pruneOldReadings w) = Some (written kept).
Proof.
  unfold pruneOldReadings. cbn.
  destruct (keep_readings _ _); split; reflexivity.
Qed.

(** ** Pairing of the last status and the last timestamp *)

Lemma resetStats_paired : paired resetStats.
Proof. left. split; reflexivity. Qed.

Lemma appendReading_paired (reading : jsval) (w : World) :
  paired (stats (snd (appendReading reading w))).
Proof.
  rewrite appendReading_applyReading. cbn [snd stats set_stats].
  unfold applyReading. destruct (attribute _ _) as [st1 sg]. cbn.
  right. unfold stamp. cbn. rewrite get_set_same. split; discriminate.
Qed.

Lemma replay_paired (st : Stats) (r : record) :
  get r "timestamp" <> VNull -> paired st -> paired (replay st r).
Proof.
  intros Hr Hp. unfold replay.
  destruct (isNaN _); trivial. right. cbn. split; [discriminate | exact Hr].
Qed.

(** Replaying readings none of which has a null timestamp gives paired
    statistics. *)
Lemma recomputeStats_paired (l : list record) :
  Forall (fun r => get r "timestamp" <> VNull) l -> paired (recomputeStats l).
Proof.
  intro H. unfold recomputeStats.
  assert (Hs : Forall (fun r => get r "timestamp" <> VNull)
                      (Array_sort by_timestamp l)).
  { rewrite Forall_forall in *. intros r Hin. apply H.
    eapply Permutation_in; [symmetry; apply Array_sort_Permutation | exact Hin]. }
  revert Hs. generalize (Array_sort by_timestamp l), resetStats_paired.
  generalize resetStats.
  intros st l0 Hp Hs. revert st Hp.
  induction Hs as [|r t Hr _ IH]; intros st Hp; simpl; trivial.
  apply IH. now apply replay_paired.
Qed.

(** C8.  The pairing is lost on a reading whose timestamp is JSON [null]:
    [new Date(null)] is the epoch, the reading is not skipped, and the
    replay leaves a last status with a null last timestamp. *)
Theorem recomputeStats_null_timestamp :
  let st := recomputeStats [[("power", VNum 1 0); ("timestamp", VNull)]] in
  last_status st = Some true /\ last_timestamp st = VNull /\ ~ paired st.
Proof.
  cbn. repeat split. intros [[H _] | [_ H]]; [discriminate H | now apply H].
Qed.

(** ** Calls that overlap *)

(** Two calls of [appendReading] of which the first has returned before
    the second is made take effect one after the other. *)
Lemma appendReading_one_after_the_other (ra rb : jsval) (w : World) :
  serialized one_after_the_other ra rb w.
Proof.
  unfold serialized, one_after_the_other, interleave, resume, stamp, account,
    settle, appendStatsSegment, Date_now, set_stats, set_LOG_FILE,
    set_STATS_LOG.
  cbn [stats LOG_FILE STATS_LOG buffer clock ticks].
  destruct (attribute (stats w) _) as [st1 [sg1|]] eqn:Ea;
    cbn [stats LOG_FILE STATS_LOG buffer clock ticks];
    match goal with
    | |- context [attribute ?st ?sb] =>
        destruct (attribute st sb) as [st2 [sg2|]] eqn:Eb
    end;
    cbn [stats LOG_FILE STATS_LOG buffer clock ticks emitted app];
    intros sa' sb' Ha Hb; injection Ha as <-; injection Hb as <-;
    left; unfold serial, applyReading; rewrite Ea, Eb; reflexivity.
Qed.

(** What a resumption does to the call and to the statistics. *)
Lemma resume_Called (r : jsval) (w : World) :
  exists (s : record) (w1 : World),
    resume (Called r) w = (AwaitLog s, w1, None) /\ stats w1 = stats w.
Proof.
  unfold resume, stamp. cbn [Date_now]. eexists _, _. split; reflexivity.
Qed.

Lemma resume_AwaitLog (s : record) (w : World) :
  exists w1 : World,
    match snd (applyReading (stats w) s) with
    | Some sg =>
        resume (AwaitLog s) w = (AwaitSegment s, w1, Some sg)
        /\ commit (stats w1) s = fst (applyReading (stats w) s)
    | None =>
        resume (AwaitLog s) w = (Returned s, w1, None)
        /\ stats w1 = fst (applyReading (stats w) s)
    end.
Proof.
  unfold resume, account, applyReading.
  destruct (attribute (stats w) s) as [st' [sg|]]; cbn [fst snd].
  - eexists. split; [reflexivity |].
    unfold appendStatsSegment. cbn [Date_now]. reflexivity.
  - eexists. split; reflexivity.
Qed.

Lemma resume_AwaitSegment (s : record) (w : World) :
  exists w1 : World,
    resume (AwaitSegment s) w = (Returned s, w1, None)
    /\ stats w1 = commit (stats w) s.
Proof. eexists. split; reflexivity. Qed.

Lemma commit_commit (st : Stats) (s s' : record) :
  commit (commit st s) s' = commit st s'.
Proof. reflexivity. Qed.

Lemma resume_stamped (c : call) (w : World) (s : record) :
  stamped_of c = Some s -> stamped_of (fst (fst (resume c w))) = Some s.
Proof.
  destruct c as [r|s0|s0|s0]; cbn [stamped_of]; intro H; try discriminate H.
  - destruct (resume_AwaitLog s0 w) as [w1 Hr].
    destruct (snd (applyReading (stats w) s0));
      destruct Hr as [-> _]; exact H.
  - exact H.
  - exact H.
Qed.

Lemma interleave_stamped (sched : list bool) :
  forall (a b : call) (w : World),
    let '(a', b', _, _) := interleave sched a b w in
    (forall s, stamped_of a = Some s -> stamped_of a' = Some s)
    /\ (forall s, stamped_of b = Some s -> stamped_of b' = Some s).
Proof.
  induction sched as [|first rest IH]; intros a b w; [now split |].
  cbn [interleave]. destruct first.
  - pose proof (resume_stamped a w) as Hs.
    destruct (resume a w) as [[a1 w1] seg]. cbn [fst] in Hs.
    specialize (IH a1 b w1).
    destruct (interleave rest a1 b w1) as [[[a' b'] w'] segs].
    destruct IH as [IHa IHb]. split; [| exact IHb].
    intros s H. apply IHa, Hs, H.
  - pose proof (resume_stamped b w) as Hs.
    destruct (resume b w) as [[b1 w1] seg]. cbn [fst] in Hs.
    specialize (IH a b1 w1).
    destruct (interleave rest a b1 w1) as [[[a' b'] w'] segs].
    destruct IH as [IHa IHb]. split; [exact IHa |].
    intros s H. apply IHb, Hs, H.
Qed.

Lemma serial_one (st : Stats) (s : record) :
  serial st [s] = (fst (applyReading st s), emitted (snd (applyReading st s))).
Proof.
  cbn [serial]. destruct (applyReading st s) as [st' seg]. cbn [fst snd].
  now rewrite app_nil_r.
Qed.

Lemma serial_cons (st : Stats) (s : record) (l : list record) :
  serial st (s :: l)
  = (fst (serial (fst (applyReading st s)) l),
     (emitted (snd (applyReading st s))
      ++ snd (serial (fst (applyReading st s)) l))%list).
Proof.
  cbn [serial]. destruct (applyReading st s) as [st' seg]. cbn [fst snd].
  now destruct (serial st' l).
Qed.

Lemma settled_stats_idle (a b : call) (w : World) :
  at_segment a = false -> at_segment b = false ->
  settled_stats a b w = stats w.
Proof. destruct a, b; cbn; trivial; discriminate. Qed.

(** The step of [interleave] in which the first call resumes. *)
Lemma interleave_exclusive_step (a b a1 : call) (w w1 : World)
      (seg : option Segment) (st : Stats) (segs : list Segment)
      (sa sb : record) :
  negb (at_log a && at_segment b) = true ->
  at_segment a && at_segment b = false ->
  resume a w = (a1, w1, seg) ->
  (stamped_of a1 = Some sa) ->
  at_segment a1 && at_segment b = false
  /\ (rest_serialized a1 b w1 st segs sa sb ->
      rest_serialized a b w st (emitted seg ++ segs) sa sb).
Proof.
  intros Hnow Hinv Hr Hsa. unfold rest_serialized.
  destruct a as [r|s|s|s].
  - destruct (resume_Called r w) as (s & w' & Hr' & Hst).
    rewrite Hr in Hr'. injection Hr' as -> -> ->.
    split; [reflexivity |]. cbn [accounted emitted app].
    replace (settled_stats (AwaitLog s) b w') with (settled_stats (Called r) b w)
      by (destruct b; cbn [settled_stats]; now rewrite Hst).
    trivial.
  - cbn [at_log andb negb] in Hnow. apply negb_true_iff in Hnow.
    destruct (resume_AwaitLog s w) as [w' Hr'].
    rewrite (settled_stats_idle (AwaitLog s) b w eq_refl Hnow).
    destruct (snd (applyReading (stats w) s)) as [sg|] eqn:Eseg;
      destruct Hr' as [Hr' Hst]; rewrite Hr in Hr'; injection Hr' as -> -> ->;
      cbn [stamped_of] in Hsa; injection Hsa as ->.
    + split; [cbn [at_segment andb]; exact Hnow |].
      cbn [accounted emitted].
      assert (E : settled_stats (AwaitSegment sa) b w'
                  = fst (applyReading (stats w) sa))
        by (cbn [settled_stats]; exact Hst).
      rewrite E. destruct (accounted b).
      * intro H. injection H as -> ->. rewrite serial_one, Eseg. reflexivity.
      * intro H. left. rewrite serial_cons, Eseg, <- H. reflexivity.
    + split; [reflexivity |]. cbn [accounted emitted app].
      rewrite (settled_stats_idle (Returned sa) b w' eq_refl Hnow), Hst.
      destruct (accounted b).
      * intro H. injection H as -> ->. rewrite serial_one, Eseg. reflexivity.
      * intro H. left. rewrite serial_cons, Eseg, <- H. reflexivity.
  - cbn [at_segment andb] in Hinv.
    destruct (resume_AwaitSegment s w) as (w' & Hr' & Hst).
    rewrite Hr in Hr'. injection Hr' as -> -> ->.
    split; [reflexivity |]. cbn [accounted emitted app].
    replace (settled_stats (Returned s) b w')
      with (settled_stats (AwaitSegment s) b w)
      by (rewrite (settled_stats_idle (Returned s) b w' eq_refl Hinv);
          cbn [settled_stats]; now rewrite Hst).
    trivial.
  - cbn [resume] in Hr. injection Hr as <- <- <-.
    split; [exact Hinv |]. cbn [emitted app]. trivial.
Qed.

Lemma rest_serialized_swap (a b : call) (w : World) (st : Stats)
      (segs : list Segment) (sa sb : record) :
  at_segment a && at_segment b = false ->
  rest_serialized a b w st segs sa sb <-> rest_serialized b a w st segs sb sa.
Proof.
  unfold rest_serialized.
  destruct a, b; cbn [at_segment andb accounted settled_stats]; intro H;
    try discriminate H; tauto.
Qed.

Lemma interleave_exclusive (sched : list bool) :
  forall (a b : call) (w : World),
    exclusive sched a b w = true ->
    at_segment a && at_segment b = false ->
    let '(a', b', w', segs) := interleave sched a b w in
    forall sa sb : record,
      a' = Returned sa -> b' = Returned sb ->
      rest_serialized a b w (stats w') segs sa sb.
Proof.
  induction sched as [|first rest IH]; intros a b w Hex Hinv.
  - cbn [interleave]. intros sa sb -> ->. reflexivity.
  - cbn [interleave exclusive] in *. destruct first;
      apply andb_prop in Hex; destruct Hex as [Hnow Hex].
    + pose proof (interleave_exclusive_step a b) as Hstep.
      destruct (resume a w) as [[a1 w1] seg] eqn:Er.
      pose proof (interleave_stamped rest a1 b w1) as Hst.
      specialize (IH a1 b w1 Hex).
      destruct (interleave rest a1 b w1) as [[[a' b'] w'] segs].
      intros sa sb -> ->. destruct Hst as [Hsa _].
      assert (Hs1 : stamped_of a1 = Some sa \/ stamped_of a1 = None)
        by (destruct (stamped_of a1) as [s|] eqn:E;
            [left; specialize (Hsa s eq_refl); cbn in Hsa; congruence
            | now right]).
      destruct Hs1 as [Hs1 | Hs1].
      * destruct (Hstep a1 w w1 seg (stats w') segs sa sb Hnow Hinv Er Hs1)
          as [Hinv1 Hgo].
        apply Hgo. now apply IH.
      * destruct a as [r|s|s|s].
        { destruct (resume_Called r w) as (s & w2 & Hr' & Hst').
          rewrite Er in Hr'. injection Hr' as -> -> ->. discriminate Hs1. }
        { pose proof (resume_stamped (AwaitLog s) w s eq_refl) as H.
          rewrite Er in H. cbn [fst] in H. congruence. }
        { pose proof (resume_stamped (AwaitSegment s) w s eq_refl) as H.
          rewrite Er in H. cbn [fst] in H. congruence. }
        { pose proof (resume_stamped (Returned s) w s eq_refl) as H.
          rewrite Er in H. cbn [fst] in H. congruence. }
    + pose proof (interleave_exclusive_step b a) as Hstep.
      destruct (resume b w) as [[b1 w1] seg] eqn:Er.
      pose proof (interleave_stamped rest a b1 w1) as Hst.
      specialize (IH a b1 w1 Hex).
      destruct (interleave rest a b1 w1) as [[[a' b'] w'] segs].
      intros sa sb -> ->. destruct Hst as [_ Hsb].
      rewrite andb_comm in Hinv.
      assert (Hs1 : stamped_of b1 = Some sb \/ stamped_of b1 = None)
        by (destruct (stamped_of b1) as [s|] eqn:E;
            [left; specialize (Hsb s eq_refl); cbn in Hsb; congruence
            | now right]).
      destruct Hs1 as [Hs1 | Hs1].
      * destruct (Hstep b1 w w1 seg (stats w') segs sb sa Hnow Hinv Er Hs1)
          as [Hinv1 Hgo].
        assert (Hab : at_segment a && at_segment b = false)
          by (rewrite andb_comm; exact Hinv).
        assert (Hab1 : at_segment a && at_segment b1 = false)
          by (rewrite andb_comm; exact Hinv1).
        apply (proj2 (rest_serialized_swap a b w _ _ sa sb Hab)), Hgo.
        apply (proj1 (rest_serialized_swap a b1 w1 _ _ sa sb Hab1)).
        now apply IH.
      * destruct b as [r|s|s|s].
        { destruct (resume_Called r w) as (s & w2 & Hr' & Hst').
          rewrite Er in Hr'. injection Hr' as -> -> ->. discriminate Hs1. }
        { pose proof (resume_stamped (AwaitLog s) w s eq_refl) as H.
          rewrite Er in H. cbn [fst] in H. congruence. }
        { pose proof (resume_stamped (AwaitSegment s) w s eq_refl) as H.
          rewrite Er in H. cbn [fst] in H. congruence. }
        { pose proof (resume_stamped (Returned s) w s eq_refl) as H.
          rewrite Er in H. cbn [fst] in H. congruence. }
Qed.

(** C9.  Two calls of [appendReading] in flight leave the statistics and
    the segments of one of the two serial orders under every schedule in
    which no call resumes from the [await] of line 217 while the other is
    suspended at the [await] of line 233; calls that overlap only at the
    [await] of line 217 are among them. *)
Theorem appendReading_serialized_when_exclusive
        (sched : list bool) (ra rb : jsval) (w : World) :
  exclusive sched (Called ra) (Called rb) w = true ->
  serialized sched ra rb w.
Proof.
  intro Hex. unfold serialized.
  pose proof (interleave_exclusive sched (Called ra) (Called rb) w Hex eq_refl)
    as H.
  destruct (interleave sched (Called ra) (Called rb) w) as [[[a b] w'] segs].
  intros sa sb Ha Hb. exact (H sa sb Ha Hb).
Qed.

(** ** The frame extractor *)

Lemma appendReading_buffer (reading : jsval) (w : World) :
  buffer (snd (appendReading reading w)) = buffer w.
Proof.
  rewrite appendReading_applyReading. cbn [snd].
  destruct (snd (applyReading _ _)); reflexivity.
Qed.

Lemma flushBuffer_frames (fuel : nat) (w : World) :
  buffer (snd (flushBuffer fuel w)) = snd (frames fuel (buffer w))
  /\ Forall2 stamped_from (fst (flushBuffer fuel w)) (fst (frames fuel (buffer w))).
Proof.
  revert w. induction fuel as [|fuel IH]; intro w; simpl.
  - split; [reflexivity | constructor].
  - destruct (indexOf "{" (buffer w)) as [start|]; [| split; [reflexivity | constructor]].
    set (w1 := if (0 <? start)%nat then set_buffer (slice start (buffer w)) w else w).
    assert (Hb : buffer w1 = if (0 <? start)%nat then slice start (buffer w) else buffer w)
      by (unfold w1; now destruct (0 <? start)%nat).
    rewrite <- Hb.
    destruct (frame_end (buffer w1) 0 0) as [e|]; [| split; [reflexivity | constructor]].
    destruct (JSON_parse (substring 0 (e + 1) (buffer w1))) as [parsed|].
    + set (w2 := set_buffer (slice (e + 1) (buffer w1)) w1).
      destruct (appendReading parsed w2) as [saved w3] eqn:Ea.
      assert (Hb3 : buffer w3 = slice (e + 1) (buffer w1)).
      { change w3 with (snd (saved, w3)). rewrite <- Ea.
        now rewrite appendReading_buffer. }
      destruct (IH w3) as [IHb IHl]. rewrite Hb3 in IHb, IHl.
      destruct (flushBuffer fuel w3) as [more w4].
      destruct (frames fuel (slice (e + 1) (buffer w1))) as [fs rest].
      split; [exact IHb |]. constructor; [| exact IHl].
      exists (toISOString (clock w2 (ticks w2))).
      change saved with (fst (saved, w3)). rewrite <- Ea.
      apply appendReading_stamped.
    + destruct (IH (set_buffer (slice (e + 1) (buffer w1)) w1)) as [IHb IHl].
      cbn [buffer set_buffer] in IHb, IHl.
      destruct (frames fuel (slice (e + 1) (buffer w1))) as [fs rest].
      split; assumption.
Qed.

Lemma onData_frames (chunk : string) (w : World) :
  let buf := buffer w ++ chunk in
  buffer (snd (onData chunk w)) = snd (frames (S (String.length buf)) buf)
  /\ Forall2 stamped_from (fst (onData chunk w))
             (fst (frames (S (String.length buf)) buf)).
Proof. apply (flushBuffer_frames _ (set_buffer (buffer w ++ chunk) w)). Qed.

Lemma stamped_power (saved : record) (parsed : jsval) (p : Z) :
  stamped_from saved parsed ->
  get (spread parsed) "power" = VNum p 0 ->
  yields_power [saved] p.
Proof.
  intros [ts ->] Hp. exists (set (spread parsed) "timestamp" (VStr ts)).
  split; trivial. rewrite get_set_other; [exact Hp | discriminate].
Qed.

(** C4.  From an empty buffer, the first chunk yields one record, with
    [power] 1; the second chunk, which ends inside a frame, yields none
    and the frame read so far stays in the buffer; the record with
    [power] 0 is yielded once the closing brace has come. *)
Theorem frame_extractor_two_chunks (w : World) :
  buffer w = "" ->
  let '(l1, w1) := onData chunk_one w in
  let '(l2, w2) := onData chunk_two w1 in
  let '(l3, _) := onData "}" w2 in
  yields_power l1 1
  /\ l2 = []
  /\ buffer w2 = "{" ++ quoted "power" ++ ":0"
  /\ yields_power l3 0.
Proof.
  intro Hw.
  assert (F1 : frames (S (String.length ("" ++ chunk_one))) ("" ++ chunk_one)
               = ([VObj [("power", VNum 1 0)]], "{" ++ String DQ "pow"))
    by (vm_compute; reflexivity).
  assert (F2 : let buf := ("{" ++ String DQ "pow") ++ chunk_two in
               frames (S (String.length buf)) buf
               = ([], "{" ++ quoted "power" ++ ":0"))
    by (vm_compute; reflexivity).
  assert (F3 : let buf := ("{" ++ quoted "power" ++ ":0") ++ "}" in
               frames (S (String.length buf)) buf
               = ([VObj [("power", VNum 0 0)]], ""))
    by (vm_compute; reflexivity).
  cbv zeta in F2, F3.
  destruct (onData_frames chunk_one w) as [Hb1 Hl1].
  rewrite Hw, F1 in Hb1, Hl1.
  destruct (onData chunk_one w) as [l1 w1]. cbn [fst snd] in Hb1, Hl1.
  destruct (onData_frames chunk_two w1) as [Hb2 Hl2].
  rewrite Hb1, F2 in Hb2, Hl2.
  destruct (onData chunk_two w1) as [l2 w2]. cbn [fst snd] in Hb2, Hl2.
  destruct (onData_frames "}" w2) as [_ Hl3].
  rewrite Hb2, F3 in Hl3.
  destruct (onData "}" w2) as [l3 w3]. cbn [fst] in Hl3.
  inversion Hl1 as [|s1 p1 t1 q1 Hs1 Ht1]; subst. inversion Ht1; subst.
  inversion Hl2; subst.
  inversion Hl3 as [|s3 p3 t3 q3 Hs3 Ht3]; subst. inversion Ht3; subst.
  split; [now apply (stamped_power _ _ 1 Hs1) |].
  split; [reflexivity |]. split; [exact Hb2 |].
  now apply (stamped_power _ _ 0 Hs3).
Qed.

(** ** Lines *)

Lemma append_assoc (a b c : string) : (a ++ b) ++ c = a ++ (b ++ c).
Proof. induction a as [|x a IH]; simpl; [reflexivity | now rewrite IH]. Qed.

Lemma append_empty_r (a : string) : a ++ "" = a.
Proof. induction a as [|x a IH]; simpl; [reflexivity | now rewrite IH]. Qed.

Lemma lacks_app (c : ascii) (a b : string) :
  lacks c (a ++ b) = lacks c a && lacks c b.
Proof.
  induction a as [|x a IH]; simpl; [reflexivity |].
  now rewrite IH, andb_assoc.
Qed.

Lemma split_lines_app (a b : string) :
  lacks LF a = true -> split_lines (a ++ String LF b) = a :: split_lines b.
Proof.
  induction a as [|x a IH]; simpl; intro H; [reflexivity |].
  apply andb_true_iff in H. destruct H as [Hx Ha].
  apply negb_true_iff in Hx. now rewrite Hx, (IH Ha).
Qed.

Lemma split_lines_joined (ls : list string) :
  Forall (fun l => lacks LF l = true) ls -> ls <> [] ->
  split_lines (join (String LF "") ls ++ String LF "") = (ls ++ [""])%list.
Proof.
  induction ls as [|x t IH]; intros H Hne; [now elim Hne |].
  inversion H as [|? ? Hx Ht]; subst.
  destruct t as [|y t].
  - simpl join. now rewrite split_lines_app.
  - change (join (String LF "") (x :: y :: t))
      with (x ++ String LF (join (String LF "") (y :: t))).
    rewrite append_assoc. change (String LF ?a ++ ?b) with (String LF (a ++ b)).
    rewrite (split_lines_app _ _ Hx), IH; [reflexivity | exact Ht | discriminate].
Qed.

Lemma lines_of_joined (ls : list string) :
  Forall (fun l => lacks LF l = true) ls ->
  Forall (fun l => nonempty l = true) ls ->
  ls <> [] ->
  lines_of (join (String LF "") ls ++ String LF "") = ls.
Proof.
  intros Hl Hn Hne. unfold lines_of. rewrite (split_lines_joined _ Hl Hne).
  rewrite filter_app. simpl. rewrite app_nil_r.
  clear Hl Hne. induction Hn as [|x t Hx _ IH]; simpl; [reflexivity |].
  now rewrite Hx, IH.
Qed.

(** ** What [JSON.stringify] writes has no line feed *)

Lemma digitChar_not_LF (d : Z) :
  0 <= d < 10 -> Ascii.eqb (digitChar d) LF = false.
Proof.
  intro H.
  assert (E : d = 0 \/ d = 1 \/ d = 2 \/ d = 3 \/ d = 4 \/ d = 5 \/ d = 6
              \/ d = 7 \/ d = 8 \/ d = 9) by lia.
  repeat (destruct E as [E | E]; [subst d; reflexivity |]).
  subst d; reflexivity.
Qed.

Lemma digitsOf_lacks_LF (fuel : nat) (n : Z) (acc : string) :
  lacks LF acc = true -> lacks LF (digitsOf fuel n acc) = true.
Proof.
  revert n acc. induction fuel as [|f IH]; intros n acc H; simpl; trivial.
  assert (H' : lacks LF (String (digitChar (n mod 10)) acc) = true).
  { simpl. rewrite H, digitChar_not_LF; [reflexivity |].
    apply Z.mod_pos_bound. lia. }
  destruct (n <? 10); [exact H' | now apply IH].
Qed.

Lemma padStart0_lacks_LF (w : nat) (s : string) :
  lacks LF s = true -> lacks LF (padStart0 w s) = true.
Proof.
  intro H. unfold padStart0. rewrite lacks_app, H, andb_true_r.
  induction (w - String.length s)%nat as [|k IH]; simpl; trivial.
Qed.

Lemma splitAt_app (n : nat) (s a b : string) :
  splitAt n s = Some (a, b) -> s = a ++ b.
Proof.
  revert s a b. induction n as [|n IH]; intros s a b; simpl.
  - intro H. injection H as <- <-. reflexivity.
  - destruct s as [|c t]; [discriminate |].
    destruct (splitAt n t) as [[a' b']|] eqn:E; [| discriminate].
    intro H. injection H as <- <-. simpl. now rewrite (IH _ _ _ E).
Qed.

Lemma numToString_lacks_LF (m : Z) (e : nat) : lacks LF (numToString m e) = true.
Proof.
  unfold numToString.
  set (ds := padStart0 (S e) (natToString (Z.abs m))).
  assert (Hds : lacks LF ds = true)
    by (apply padStart0_lacks_LF, digitsOf_lacks_LF; reflexivity).
  assert (Hb : lacks LF match e with
                        | O => ds
                        | S _ =>
                            match splitAt (String.length ds - e) ds with
                            | Some (a, b) => a ++ "." ++ b
                            | None => ds
                            end
                        end = true).
  { destruct e; trivial.
    destruct (splitAt _ ds) as [[a b]|] eqn:E; trivial.
    apply splitAt_app in E. rewrite E, lacks_app in Hds.
    apply andb_true_iff in Hds. destruct Hds as [Ha Hb].
    rewrite lacks_app, Ha. simpl. exact Hb. }
  destruct (m <? 0); simpl; trivial.
Qed.

Lemma escapeChar_lacks_LF (c : ascii) : lacks LF (escapeChar c) = true.
Proof. destruct c as [[] [] [] [] [] [] [] []]; reflexivity. Qed.

Lemma escapeString_lacks_LF (s : string) : lacks LF (escapeString s) = true.
Proof.
  induction s as [|c t IH]; simpl; trivial.
  now rewrite lacks_app, escapeChar_lacks_LF, IH.
Qed.

Lemma quote_lacks_LF (s : string) : lacks LF (quote s) = true.
Proof.
  unfold quote. simpl. rewrite lacks_app. simpl.
  now rewrite andb_true_r, escapeString_lacks_LF.
Qed.

Lemma join_lacks_LF (l : list string) :
  Forall (fun t => lacks LF t = true) l -> lacks LF (join "," l) = true.
Proof.
  induction 1 as [|x t Hx Ht IH]; trivial.
  destruct t as [|y t]; [exact Hx |].
  change (join "," (x :: y :: t)) with (x ++ "," ++ join "," (y :: t)).
  now rewrite !lacks_app, Hx, IH.
Qed.

Lemma serialize_lacks_LF (v : jsval) (t : string) :
  serialize v = Some t -> lacks LF t = true.
Proof.
  revert t. induction v as [| |b|m e|s|l IH|fs IH] using jsval_induction;
    intros t; simpl; intro H; try discriminate H; injection H as <-.
  - reflexivity.
  - now destruct b.
  - destruct (overflows m e); [reflexivity | apply numToString_lacks_LF].
  - apply quote_lacks_LF.
  - simpl. rewrite lacks_app. simpl. rewrite andb_true_r.
    apply join_lacks_LF. induction IH as [|x l Hx _ IHl]; simpl; constructor; trivial.
    destruct (serialize x) as [tx|]; [now apply Hx | reflexivity].
  - simpl. rewrite lacks_app. simpl. rewrite andb_true_r.
    apply join_lacks_LF. induction IH as [|[k x] l Hx _ IHl]; simpl; trivial.
    simpl in Hx. destruct (serialize x) as [tx|]; simpl; trivial.
    constructor; trivial.
    cbn [lacks]. rewrite !lacks_app. cbn [lacks].
    now rewrite escapeString_lacks_LF, (Hx tx eq_refl).
Qed.

Lemma JSON_stringify_line (o : record) :
  lacks LF (JSON_stringify o) = true /\ nonempty (JSON_stringify o) = true.
Proof.
  unfold JSON_stringify. split.
  - destruct (serialize (VObj o)) as [t|] eqn:E; [| reflexivity].
    now apply (serialize_lacks_LF (VObj o)).
  - reflexivity.
Qed.

(** * [JSON.stringify] and [JSON.parse] *)

(** ** Decimal digits, written and read *)

Lemma code_chr (n : Z) : 0 <= n < 256 -> code (chr n) = n.
Proof.
  intro H. unfold code, chr. rewrite N_ascii_embedding; lia.
Qed.

Lemma isDigit_digitChar (d : Z) : 0 <= d < 10 -> isDigit (digitChar d) = true.
Proof.
  intro H. unfold isDigit, digitChar. rewrite code_chr by lia.
  apply andb_true_iff. split; apply Z.leb_le; lia.
Qed.

Lemma digitVal_digitChar (d : Z) : 0 <= d < 10 -> digitVal (digitChar d) = d.
Proof. intro H. unfold digitVal, digitChar. rewrite code_chr by lia. lia. Qed.

Lemma digitsVal_app (a b : string) (acc : Z) :
  digitsVal acc (a ++ b) = digitsVal (digitsVal acc a) b.
Proof. revert acc. induction a as [|c a IH]; intro acc; simpl; trivial. Qed.

Lemma allDigits_app (a b : string) :
  allDigits (a ++ b) = allDigits a && allDigits b.
Proof.
  induction a as [|c a IH]; simpl; trivial. now rewrite IH, andb_assoc.
Qed.

Lemma span_digits_app (a rest : string) :
  allDigits a = true -> no_digit_ahead rest ->
  span_digits (a ++ rest) = (a, rest).
Proof.
  intros Ha Hr. induction a as [|c a IH]; cbn [append span_digits].
  - destruct rest as [|c r]; trivial. cbn [no_digit_ahead] in Hr.
    cbn [span_digits]. now rewrite Hr.
  - cbn [allDigits] in Ha. apply andb_true_iff in Ha. destruct Ha as [Hc Ha].
    now rewrite Hc, (IH Ha).
Qed.

Lemma digitsOf_S (f : nat) (n : Z) (acc : string) :
  digitsOf (S f) n acc
  = if n <? 10 then String (digitChar (n mod 10)) acc
    else digitsOf f (n / 10) (String (digitChar (n mod 10)) acc).
Proof. reflexivity. Qed.

(** The digits that [digitsOf] puts in front of [acc]. *)
Lemma digitsOf_spec (fuel : nat) (n : Z) (acc : string) :
  0 <= n < 2 ^ Z.of_nat (S fuel) ->
  exists ds : string,
    digitsOf (S fuel) n acc = ds ++ acc
    /\ allDigits ds = true
    /\ digitsVal 0 ds = n
    /\ (exists c t, ds = String c t /\ (c = "0"%char -> n = 0 /\ t = "")).
Proof.
  revert n acc. induction fuel as [|f IH]; intros n acc H;
    rewrite digitsOf_S;
    assert (Hd : 0 <= n mod 10 < 10) by (apply Z.mod_pos_bound; lia);
    destruct (n <? 10) eqn:E.
  1, 3: apply Z.ltb_lt in E; rewrite (Z.mod_small n 10) by lia;
    exists (String (digitChar n) ""); cbn [append allDigits digitsVal];
    rewrite isDigit_digitChar, digitVal_digitChar by lia;
    (split; [reflexivity | split; [reflexivity | split; [lia |]]]);
    exists (digitChar n), ""; (split; [reflexivity |]);
    intro H0; (split; [| reflexivity]);
    assert (Hn : digitVal (digitChar n) = digitVal "0"%char) by (now rewrite H0);
    rewrite digitVal_digitChar in Hn by lia; exact Hn.
  - apply Z.ltb_ge in E. change (2 ^ Z.of_nat 1) with 2 in H. lia.
  - apply Z.ltb_ge in E.
    assert (Hq : 0 <= n / 10 < 2 ^ Z.of_nat (S f)).
    { split; [apply Z.div_pos; lia |].
      rewrite (Nat2Z.inj_succ (S f)), Z.pow_succ_r in H by lia.
      apply Z.div_lt_upper_bound; lia. }
    destruct (IH (n / 10) (String (digitChar (n mod 10)) acc) Hq)
      as (ds & E1 & E2 & E3 & c & t & E4 & E5).
    exists (ds ++ String (digitChar (n mod 10)) "").
    rewrite E1, append_assoc. cbn [append]. split; trivial.
    rewrite allDigits_app, E2. cbn [allDigits]. rewrite isDigit_digitChar by lia.
    split; trivial. rewrite digitsVal_app, E3. cbn [digitsVal].
    rewrite digitVal_digitChar by lia.
    split; [rewrite (Z.div_mod n 10) at 3; lia |].
    subst ds. exists c, (t ++ String (digitChar (n mod 10)) "").
    split; trivial. intro Hc. destruct (E5 Hc) as [Hz _].
    assert (n < 10) by (apply Z.div_small_iff in Hz; lia). lia.
Qed.

Lemma natToString_spec (n : Z) :
  0 <= n ->
  allDigits (natToString n) = true
  /\ digitsVal 0 (natToString n) = n
  /\ (exists c t, natToString n = String c t /\ (c = "0"%char -> n = 0 /\ t = "")).
Proof.
  intro H. unfold natToString.
  destruct (digitsOf_spec (Z.to_nat (Z.log2 n)) n "") as (ds & E1 & E2 & E3 & E4).
  - split; trivial. rewrite Nat2Z.inj_succ, Z2Nat.id by apply Z.log2_nonneg.
    destruct (Z.eq_dec n 0) as [-> | Hn]; [reflexivity |].
    apply Z.log2_spec. lia.
  - rewrite E1, append_empty_r. auto.
Qed.

Lemma length_append (a b : string) :
  String.length (a ++ b) = (String.length a + String.length b)%nat.
Proof. induction a as [|c a IH]; simpl; [reflexivity | now rewrite IH]. Qed.

Lemma splitAt_length (n : nat) (s a b : string) :
  splitAt n s = Some (a, b) -> String.length a = n.
Proof.
  revert s a b. induction n as [|n IH]; intros s a b; simpl.
  - intro H. injection H as <- <-. reflexivity.
  - destruct s as [|c t]; [discriminate |].
    destruct (splitAt n t) as [[a' b']|] eqn:E; [| discriminate].
    intro H. injection H as <- <-. simpl. now rewrite (IH _ _ _ E).
Qed.

Lemma splitAt_some (n : nat) (s : string) :
  (n <= String.length s)%nat -> exists a b, splitAt n s = Some (a, b).
Proof.
  revert s. induction n as [|n IH]; intros s H; simpl.
  - now exists "", s.
  - destruct s as [|c t]; simpl in H; [lia |].
    destruct (IH t) as (a & b & E); [lia |]. rewrite E. now exists (String c a), b.
Qed.

(** [padStart0] puts zeros in front. *)
Lemma padStart0_spec (w : nat) (s : string) :
  exists z : string,
    padStart0 w s = z ++ s
    /\ String.length z = (w - String.length s)%nat
    /\ allDigits z = true
    /\ (forall acc, digitsVal acc z = acc * 10 ^ Z.of_nat (String.length z))
    /\ (forall c t, z = String c t -> c = "0"%char).
Proof.
  unfold padStart0. generalize (w - String.length s)%nat. intro k.
  match goal with |- context [?f k ++ s] => set (zeros := f) end.
  exists (zeros k). split; trivial.
  induction k as [|k (IH1 & IH2 & IH3 & IH4)].
  - repeat split; trivial; [intro acc; simpl; lia | discriminate].
  - change (zeros (S k)) with (String "0"%char (zeros k)).
    cbn [String.length allDigits digitsVal]. rewrite IH1, IH2.
    repeat split; trivial.
    + intro acc. rewrite IH3, IH1, Nat2Z.inj_succ, Z.pow_succ_r by lia.
      change (digitVal "0") with 0. ring.
    + intros c t H. now injection H as <- _.
Qed.

(** ** Numbers, written and read *)

Lemma isDigit_not_minus (c : ascii) : isDigit c = true -> Ascii.eqb c "-" = false.
Proof.
  destruct c as [[] [] [] [] [] [] [] []]; intro H;
    solve [reflexivity | discriminate H].
Qed.

Lemma isDigit_zero_or_not (c : ascii) :
  isDigit c = true -> c = "0"%char \/ Ascii.eqb c "0" = false.
Proof.
  destruct c as [[] [] [] [] [] [] [] []]; intro H;
    solve [now left | now right | discriminate H].
Qed.

Lemma integer_part_match (A : Type) (a : string) (x y z : A) :
  integer_part a ->
  match a with
  | EmptyString => x
  | String "0" (String _ _) => y
  | _ => z
  end = z.
Proof.
  destruct a as [|c t]; [intros [] |]. intros [Hc Hz].
  destruct (isDigit_zero_or_not c Hc) as [-> | Hn].
  - now rewrite (Hz eq_refl).
  - destruct c as [[] [] [] [] [] [] [] []]; try reflexivity; discriminate Hn.
Qed.

Lemma delimited_no_digit (rest : string) : delimited rest -> no_digit_ahead rest.
Proof. destruct rest as [|c r]; trivial. intros [-> | [-> | ->]]; reflexivity. Qed.

Lemma delimited_no_point (rest : string) :
  delimited rest -> startsWith "." rest = None.
Proof. destruct rest as [|c r]; trivial. intros [-> | [-> | ->]]; reflexivity. Qed.

Lemma delimited_no_minus (rest : string) :
  delimited rest -> startsWith "-" rest = None.
Proof. destruct rest as [|c r]; trivial. intros [-> | [-> | ->]]; reflexivity. Qed.

Lemma parse_number_shape (neg : bool) (a b rest : string) :
  integer_part a -> allDigits a = true -> allDigits b = true -> delimited rest ->
  let mag := digitsVal 0 (a ++ b) in
  let m := if neg then - mag else mag in
  let k := 0 - Z.of_nat (String.length b) in
  parse_number ((if neg then "-" else "") ++ a
                ++ (if nonempty b then String "." b else "") ++ rest)
  = if 0 <=? k then Some (VNum (m * 10 ^ k) 0, rest)
    else if underflows m (Z.to_nat (- k)) then Some (VNum 0 0, rest)
    else let '(m', e') := normalize m (Z.to_nat (- k)) in Some (VNum m' e', rest).
Proof.
  intros Ha Hda Hdb Hr. cbv zeta.
  set (tail := (if nonempty b then String "." b else "") ++ rest).
  assert (Htail : no_digit_ahead tail).
  { unfold tail. destruct b; [now apply delimited_no_digit | reflexivity]. }
  assert (Hsign : (let '(neg', s1) :=
                     match startsWith "-" ((if neg then "-" else "") ++ a ++ tail) with
                     | Some t => (true, t)
                     | None => (false, (if neg then "-" else "") ++ a ++ tail)
                     end in (neg', s1)) = (neg, a ++ tail)).
  { destruct neg; [reflexivity |]. cbn [append].
    destruct a as [|c t]; [destruct Ha |]. destruct Ha as [Hc _].
    cbn [append startsWith]. now rewrite (isDigit_not_minus c Hc). }
  unfold parse_number.
  destruct (match startsWith "-" _ with Some t => (true, t) | None => _ end)
    as [neg' s1]. injection Hsign as -> ->.
  rewrite (span_digits_app a tail Hda Htail).
  rewrite (integer_part_match _ a _ _ _ Ha).
  assert (Hfrac : match startsWith "." tail with
                  | Some t =>
                      let '(fp, s3) := span_digits t in
                      if nonempty fp then Some (fp, s3) else None
                  | None => Some ("", tail)
                  end = Some (b, rest)).
  { unfold tail. destruct b as [|c b'].
    - cbn [nonempty append]. now rewrite (delimited_no_point rest Hr).
    - cbn [nonempty].
      change (String "." (String c b') ++ rest)
        with (String "." (String c b' ++ rest)).
      cbn [startsWith]. change (Ascii.eqb "." ".") with true. cbv iota.
      rewrite (span_digits_app (String c b') rest Hdb (delimited_no_digit rest Hr)).
      reflexivity. }
  rewrite Hfrac.
  assert (Hexp : match rest with
                 | String c t =>
                     if Ascii.eqb c "e" || Ascii.eqb c "E" then
                       let '(sg, t1) :=
                         match startsWith "-" t with
                         | Some t' => (-1, t')
                         | None =>
                             match startsWith "+" t with
                             | Some t' => (1, t')
                             | None => (1, t)
                             end
                         end in
                       let '(xp, s4) := span_digits t1 in
                       if nonempty xp then Some (sg * digitsVal 0 xp, s4) else None
                     else Some (0, rest)
                 | EmptyString => Some (0, rest)
                 end = Some (0, rest)).
  { destruct rest as [|c r]; trivial.
    destruct Hr as [-> | [-> | ->]]; reflexivity. }
  rewrite Hexp. reflexivity.
Qed.

Lemma numToString_shape (m : Z) (e : nat) :
  exists a b : string,
    numToString m e
    = (if m <? 0 then "-" else "") ++ a ++ (if nonempty b then String "." b else "")
    /\ integer_part a /\ allDigits a = true /\ allDigits b = true
    /\ digitsVal 0 (a ++ b) = Z.abs m /\ String.length b = e.
Proof.
  destruct (natToString_spec (Z.abs m) (Z.abs_nonneg m))
    as (Hd & Hv & c0 & t0 & Hn & Hz).
  destruct (padStart0_spec (S e) (natToString (Z.abs m)))
    as (z & Hp & Hlz & Hdz & Hvz & Hhz).
  unfold numToString. rewrite Hp.
  set (ds := z ++ natToString (Z.abs m)).
  assert (Hds : allDigits ds = true) by (unfold ds; now rewrite allDigits_app, Hdz, Hd).
  assert (Hvs : digitsVal 0 ds = Z.abs m).
  { unfold ds. rewrite digitsVal_app, Hvz. exact Hv. }
  assert (Hlen : String.length ds
                 = (String.length z + String.length (natToString (Z.abs m)))%nat)
    by apply length_append.
  assert (Hl1 : (1 <= String.length (natToString (Z.abs m)))%nat)
    by (rewrite Hn; simpl; lia).
  assert (Hsign : forall body : string,
             (if m <? 0 then String "-" body else body)
             = (if m <? 0 then "-" else "") ++ body) by (intro; now destruct (m <? 0)).
  destruct e as [|e'].
  - exists ds, "". rewrite Hsign. cbn [nonempty]. rewrite !append_empty_r.
    repeat split; trivial.
    assert (z = "") by (destruct z; [reflexivity | cbn [String.length] in Hlz; lia]).
    unfold ds. subst z. cbn [append]. rewrite Hn in *. cbn [allDigits] in Hd.
    apply andb_true_iff in Hd. split; [apply Hd |]. intro H0. now apply Hz.
  - destruct (splitAt_some (String.length ds - S e') ds) as (a & b & E); [lia |].
    rewrite E, Hsign. exists a, b.
    pose proof (splitAt_length _ _ _ _ E) as Hla.
    pose proof (splitAt_app _ _ _ _ E) as Hab.
    assert (Hlb : String.length b = S e').
    { rewrite Hab, length_append in Hlen. rewrite Hab, length_append in Hla. lia. }
    assert (Hb : nonempty b = true) by (destruct b; [discriminate Hlb | reflexivity]).
    rewrite Hb. rewrite Hab, allDigits_app in Hds. apply andb_true_iff in Hds.
    destruct Hds as [Hda Hdb]. rewrite <- Hab.
    repeat split; trivial.
    destruct a as [|c t]; [cbn [String.length] in Hla; lia |].
    cbn [allDigits] in Hda. apply andb_true_iff in Hda. split; [apply Hda |].
    intro Hc. destruct z as [|cz z'].
    + unfold ds in Hab. cbn [append] in Hab. rewrite Hn in Hab, Hl1, Hlz.
      injection Hab as -> _. destruct (Hz Hc) as [_ ->].
      cbn [String.length] in Hlz, Hl1. lia.
    + assert (String.length ds = S (S e'))
        by (rewrite Hlen; cbn [String.length] in *; lia).
      destruct t; [reflexivity | cbn [String.length] in Hla; lia].
Qed.

Lemma parse_number_numToString (m : Z) (e : nat) (rest : string) :
  normal m e = true ->
  delimited rest ->
  parse_number (numToString m e ++ rest) = Some (VNum m e, rest).
Proof.
  intros Hw Hr.
  destruct (numToString_shape m e) as (a & b & E & Ha & Hda & Hdb & Hv & Hl).
  rewrite E, !append_assoc.
  rewrite (parse_number_shape (m <? 0) a b rest Ha Hda Hdb Hr).
  rewrite Hv, Hl.
  assert (Hm : (if m <? 0 then - Z.abs m else Z.abs m) = m)
    by (destruct (m <? 0) eqn:Em; [apply Z.ltb_lt in Em | apply Z.ltb_ge in Em]; lia).
  rewrite Hm. destruct e as [|e'].
  - cbn. now rewrite Z.mul_1_r.
  - assert (Hk : (0 <=? 0 - Z.of_nat (S e')) = false) by (apply Z.leb_gt; lia).
    rewrite Hk. replace (Z.to_nat (- (0 - Z.of_nat (S e')))) with (S e') by lia.
    cbn [normal] in Hw. apply andb_true_iff in Hw. destruct Hw as [Hw Hu].
    apply negb_true_iff in Hw, Hu. rewrite Hu.
    cbn [normalize]. now rewrite Hw.
Qed.

(** ** Strings, written and read *)

Lemma parse_chars_escapeChar (c : ascii) (rest : string) :
  parse_chars (escapeChar c ++ rest)
  = match parse_chars rest with
    | Some (t, r) => Some (String c t, r)
    | None => None
    end.
Proof. destruct c as [[] [] [] [] [] [] [] []]; reflexivity. Qed.

Lemma parse_chars_escapeString (s rest : string) :
  parse_chars (escapeString s ++ String DQ rest) = Some (s, rest).
Proof.
  induction s as [|c s IH]; [reflexivity |].
  cbn [escapeString]. now rewrite append_assoc, parse_chars_escapeChar, IH.
Qed.

Lemma quote_app (s rest : string) :
  quote s ++ rest = String DQ (escapeString s ++ String DQ rest).
Proof. unfold quote. cbn [append]. now rewrite append_assoc. Qed.

(** ** Values, written and read *)

Lemma parse_value_literal (f : nat) (rest : string) :
  parse_value (S f) ("null" ++ rest) = Some (VNull, rest)
  /\ parse_value (S f) ("true" ++ rest) = Some (VBool true, rest)
  /\ parse_value (S f) ("false" ++ rest) = Some (VBool false, rest).
Proof. repeat split. Qed.

Lemma parse_value_string (f : nat) (s rest : string) :
  parse_value (S f) (quote s ++ rest) = Some (VStr s, rest).
Proof.
  rewrite quote_app. cbn [parse_value skip_ws].
  change (isJsonWs DQ) with false. cbv iota.
  change (Ascii.eqb DQ "{") with false. change (Ascii.eqb DQ "[") with false.
  change (Ascii.eqb DQ DQ) with true. cbv iota.
  now rewrite parse_chars_escapeString.
Qed.

Lemma parse_value_number_head (f : nat) (c : ascii) (t : string) :
  c = "-"%char \/ isDigit c = true ->
  parse_value (S f) (String c t) = parse_number (String c t).
Proof.
  intros [-> | H]; [reflexivity |].
  destruct c as [[] [] [] [] [] [] [] []]; solve [reflexivity | discriminate H].
Qed.

Lemma numToString_head (m : Z) (e : nat) (rest : string) :
  exists c t, numToString m e ++ rest = String c t
              /\ (c = "-"%char \/ isDigit c = true).
Proof.
  destruct (numToString_shape m e) as (a & b & E & Ha & _).
  rewrite E. destruct (m <? 0).
  - eexists _, _. split; [reflexivity | now left].
  - destruct a as [|c t]; [destruct Ha |]. destruct Ha as [Hc _].
    eexists _, _. split; [reflexivity | now right].
Qed.

Lemma parse_value_number (f : nat) (m : Z) (e : nat) (rest : string) :
  wellformed (VNum m e) = true -> delimited rest ->
  parse_value (S f) (text (VNum m e) ++ rest) = Some (VNum m e, rest).
Proof.
  intros Hw Hr. cbn [wellformed] in Hw. apply andb_true_iff in Hw.
  destruct Hw as [Hn Ho]. apply negb_true_iff in Ho.
  unfold text. cbn [serialize]. rewrite Ho.
  destruct (numToString_head m e rest) as (c & t & E & Hc).
  rewrite E, (parse_value_number_head f c t Hc), <- E.
  now apply parse_number_numToString.
Qed.

Lemma wellformed_serialize (v : jsval) :
  wellformed v = true -> serialize v = Some (text v).
Proof. unfold text. destruct v; try reflexivity. discriminate. Qed.

Lemma text_head (v : jsval) (rest : string) :
  wellformed v = true -> value_head (text v ++ rest).
Proof.
  unfold text. destruct v as [| |b|m e|s|l|fs]; intro Hw; try discriminate Hw;
    cbn [serialize].
  - eexists _, _. repeat split.
  - destruct b; eexists _, _; repeat split.
  - cbn [wellformed] in Hw. apply andb_true_iff in Hw.
    destruct Hw as [_ Ho]. apply negb_true_iff in Ho. rewrite Ho.
    destruct (numToString_head m e rest) as (c & t & E & Hc).
    exists c, t. split; [exact E |].
    destruct Hc as [-> | Hc]; [split; reflexivity |].
    destruct c as [[] [] [] [] [] [] [] []];
      solve [split; reflexivity | discriminate Hc].
  - rewrite quote_app. eexists _, _. repeat split.
  - eexists _, _. repeat split.
  - eexists _, _. repeat split.
Qed.

Lemma skip_ws_value_head (s : string) : value_head s -> skip_ws s = s.
Proof. intros (c & t & -> & Hc & _). cbn [skip_ws]. now rewrite Hc. Qed.

Lemma not_closing_value_head (s : string) :
  value_head s -> startsWith "]" (skip_ws s) = None.
Proof.
  intro H. rewrite (skip_ws_value_head s H).
  destruct H as (c & t & -> & _ & Hc). cbn [startsWith]. now rewrite Hc.
Qed.

Lemma parse_value_array (f : nat) (r : string) :
  parse_value (S f) (String "[" r)
  = match startsWith "]" (skip_ws r) with
    | Some r' => Some (VArr [], r')
    | None => parse_elements f [] r
    end.
Proof. reflexivity. Qed.

Lemma parse_value_object (f : nat) (r : string) :
  parse_value (S f) (String "{" r)
  = match startsWith "}" (skip_ws r) with
    | Some r' => Some (VObj [], r')
    | None => parse_members f [] r
    end.
Proof. reflexivity. Qed.

Lemma parse_elements_S (f : nat) (acc : list jsval) (s : string) :
  parse_elements (S f) acc s
  = match parse_value f s with
    | Some (v, r) =>
        match skip_ws r with
        | String c r' =>
            if Ascii.eqb c "," then parse_elements f (v :: acc) r'
            else if Ascii.eqb c "]" then Some (VArr (rev (v :: acc)), r')
            else None
        | EmptyString => None
        end
    | None => None
    end.
Proof. reflexivity. Qed.

Lemma parse_members_S (f : nat) (acc : record) (s : string) :
  parse_members (S f) acc s
  = match startsWith DQ (skip_ws s) with
    | Some r =>
        match parse_chars r with
        | Some (k, r1) =>
            match startsWith ":" (skip_ws r1) with
            | Some r2 =>
                match parse_value f r2 with
                | Some (v, r3) =>
                    match skip_ws r3 with
                    | String c r4 =>
                        if Ascii.eqb c "," then parse_members f (set acc k v) r4
                        else if Ascii.eqb c "}" then Some (VObj (set acc k v), r4)
                        else None
                    | EmptyString => None
                    end
                | None => None
                end
            | None => None
            end
        | None => None
        end
    | None => None
    end.
Proof. reflexivity. Qed.

Lemma elements_reparsed (l : list jsval) :
  Forall reparsed l -> forallb wellformed l = true -> l <> [] ->
  forall (acc : list jsval) (rest : string) (fuel : nat),
    (list_sum (map (fun x => S (need x)) l) <= fuel)%nat ->
    parse_elements fuel acc (join "," (map text l) ++ String "]" rest)
    = Some (VArr (rev acc ++ l), rest).
Proof.
  induction 1 as [|x l Hx Hl IH]; intros Hw Hne acc rest fuel Hf;
    [now elim Hne |].
  cbn [forallb] in Hw. apply andb_true_iff in Hw. destruct Hw as [Hwx Hwl].
  assert (Hf' : (S (need x) + list_sum (map (fun x => S (need x)) l) <= fuel)%nat)
    by exact Hf.
  clear Hf. destruct fuel as [|f]; [lia |].
  rewrite parse_elements_S. destruct l as [|y l'].
  - cbn [map join].
    rewrite (Hx _ (wellformed_serialize x Hwx) (String "]" rest));
      [| right; now left | lia].
    cbn [skip_ws]. change (isJsonWs "]") with false. cbv iota.
    change (Ascii.eqb "]" ",") with false. change (Ascii.eqb "]" "]") with true.
    cbv iota. reflexivity.
  - change (join "," (map text (x :: y :: l')))
      with (text x ++ String "," (join "," (map text (y :: l')))).
    rewrite append_assoc. change (String "," ?a ++ ?b) with (String "," (a ++ b)).
    rewrite (Hx _ (wellformed_serialize x Hwx)); [| now left | lia].
    cbn [skip_ws]. change (isJsonWs ",") with false. cbv iota.
    change (Ascii.eqb "," ",") with true. cbv iota.
    rewrite IH; [| exact Hwl | discriminate | lia].
    cbn [rev]. now rewrite <- app_assoc.
Qed.

Lemma entries_wellformed (fs : record) :
  forallb (fun kv => wellformed (snd kv)) fs = true ->
  flat_map (fun kv => match serialize (snd kv) with
                      | Some t => [quote (fst kv) ++ ":" ++ t]
                      | None => []
                      end) fs
  = map entry fs.
Proof.
  induction fs as [|[k x] fs IH]; intro H; [reflexivity |].
  cbn [forallb snd] in H. apply andb_true_iff in H. destruct H as [Hx Hfs].
  cbn [flat_map map snd fst]. unfold entry at 1. cbn [fst snd].
  rewrite (wellformed_serialize x Hx), (IH Hfs).
  unfold text. now rewrite (wellformed_serialize x Hx).
Qed.

Lemma entry_app (k : string) (x : jsval) (tail : string) :
  entry (k, x) ++ tail
  = String DQ (escapeString k ++ String DQ (String ":" (text x ++ tail))).
Proof.
  unfold entry. cbn [fst snd]. rewrite append_assoc, quote_app.
  reflexivity.
Qed.

Lemma parse_members_entry (f : nat) (acc : record) (k : string) (x : jsval)
      (tail : string) :
  parse_members (S f) acc (entry (k, x) ++ tail)
  = match parse_value f (text x ++ tail) with
    | Some (v, r3) =>
        match skip_ws r3 with
        | String c r4 =>
            if Ascii.eqb c "," then parse_members f (set acc k v) r4
            else if Ascii.eqb c "}" then Some (VObj (set acc k v), r4)
            else None
        | EmptyString => None
        end
    | None => None
    end.
Proof.
  rewrite parse_members_S, entry_app. cbn [skip_ws].
  change (isJsonWs DQ) with false. cbv iota. cbn [startsWith].
  change (Ascii.eqb DQ DQ) with true. cbv iota.
  rewrite parse_chars_escapeString. cbn [skip_ws].
  change (isJsonWs ":") with false. cbv iota. cbn [startsWith].
  change (Ascii.eqb ":" ":") with true. cbv iota. reflexivity.
Qed.

Lemma members_reparsed (fs : record) :
  Forall (fun kv => reparsed (snd kv)) fs ->
  forallb (fun kv => wellformed (snd kv)) fs = true -> fs <> [] ->
  forall (acc : record) (rest : string) (fuel : nat),
    (list_sum (map (fun kv => S (need (snd kv))) fs) <= fuel)%nat ->
    parse_members fuel acc (join "," (map entry fs) ++ String "}" rest)
    = Some (VObj (fold_left put fs acc), rest).
Proof.
  induction 1 as [|[k x] l Hx Hl IH]; intros Hw Hne acc rest fuel Hf;
    [now elim Hne |].
  cbn [forallb snd] in Hw. apply andb_true_iff in Hw. destruct Hw as [Hwx Hwl].
  cbn [snd] in Hx.
  assert (Hf' : (S (need x) + list_sum (map (fun kv => S (need (snd kv))) l)
                 <= fuel)%nat) by exact Hf.
  clear Hf. destruct fuel as [|f]; [lia |].
  destruct l as [|y l'].
  - cbn [map join]. rewrite parse_members_entry.
    rewrite (Hx _ (wellformed_serialize x Hwx) (String "}" rest));
      [| right; now right | lia].
    cbn [skip_ws]. change (isJsonWs "}") with false. cbv iota.
    change (Ascii.eqb "}" ",") with false. change (Ascii.eqb "}" "}") with true.
    cbv iota. reflexivity.
  - change (join "," (map entry ((k, x) :: y :: l')))
      with (entry (k, x) ++ String "," (join "," (map entry (y :: l')))).
    rewrite append_assoc. change (String "," ?a ++ ?b) with (String "," (a ++ b)).
    rewrite parse_members_entry.
    rewrite (Hx _ (wellformed_serialize x Hwx)); [| now left | lia].
    cbn [skip_ws]. change (isJsonWs ",") with false. cbv iota.
    change (Ascii.eqb "," ",") with true. cbv iota.
    rewrite IH; [reflexivity | exact Hwl | discriminate | lia].
Qed.

Lemma set_fresh (a : record) (k : string) (v : jsval) :
  existsb (String.eqb k) (map fst a) = false -> set a k v = (a ++ [(k, v)])%list.
Proof.
  induction a as [|[k' v'] a IH]; intro H; [reflexivity |].
  cbn [map fst existsb] in H. apply orb_false_iff in H. destruct H as [Hk Ha].
  cbn [set app]. rewrite String.eqb_sym, Hk. now rewrite (IH Ha).
Qed.

Lemma existsb_app_false (k : string) (a b : list string) :
  existsb (String.eqb k) (a ++ b) = false ->
  existsb (String.eqb k) a = false /\ existsb (String.eqb k) b = false.
Proof. rewrite existsb_app. apply orb_false_iff. Qed.

Lemma distinct_middle (a : list string) (k : string) (t : list string) :
  distinct (a ++ k :: t) = true ->
  existsb (String.eqb k) a = false /\ distinct ((a ++ [k]) ++ t) = true.
Proof.
  induction a as [|k' a IH]; cbn [app distinct existsb]; intro H.
  - split; [reflexivity | exact H].
  - apply andb_true_iff in H. destruct H as [Hk Ha].
    apply negb_true_iff in Hk. destruct (existsb_app_false _ _ _ Hk) as [Hk1 Hk2].
    cbn [existsb] in Hk2. apply orb_false_iff in Hk2. destruct Hk2 as [Hkk Hk2].
    destruct (IH Ha) as [IH1 IH2]. split.
    + rewrite String.eqb_sym, Hkk. exact IH1.
    + rewrite IH2, andb_true_r. apply negb_true_iff.
      rewrite <- app_assoc. cbn [app]. rewrite existsb_app. cbn [existsb].
      now rewrite Hk1, Hkk, Hk2.
Qed.

Lemma fold_put_distinct (fs acc : record) :
  distinct (map fst (acc ++ fs)) = true -> fold_left put fs acc = (acc ++ fs)%list.
Proof.
  revert acc. induction fs as [|[k x] fs IH]; intros acc H; cbn [fold_left].
  - now rewrite app_nil_r.
  - rewrite map_app in H. cbn [map fst] in H.
    destruct (distinct_middle _ _ _ H) as [Hk Hd].
    unfold put at 2. cbn [fst snd]. rewrite (set_fresh acc k x Hk).
    rewrite IH; [now rewrite <- app_assoc |].
    rewrite !map_app. exact Hd.
Qed.

Lemma forallb_Forall {A : Type} (p : A -> bool) (P : A -> Prop) (l : list A) :
  Forall (fun x => p x = true -> P x) l -> forallb p l = true -> Forall P l.
Proof.
  induction 1 as [|x l Hx _ IH]; intro H; constructor;
    cbn [forallb] in H; apply andb_true_iff in H; destruct H; auto.
Qed.

(** Every well-formed value is read back from its text. *)
Lemma wellformed_reparsed (v : jsval) : wellformed v = true -> reparsed v.
Proof.
  induction v as [| |b|m e|s|l IH|fs IH] using jsval_induction;
    intros Hw t Ht rest Hr fuel Hf; try discriminate Hw;
    (destruct fuel as [|f]; [cbn [need] in Hf; lia |]);
    cbn [serialize] in Ht; injection Ht as <-.
  - apply parse_value_literal.
  - destruct b; apply parse_value_literal.
  - now apply parse_value_number.
  - apply parse_value_string.
  - cbn [wellformed] in Hw. pose proof (forallb_Forall _ _ _ IH Hw) as Hl.
    change (map _ l) with (map text l).
    cbn [append]. rewrite parse_value_array. destruct l as [|x l'].
    + reflexivity.
    + rewrite append_assoc. change ("]" ++ rest) with (String "]" rest).
      rewrite not_closing_value_head.
      * rewrite (elements_reparsed _ Hl Hw); [reflexivity | discriminate |].
        cbn [need] in Hf. lia.
      * cbn [forallb] in Hw. apply andb_true_iff in Hw. destruct Hw as [Hx _].
        destruct l'; cbn [map join]; [| rewrite append_assoc];
          now apply text_head.
  - cbn [wellformed] in Hw. apply andb_true_iff in Hw. destruct Hw as [Hd Hw].
    pose proof (forallb_Forall (fun kv => wellformed (snd kv))
                  (fun kv => reparsed (snd kv)) _ IH Hw) as Hl.
    pose proof (entries_wellformed fs Hw) as E.
    match type of E with ?L = _ => change (flat_map _ fs) with L end.
    rewrite E. clear E.
    cbn [append]. rewrite parse_value_object. destruct fs as [|[k x] fs'].
    + reflexivity.
    + rewrite append_assoc. change ("}" ++ rest) with (String "}" rest).
      assert (Hopen : startsWith "}"
                        (skip_ws (join "," (map entry ((k, x) :: fs'))
                                  ++ String "}" rest)) = None).
      { destruct fs'; cbn [map join]; [| rewrite append_assoc];
          now rewrite entry_app. }
      rewrite Hopen.
      rewrite (members_reparsed _ Hl Hw); [| discriminate | cbn [need] in Hf; lia].
      now rewrite (fold_put_distinct _ [] Hd).
Qed.

(** ** What [JSON.parse] builds is well formed *)

Lemma underflows_tenth (m : Z) (e : nat) :
  m mod 10 = 0 -> underflows m (S e) = underflows (m / 10) e.
Proof.
  intro H. unfold underflows.
  assert (Hm : m = 10 * (m / 10)) by (rewrite (Z.div_mod m 10) at 1; lia).
  rewrite Hm at 1. rewrite Z.abs_mul, Nat2Z.inj_succ, Z.pow_succ_r by lia.
  change (Z.abs 10) with 10.
  destruct (Z.abs (m / 10) * 2 ^ 1075 <=? 10 ^ Z.of_nat e) eqn:E.
  - apply Z.leb_le in E. apply Z.leb_le. nia.
  - apply Z.leb_gt in E. apply Z.leb_gt. nia.
Qed.

Lemma normalize_shaped (e : nat) (m : Z) :
  underflows m e = false ->
  shaped (VNum (fst (normalize m e)) (snd (normalize m e))) = true.
Proof.
  revert m. induction e as [|e IH]; intros m Hu; [reflexivity |].
  cbn [normalize]. destruct (m mod 10 =? 0) eqn:E.
  - apply IH. apply Z.eqb_eq in E. now rewrite <- underflows_tenth.
  - cbn [fst snd shaped normal]. now rewrite E, Hu.
Qed.

Lemma integer_match_cases (A : Type) (a : string) (x y z : A) :
  let r := match a with
           | EmptyString => x
           | String "0" (String _ _) => y
           | _ => z
           end in
  r = x \/ r = y \/ r = z.
Proof.
  destruct a as [|c [|c' t]]; cbv zeta; auto;
    destruct c as [[] [] [] [] [] [] [] []]; auto.
Qed.

Lemma parse_number_shaped (s : string) (v : jsval) (r : string) :
  parse_number s = Some (v, r) -> shaped v = true.
Proof.
  unfold parse_number.
  destruct (match startsWith "-" s with Some t => _ | None => _ end) as [neg s1].
  destruct (span_digits s1) as [ip s2].
  match goal with
  | |- match ip with EmptyString => ?x | String _ _ => _ end = _ -> _ =>
      set (z := match startsWith "." s2 with Some t => _ | None => _ end)
  end.
  match goal with
  | |- ?m = _ -> _ =>
      match m with
      | context [match z with Some p => @?k p | None => None end] =>
          destruct (integer_match_cases _ ip None None
                      (match z with Some p => k p | None => None end))
            as [E | [E | E]]
      end
  end.
  1, 2: cbv zeta in E; rewrite E; discriminate.
  cbv zeta in E. rewrite E. clear E.
  destruct z as [[fp s3]|]; [| discriminate].
  destruct (match s3 with String c t => _ | EmptyString => _ end) as [[x s4]|];
    [| discriminate].
  destruct (0 <=? _).
  - intro H. injection H as <- _. reflexivity.
  - destruct (underflows _ _) eqn:Eu.
    + intro H. injection H as <- _. reflexivity.
    + pose proof (normalize_shaped _ _ Eu) as Hn.
      destruct (normalize _ _) as [m' e']. intro H. injection H as <- _. exact Hn.
Qed.

Lemma keys_set (a : record) (k : string) (v : jsval) :
  map fst (set a k v)
  = if existsb (String.eqb k) (map fst a) then map fst a
    else (map fst a ++ [k])%list.
Proof.
  induction a as [|[k' v'] a IH]; [reflexivity |].
  cbn [set map fst existsb]. rewrite (String.eqb_sym k k').
  destruct (k' =? k)%string eqn:E; cbn [orb map fst].
  - apply String.eqb_eq in E. now subst k'.
  - rewrite IH. now destruct (existsb _ _).
Qed.

Lemma distinct_snoc (ks : list string) (k : string) :
  distinct ks = true -> existsb (String.eqb k) ks = false ->
  distinct (ks ++ [k]) = true.
Proof.
  induction ks as [|k' ks IH]; intros Hd Hk; [reflexivity |].
  cbn [distinct existsb app] in *.
  apply andb_true_iff in Hd. destruct Hd as [H1 H2].
  apply orb_false_iff in Hk. destruct Hk as [H3 H4].
  rewrite (IH H2 H4), andb_true_r. apply negb_true_iff in H1.
  apply negb_true_iff. rewrite existsb_app, H1. cbn [existsb].
  now rewrite String.eqb_sym, H3.
Qed.

Lemma set_forallb (p : jsval -> bool) (a : record) (k : string) (v : jsval) :
  forallb (fun kv => p (snd kv)) a = true -> p v = true ->
  forallb (fun kv => p (snd kv)) (set a k v) = true.
Proof.
  intros Ha Hv. induction a as [|[k' v'] a IH]; cbn [set forallb snd].
  - now rewrite Hv.
  - cbn [forallb snd] in Ha. apply andb_true_iff in Ha. destruct Ha as [H1 H2].
    destruct (k' =? k)%string; cbn [forallb snd].
    + now rewrite Hv, H2.
    + now rewrite H1, (IH H2).
Qed.

Lemma set_wellformed (a : record) (k : string) (v : jsval) :
  wellformed (VObj a) = true -> wellformed v = true ->
  wellformed (VObj (set a k v)) = true.
Proof.
  cbn [wellformed]. intros Ha Hv. apply andb_true_iff in Ha.
  destruct Ha as [Hd Hf]. apply andb_true_iff. split.
  - rewrite keys_set. destruct (existsb _ _) eqn:E; trivial.
    now apply distinct_snoc.
  - now apply set_forallb.
Qed.

Lemma set_shaped (a : record) (k : string) (v : jsval) :
  shaped (VObj a) = true -> shaped v = true ->
  shaped (VObj (set a k v)) = true.
Proof.
  cbn [shaped]. intros Ha Hv. apply andb_true_iff in Ha.
  destruct Ha as [Hd Hf]. apply andb_true_iff. split.
  - rewrite keys_set. destruct (existsb _ _) eqn:E; trivial.
    now apply distinct_snoc.
  - now apply set_forallb.
Qed.

Lemma forallb_rev {A : Type} (p : A -> bool) (l : list A) :
  forallb p l = true -> forallb p (rev l) = true.
Proof.
  rewrite !forallb_forall. intros H x Hx. apply H. now apply in_rev.
Qed.

Lemma parse_value_S (f : nat) (s : string) :
  parse_value (S f) s
  = match skip_ws s with
    | EmptyString => None
    | String c r as s' =>
        if Ascii.eqb c "{" then
          match startsWith "}" (skip_ws r) with
          | Some r' => Some (VObj [], r')
          | None => parse_members f [] r
          end
        else if Ascii.eqb c "[" then
          match startsWith "]" (skip_ws r) with
          | Some r' => Some (VArr [], r')
          | None => parse_elements f [] r
          end
        else if Ascii.eqb c DQ then
          match parse_chars r with
          | Some (t, rest) => Some (VStr t, rest)
          | None => None
          end
        else if Ascii.eqb c "-" || isDigit c then parse_number s'
        else match dropPrefix "true" s' with
             | Some rest => Some (VBool true, rest)
             | None =>
             match dropPrefix "false" s' with
             | Some rest => Some (VBool false, rest)
             | None =>
             match dropPrefix "null" s' with
             | Some rest => Some (VNull, rest)
             | None => None
             end end end
    end.
Proof. reflexivity. Qed.

Lemma parse_shaped (fuel : nat) :
  (forall s v r, parse_value fuel s = Some (v, r) -> shaped v = true)
  /\ (forall acc s v r,
         forallb shaped acc = true ->
         parse_elements fuel acc s = Some (v, r) -> shaped v = true)
  /\ (forall acc s v r,
         shaped (VObj acc) = true ->
         parse_members fuel acc s = Some (v, r) -> shaped v = true).
Proof.
  induction fuel as [|f (IHv & IHe & IHm)];
    [repeat split; intros; discriminate |].
  split; [| split].
  - intros s v r. rewrite parse_value_S.
    destruct (skip_ws s) as [|c t]; [discriminate |].
    destruct (Ascii.eqb c "{").
    { destruct (startsWith "}" (skip_ws t)).
      - intro H. now injection H as <- _.
      - now apply IHm. }
    destruct (Ascii.eqb c "[").
    { destruct (startsWith "]" (skip_ws t)).
      - intro H. now injection H as <- _.
      - now apply IHe. }
    destruct (Ascii.eqb c DQ).
    { destruct (parse_chars t) as [[x y]|]; [| discriminate].
      intro H. now injection H as <- _. }
    destruct (Ascii.eqb c "-" || isDigit c);
      [cbv zeta; apply parse_number_shaped |].
    cbv zeta.
    destruct (dropPrefix "true" (String c t));
      [intro H; now injection H as <- _ |].
    destruct (dropPrefix "false" (String c t));
      [intro H; now injection H as <- _ |].
    destruct (dropPrefix "null" (String c t));
      [intro H; now injection H as <- _ |].
    discriminate.
  - intros acc s v r Hacc. rewrite parse_elements_S.
    destruct (parse_value f s) as [[v0 r0]|] eqn:E; [| discriminate].
    apply IHv in E. destruct (skip_ws r0) as [|c t]; [discriminate |].
    assert (Hacc' : forallb shaped (v0 :: acc) = true)
      by (cbn [forallb]; now rewrite E, Hacc).
    destruct (Ascii.eqb c ","); [now apply IHe |].
    destruct (Ascii.eqb c "]"); [| discriminate].
    intro H. injection H as <- _.
    change (forallb shaped (rev (v0 :: acc)) = true).
    now apply forallb_rev.
  - intros acc s v r Hacc. rewrite parse_members_S.
    destruct (startsWith DQ (skip_ws s)) as [r0|]; [| discriminate].
    destruct (parse_chars r0) as [[k r1]|]; [| discriminate].
    destruct (startsWith ":" (skip_ws r1)) as [r2|]; [| discriminate].
    destruct (parse_value f r2) as [[v0 r3]|] eqn:E; [| discriminate].
    apply IHv in E. destruct (skip_ws r3) as [|c t]; [discriminate |].
    pose proof (set_shaped acc k v0 Hacc E) as Hset.
    destruct (Ascii.eqb c ","); [now apply IHm |].
    destruct (Ascii.eqb c "}"); [| discriminate].
    intro H. now injection H as <- _.
Qed.

Lemma JSON_parse_shaped (s : string) (v : jsval) :
  JSON_parse s = Some v -> shaped v = true.
Proof.
  unfold JSON_parse.
  destruct (parse_value _ s) as [[v0 r]|] eqn:E; [| discriminate].
  apply (proj1 (parse_shaped _)) in E.
  destruct (nonempty (skip_ws r)); [discriminate |].
  intro H. now injection H as <-.
Qed.

(** What [JSON.parse] reads, with its numbers within the range of
    binary64, is read back from what [JSON.stringify] writes. *)
Lemma shaped_wellformed (v : jsval) :
  shaped v = true -> in_range v = true -> wellformed v = true.
Proof.
  induction v as [| |b|m e|s|l IH|fs IH] using jsval_induction;
    cbn [shaped in_range wellformed]; intros Hs Hr; trivial.
  - now rewrite Hs, Hr.
  - induction IH as [|x l Hx _ IHl]; [reflexivity |].
    cbn [forallb] in *. apply andb_true_iff in Hs, Hr.
    destruct Hs as [Hs1 Hs2], Hr as [Hr1 Hr2].
    now rewrite (Hx Hs1 Hr1), (IHl Hs2 Hr2).
  - apply andb_true_iff in Hs. destruct Hs as [Hd Hs]. rewrite Hd.
    cbn [andb]. clear Hd.
    induction IH as [|x l Hx _ IHl]; [reflexivity |].
    cbn [forallb] in *. apply andb_true_iff in Hs, Hr.
    destruct Hs as [Hs1 Hs2], Hr as [Hr1 Hr2].
    now rewrite (Hx Hs1 Hr1), (IHl Hs2 Hr2).
Qed.

Lemma wellformed_in_range (v : jsval) :
  wellformed v = true -> in_range v = true.
Proof.
  induction v as [| |b|m e|s|l IH|fs IH] using jsval_induction;
    cbn [in_range wellformed]; intro Hw; trivial.
  - apply andb_true_iff in Hw. apply Hw.
  - induction IH as [|x l Hx _ IHl]; [reflexivity |].
    cbn [forallb] in *. apply andb_true_iff in Hw. destruct Hw as [H1 H2].
    now rewrite (Hx H1), (IHl H2).
  - apply andb_true_iff in Hw. destruct Hw as [_ Hw].
    induction IH as [|x l Hx _ IHl]; [reflexivity |].
    cbn [forallb] in *. apply andb_true_iff in Hw. destruct Hw as [H1 H2].
    now rewrite (Hx H1), (IHl H2).
Qed.

Lemma JSON_parse_wellformed (s : string) (v : jsval) :
  JSON_parse s = Some v -> in_range v = true -> wellformed v = true.
Proof. intros H Hr. apply shaped_wellformed; [now apply (JSON_parse_shaped s) | exact Hr]. Qed.

(** ** The fuel of [JSON.parse] is enough *)

Lemma length_join_cons (sep x y : string) (t : list string) :
  String.length (join sep (x :: y :: t))
  = (String.length x + String.length sep + String.length (join sep (y :: t)))%nat.
Proof.
  change (join sep (x :: y :: t)) with (x ++ sep ++ join sep (y :: t)).
  rewrite !length_append. lia.
Qed.

Lemma need_elements {A : Type} (size : A -> nat) (txt : A -> string) (l : list A) :
  Forall (fun x => (size x <= String.length (txt x))%nat) l ->
  (list_sum (map (fun x => S (size x)) l)
   <= S (String.length (join "," (map txt l))))%nat.
Proof.
  induction 1 as [|x l Hx Hl IH]; [simpl; lia |].
  destruct l as [|y l'].
  - cbn [map list_sum join fold_right]. lia.
  - change (map txt (x :: y :: l')) with (txt x :: txt y :: map txt l').
    rewrite length_join_cons.
    change (list_sum (map (fun x => S (size x)) (x :: y :: l')))
      with (S (size x) + list_sum (map (fun x => S (size x)) (y :: l')))%nat.
    change (txt y :: map txt l') with (map txt (y :: l')).
    cbn [String.length]. lia.
Qed.

Lemma text_nonempty (v : jsval) :
  wellformed v = true -> (1 <= String.length (text v))%nat.
Proof.
  intro H. destruct (text_head v "" H) as (c & t & E & _).
  rewrite append_empty_r in E. rewrite E. cbn [String.length]. lia.
Qed.

Lemma need_le_length (v : jsval) :
  wellformed v = true -> (need v <= String.length (text v))%nat.
Proof.
  induction v as [| |b|m e|s|l IH|fs IH] using jsval_induction; intro Hw;
    try discriminate Hw.
  1-4: now apply text_nonempty.
  - cbn [wellformed] in Hw. pose proof (forallb_Forall _ _ _ IH Hw) as Hl.
    apply (need_elements need text) in Hl.
    unfold text. cbn [serialize need].
    change (map (fun x => match serialize x with
                          | Some t => t
                          | None => "null"
                          end) l) with (map text l).
    cbn [append String.length]. rewrite length_append. cbn [String.length]. lia.
  - cbn [wellformed] in Hw. apply andb_true_iff in Hw. destruct Hw as [_ Hw].
    pose proof (forallb_Forall (fun kv => wellformed (snd kv))
                  (fun kv => (need (snd kv) <= String.length (text (snd kv)))%nat)
                  _ IH Hw) as Hl.
    assert (Hl' : Forall (fun kv => (need (snd kv) <= String.length (entry kv))%nat) fs).
    { apply Forall_forall. intros kv Hkv. rewrite Forall_forall in Hl.
      specialize (Hl kv Hkv). unfold entry. rewrite !length_append. lia. }
    apply (need_elements (fun kv => need (snd kv)) entry) in Hl'.
    unfold text. cbn [serialize need].
    pose proof (entries_wellformed fs Hw) as E.
    match type of E with ?L = _ => change (flat_map _ fs) with L end.
    rewrite E.
    cbn [append String.length]. rewrite length_append. cbn [String.length]. lia.
Qed.

(** A well-formed object is read back from the line written for it. *)
Lemma JSON_parse_stringify (o : record) :
  wellformed (VObj o) = true -> JSON_parse (JSON_stringify o) = Some (VObj o).
Proof.
  intro Hw. unfold JSON_stringify, JSON_parse.
  rewrite (wellformed_serialize _ Hw).
  set (t := text (VObj o)).
  rewrite <- (append_empty_r t) at 2.
  rewrite (wellformed_reparsed _ Hw t (wellformed_serialize _ Hw) "" I).
  - reflexivity.
  - pose proof (need_le_length _ Hw). fold t in H. lia.
Qed.

(** What [JSON.parse] reads as an object is read back as the same object
    from what [JSON.stringify] writes for it. *)
Lemma JSON_roundtrip (line : string) (o : record) :
  JSON_parse line = Some (VObj o) -> in_range (VObj o) = true ->
  JSON_parse (JSON_stringify o) = Some (VObj o).
Proof.
  intros H Hr. apply JSON_parse_stringify. now apply (JSON_parse_wellformed line).
Qed.

(** ** Retention *)

Lemma nge_not_NaN (x : number) (c : Z) : negb (isNaN x) && nge x c = nge x c.
Proof. now destruct x. Qed.

Lemma keep_readings_retained (cutoff : Z) (lines : list string) :
  keep_readings cutoff lines = retained timestamp_ms cutoff (records_of lines).
Proof.
  unfold retained, timestamp_ms.
  induction lines as [|line rest IH]; simpl; trivial.
  destruct (JSON_parse line) as [[| | | | | |obj]|]; simpl; trivial.
  rewrite nge_not_NaN, IH. reflexivity.
Qed.

Lemma keep_segments_retained (cutoff : Z) (lines : list string) :
  keep_segments cutoff lines = retained snapshot_ms cutoff (records_of lines).
Proof.
  unfold retained, snapshot_ms.
  induction lines as [|line rest IH]; simpl; trivial.
  destruct (JSON_parse line) as [[| | | | | |obj]|]; simpl; trivial.
  rewrite nge_not_NaN, IH. reflexivity.
Qed.

Lemma retained_twice (time : record -> number) (cutoff : Z) (l : list record) :
  retained time cutoff (retained time cutoff l) = retained time cutoff l.
Proof.
  unfold retained. induction l as [|o t IH]; simpl; trivial.
  destruct (nge (time o) cutoff) eqn:E; simpl; [now rewrite E, IH | exact IH].
Qed.

Lemma reads_back_retained (time : record -> number) (cutoff : Z) (l : list record) :
  Forall reads_back l -> Forall reads_back (retained time cutoff l).
Proof.
  unfold retained. intro H. apply Forall_forall. intros o Ho.
  apply filter_In in Ho. rewrite Forall_forall in H. now apply H.
Qed.

(** The records written by a prune are the records of the file. *)
Lemma records_of_written (kept : list record) :
  Forall reads_back kept ->
  records_of (read_lines (Some (written kept))) = kept.
Proof.
  intro H. destruct kept as [|o t]; [reflexivity |].
  unfold read_lines, written, payload.
  rewrite lines_of_joined.
  - induction H as [|x l Hx _ IH]; simpl; trivial.
    unfold reads_back in Hx. now rewrite Hx, IH.
  - apply Forall_forall. intros l Hl. apply in_map_iff in Hl.
    destruct Hl as [x [<- _]]. apply JSON_stringify_line.
  - apply Forall_forall. intros l Hl. apply in_map_iff in Hl.
    destruct Hl as [x [<- _]]. apply JSON_stringify_line.
  - discriminate.
Qed.

Lemma pruneOldReadings_file (w : World) :
  LOG_FILE (pruneOldReadings w)
  = Some (written (retained timestamp_ms (clock w (ticks w) - RETENTION_MS)
                            (records_of (read_lines (LOG_FILE w))))).
Proof.
  unfold pruneOldReadings. cbn [Date_now LOG_FILE clock ticks].
  rewrite keep_readings_retained. destruct (retained _ _ _); reflexivity.
Qed.

Lemma pruneOldStatsLog_file (w : World) :
  STATS_LOG (pruneOldStatsLog w)
  = Some (written (retained snapshot_ms (clock w (ticks w) - RETENTION_MS)
                            (records_of (read_lines (STATS_LOG w))))).
Proof.
  unfold pruneOldStatsLog. cbn [Date_now STATS_LOG clock ticks].
  rewrite keep_segments_retained. destruct (retained _ _ _); reflexivity.
Qed.

Lemma pruneOldReadings_clock (w : World) :
  clock (pruneOldReadings w) (ticks (pruneOldReadings w)) = clock w (S (ticks w)).
Proof.
  unfold pruneOldReadings. cbn [Date_now].
  destruct (keep_readings _ _); reflexivity.
Qed.


Lemma records_of_shaped (lines : list string) :
  Forall (fun o => shaped (VObj o) = true) (records_of lines).
Proof.
  induction lines as [|line rest IH]; [constructor |].
  cbn [records_of flat_map].
  destruct (JSON_parse line) as [[| | | | | |o]|] eqn:E; trivial.
  constructor; [now apply (JSON_parse_shaped line) | exact IH].
Qed.

(** The records kept are read back when their numbers are finite. *)
Lemma retained_reads_back (time : record -> number) (cutoff : Z)
      (lines : list string) :
  all_in_range (retained time cutoff (records_of lines)) = true ->
  Forall reads_back (retained time cutoff (records_of lines)).
Proof.
  intro Hr. unfold all_in_range in Hr. rewrite forallb_forall in Hr.
  apply Forall_forall. intros o Ho. apply JSON_parse_stringify.
  apply shaped_wellformed; [| now apply Hr].
  pose proof (records_of_shaped lines) as Hs. rewrite Forall_forall in Hs.
  apply Hs. unfold retained in Ho. now apply filter_In in Ho.
Qed.

Lemma pruneOldReadings_reads_back (w : World) :
  let C := clock w (ticks w) - RETENTION_MS in
  all_in_range (retained timestamp_ms C (records_of (read_lines (LOG_FILE w))))
  = true ->
  records_of (read_lines (LOG_FILE (pruneOldReadings w)))
  = retained timestamp_ms C (records_of (read_lines (LOG_FILE w))).
Proof.
  intros C Hr. rewrite pruneOldReadings_file.
  now apply records_of_written, retained_reads_back.
Qed.

Lemma pruneOldStatsLog_reads_back (w : World) :
  let C := clock w (ticks w) - RETENTION_MS in
  all_in_range (retained snapshot_ms C (records_of (read_lines (STATS_LOG w))))
  = true ->
  records_of (read_lines (STATS_LOG (pruneOldStatsLog w)))
  = retained snapshot_ms C (records_of (read_lines (STATS_LOG w))).
Proof.
  intros C Hr. rewrite pruneOldStatsLog_file.
  now apply records_of_written, retained_reads_back.
Qed.


(** ** The pruned log and the start-up *)

Lemma pruneOldReadings_kept_stats (w : World) :
  stats (pruneOldReadings w)
  = match keep_readings (clock w (ticks w) - RETENTION_MS)
                        (read_lines (LOG_FILE w)) with
    | [] => resetStats
    | o :: t => recomputeStats (o :: t)
    end.
Proof.
  unfold pruneOldReadings. cbn [Date_now LOG_FILE clock ticks].
  destruct (keep_readings _ _); reflexivity.
Qed.

Lemma keep_readings_again (w : World) :
  let C := clock w (ticks w) - RETENTION_MS in
  all_in_range (retained timestamp_ms C (records_of (read_lines (LOG_FILE w))))
  = true ->
  clock w (S (ticks w)) = clock w (ticks w) ->
  keep_readings (clock (pruneOldReadings w) (ticks (pruneOldReadings w))
                 - RETENTION_MS)
                (read_lines (LOG_FILE (pruneOldReadings w)))
  = keep_readings C (read_lines (LOG_FILE w)).
Proof.
  intros C Hr Hclock.
  rewrite pruneOldReadings_clock, Hclock, !keep_readings_retained.
  rewrite (pruneOldReadings_reads_back w Hr). apply retained_twice.
Qed.

(** X2.  A second prune at the same clock reading leaves the statistics
    as the first prune set them, whatever the log held before, when no
    number of a reading that is kept is beyond the range of binary64. *)
Theorem prune_twice (w : World) :
  let C := clock w (ticks w) - RETENTION_MS in
  all_in_range (retained timestamp_ms C (records_of (read_lines (LOG_FILE w))))
  = true ->
  in_alphabet (LOG_FILE w) = true ->
  clock w (S (ticks w)) = clock w (ticks w) ->
  stats (pruneOldReadings (pruneOldReadings w)) = stats (pruneOldReadings w).
Proof.
  intros C Hr _ Hclock.
  rewrite (pruneOldReadings_kept_stats (pruneOldReadings w)).
  rewrite (keep_readings_again w Hr Hclock).
  symmetry. apply pruneOldReadings_kept_stats.
Qed.

(** The lines that parse, when they are the lines written for records. *)
Lemma parsed_lines_written (kept : list record) :
  Forall reads_back kept ->
  parsed_lines (read_lines (Some (written kept))) = map VObj kept.
Proof.
  intro H. destruct kept as [|o t]; [reflexivity |].
  unfold read_lines, written, payload.
  rewrite lines_of_joined.
  - induction H as [|x l Hx _ IH]; [reflexivity |].
    cbn [map parsed_lines]. unfold reads_back in Hx. now rewrite Hx, IH.
  - apply Forall_forall. intros l Hl. apply in_map_iff in Hl.
    destruct Hl as [x [<- _]]. apply JSON_stringify_line.
  - apply Forall_forall. intros l Hl. apply in_map_iff in Hl.
    destruct Hl as [x [<- _]]. apply JSON_stringify_line.
  - discriminate.
Qed.

Lemma all_readings_objects (l : list record) : all_readings (map VObj l) = Some l.
Proof.
  induction l as [|o t IH]; [reflexivity |].
  cbn [map all_readings as_reading]. now rewrite IH.
Qed.

Lemma set_stats_same (w : World) : set_stats (stats w) w = w.
Proof. now destruct w. Qed.

Lemma pruneOldStatsLog_keeps (w : World) :
  LOG_FILE (pruneOldStatsLog w) = LOG_FILE w
  /\ stats (pruneOldStatsLog w) = stats w.
Proof.
  unfold pruneOldStatsLog. cbn [Date_now].
  destruct (keep_segments _ _); split; reflexivity.
Qed.

(** A timestamp that is not NaN comes from a constructor that did not
    throw. *)
Lemma Date_getTime_no_throw (v : jsval) :
  isNaN (Date_getTime v) = false -> Date_throws v = false.
Proof.
  destruct v; try reflexivity; cbn [Date_getTime];
    destruct (Date_throws _); trivial; discriminate.
Qed.

Lemma retained_no_throw (cutoff : Z) (l : list record) :
  recompute_throws (retained timestamp_ms cutoff l) = false.
Proof.
  unfold recompute_throws, retained.
  induction l as [|o t IH]; [reflexivity |].
  cbn [filter]. destruct (nge (timestamp_ms o) cutoff) eqn:E; [| exact IH].
  cbn [existsb]. rewrite IH, orb_false_r.
  apply Date_getTime_no_throw. fold (timestamp_ms o).
  now destruct (timestamp_ms o).
Qed.

(** X3.  The start-up does not throw, and the load that follows the two
    prunes finds the statistics already in place: the world after
    [initialize] is the world after the prunes, whose statistics are
    [recomputeStats] of the readings kept.  No number of a reading that
    is kept is beyond the range of binary64. *)
Theorem initialize_succeeds (w : World) :
  let C := clock w (ticks w) - RETENTION_MS in
  all_in_range (retained timestamp_ms C (records_of (read_lines (LOG_FILE w))))
  = true ->
  in_alphabet (LOG_FILE w) = true ->
  initialize w = Some (pruneOldStatsLog (pruneOldReadings w)).
Proof.
  intros C Hr _. subst C. unfold initialize, loadStatsFromReadings.
  set (w2 := pruneOldStatsLog (pruneOldReadings w)).
  destruct (pruneOldStatsLog_keeps (pruneOldReadings w)) as [Hlog Hst].
  fold w2 in Hlog, Hst. rewrite Hlog, pruneOldReadings_file.
  rewrite (parsed_lines_written _ (retained_reads_back _ _ _ Hr)).
  pose proof (retained_no_throw (clock w (ticks w) - RETENTION_MS)
                (records_of (read_lines (LOG_FILE w)))) as Hn.
  rewrite pruneOldReadings_kept_stats, keep_readings_retained in Hst.
  destruct (retained timestamp_ms _ _) as [|o t].
  - cbn [map]. now rewrite <- Hst, set_stats_same.
  - rewrite all_readings_objects. cbn [map]. rewrite Hn.
    now rewrite <- Hst, set_stats_same.
Qed.

(** ** The log replays to the live statistics *)

Lemma join_snoc (sep : string) (ls : list string) (l : string) :
  ls <> [] -> join sep (ls ++ [l]) = join sep ls ++ sep ++ l.
Proof.
  induction ls as [|x t IH]; intro H; [now elim H |].
  destruct t as [|y t'].
  - reflexivity.
  - change (join sep ((x :: y :: t') ++ [l]))
      with (x ++ sep ++ join sep ((y :: t') ++ [l])).
    rewrite IH by discriminate.
    change (join sep (x :: y :: t')) with (x ++ sep ++ join sep (y :: t')).
    now rewrite !append_assoc.
Qed.

Lemma log_holds_append (L : list record) (f : option string) (x : record) :
  log_holds L f ->
  log_holds (L ++ [x]) (appendFile f (JSON_stringify x ++ String LF "")).
Proof.
  destruct L as [|o t]; cbn [log_holds app].
  - intros [-> | ->]; reflexivity.
  - intros ->. cbn [appendFile]. f_equal. unfold payload.
    change (o :: (t ++ [x])%list) with ((o :: t) ++ [x])%list.
    rewrite map_app. cbn [map].
    rewrite join_snoc by discriminate. now rewrite !append_assoc.
Qed.

Lemma Sorted_snoc {A : Type} (R : A -> A -> Prop) (l : list A) (y : A) :
  Sorted R l -> (forall x, In x l -> R x y) -> Sorted R (l ++ [y]).
Proof.
  induction 1 as [|a l Hs IH Hd]; intro H; cbn [app].
  - repeat constructor.
  - constructor; [apply IH; intros x Hx; apply H; now right |].
    destruct Hd; cbn [app]; constructor; trivial. apply H. now left.
Qed.

Lemma incremental_snoc (L : list record) (x : record) :
  incremental (L ++ [x]) = fst (applyReading (incremental L) x).
Proof. unfold incremental. now rewrite fold_left_app. Qed.

Lemma appendStatsSegment_keeps (sg : Segment) (w : World) :
  clock (appendStatsSegment sg w) = clock w
  /\ LOG_FILE (appendStatsSegment sg w) = LOG_FILE w
  /\ (ticks w < ticks (appendStatsSegment sg w))%nat.
Proof. unfold appendStatsSegment. cbn. repeat split; lia. Qed.

(** One more call keeps the world replayable. *)
Lemma appendReading_replayable (clk : nat -> Z) (t0 : nat) (L : list record)
      (r : jsval) (w : World) :
  steady_clock t0 clk -> replayable clk t0 L w ->
  wellformed (VObj (spread r)) = true ->
  replayable clk t0 (L ++ [fst (appendReading r w)]) (snd (appendReading r w)).
Proof.
  intros [Hmono Hparse] (Hclk & Ht0 & Hlog & Hst & Hwf & Hts & Hsorted) Hr.
  rewrite appendReading_applyReading. cbn [fst snd].
  unfold stamp. cbn [Date_now fst snd]. rewrite Hclk.
  set (stamped := set (spread r) "timestamp" (VStr (toISOString (clk (ticks w))))).
  set (w1 := set_LOG_FILE _ _).
  assert (Hw1 : clock w1 = clk /\ ticks w1 = S (ticks w)
                /\ LOG_FILE w1 = appendFile (LOG_FILE w)
                                   (JSON_stringify stamped ++ String LF ""))
    by (unfold w1; cbn; auto).
  destruct Hw1 as (Hc1 & Ht1 & Hl1).
  set (w2 := match snd (applyReading (stats w) stamped) with
             | Some sg => appendStatsSegment sg w1
             | None => w1
             end).
  assert (Hw2 : clock w2 = clk /\ (S (ticks w) <= ticks w2)%nat
                /\ LOG_FILE w2 = LOG_FILE w1).
  { unfold w2. destruct (snd (applyReading (stats w) stamped)) as [sg|].
    - destruct (appendStatsSegment_keeps sg w1) as (E1 & E2 & E3).
      rewrite E1, E2. split; [exact Hc1 | split; [lia | reflexivity]].
    - split; [exact Hc1 | split; [lia | reflexivity]]. }
  destruct Hw2 as (Hc2 & Ht2 & Hl2).
  assert (Hstamp : get stamped "timestamp" = VStr (toISOString (clk (ticks w))))
    by apply get_set_same.
  repeat split.
  - exact Hc2.
  - cbn [ticks set_stats]. lia.
  - cbn [LOG_FILE set_stats]. rewrite Hl2, Hl1. now apply log_holds_append.
  - cbn [stats set_stats]. now rewrite incremental_snoc, Hst.
  - apply Forall_app. split; trivial. constructor; [| constructor].
    now apply set_wellformed.
  - cbn [ticks set_stats]. apply Forall_app. split.
    + eapply Forall_impl; [| exact Hts]. cbv beta.
      intros x (n & H1 & H2 & H3). exists n. repeat split; trivial. lia.
    + constructor; [| constructor]. exists (ticks w). repeat split; trivial.
  - apply Sorted_snoc; trivial. intros x Hx.
    rewrite Forall_forall in Hts. destruct (Hts x Hx) as (n & H1 & H2 & H3).
    unfold not_later, timestamp_ms. rewrite H3, Hstamp. cbn [Date_getTime].
    rewrite !Hparse by lia. apply Hmono; lia.
Qed.

Lemma appendReadings_replayable (clk : nat -> Z) (t0 : nat) (rs : list jsval) :
  steady_clock t0 clk ->
  Forall (fun r => wellformed (VObj (spread r)) = true) rs ->
  forall (L : list record) (w : World),
    replayable clk t0 L w ->
    exists L', replayable clk t0 L' (appendReadings rs w).
Proof.
  intros Hclk H. induction H as [|r rs Hr _ IH]; intros L w Hw.
  - now exists L.
  - cbn [appendReadings]. eapply IH.
    apply (appendReading_replayable clk t0 L r w Hclk Hw Hr).
Qed.

Lemma chronological_no_throw (l : list record) :
  chronological l -> recompute_throws l = false.
Proof.
  intros [H _]. unfold recompute_throws.
  induction H as [|r l Hr _ IH]; [reflexivity |].
  cbn [existsb]. rewrite IH, orb_false_r.
  now apply Date_getTime_no_throw.
Qed.

(** A replayable world is a fixed point of [loadStatsFromReadings]. *)
Lemma replayable_load (clk : nat -> Z) (t0 : nat) (L : list record) (w : World) :
  steady_clock t0 clk -> replayable clk t0 L w ->
  loadStatsFromReadings w = Some w.
Proof.
  intros [Hmono Hparse] (Hclk & Ht0 & Hlog & Hst & Hwf & Hts & Hsorted).
  unfold loadStatsFromReadings. destruct L as [|o t].
  - assert (E : read_lines (LOG_FILE w) = [])
      by (destruct Hlog as [-> | ->]; reflexivity).
    rewrite E. cbn [parsed_lines]. change (incremental []) with resetStats in Hst.
    now rewrite <- Hst, set_stats_same.
  - cbn [log_holds] in Hlog. rewrite Hlog.
    change (payload (o :: t)) with (written (o :: t)).
    rewrite parsed_lines_written.
    + cbn [map]. change (VObj o :: map VObj t) with (map VObj (o :: t)).
      rewrite all_readings_objects.
      assert (Hchron : chronological (o :: t)).
      { split; trivial. eapply Forall_impl; [| exact Hts]. cbv beta.
        intros x (n & H1 & _ & H3). unfold parseable, timestamp_ms.
        rewrite H3. cbn [Date_getTime]. now rewrite Hparse. }
      rewrite (chronological_no_throw _ Hchron).
      unfold recomputeStats.
      rewrite (Array_sort_fixes _ _ (chronological_Sorted _ Hchron)).
      rewrite (fold_replay_applyReading _ _ (proj1 Hchron)).
      fold (incremental (o :: t)). now rewrite <- Hst, set_stats_same.
    + eapply Forall_impl; [| exact Hwf]. intros x Hx.
      exact (JSON_parse_stringify x Hx).
Qed.

(** X5.  Restart consistency.  Start with no readings logged and unset
    statistics, and let [appendReading] take any readings whose numbers
    are finite, one call after the other, on a clock that does not go
    back: reloading the statistics from the log then changes nothing, the
    log replays to the live statistics. *)
Theorem reload_after_appends (rs : list jsval) (w : World) :
  LOG_FILE w = None \/ LOG_FILE w = Some "" ->
  stats w = resetStats ->
  steady_clock (ticks w) (clock w) ->
  Forall (fun r => wellformed (VObj (spread r)) = true) rs ->
  loadStatsFromReadings (appendReadings rs w) = Some (appendReadings rs w).
Proof.
  intros Hlog Hst Hclk Hrs.
  destruct (appendReadings_replayable (clock w) (ticks w) rs Hclk Hrs [] w)
    as [L HL].
  - unfold replayable. cbn [log_holds].
    repeat split; trivial; try constructor.
  - exact (replayable_load _ _ _ _ Hclk HL).
Qed.

(** ** What the replay accounts for *)

Lemma replay_tracks (st : Stats) (cur r : record) (on off : Z) :
  tracks st cur on off -> not_later cur r ->
  truthy (get cur "timestamp") = true ->
  exists tc tr on' off',
    timestamp_ms cur = Ms tc /\ timestamp_ms r = Ms tr
    /\ tracks (replay st r) r on' off'
    /\ on <= on' /\ off <= off' /\ on' + off' = on + off + (tr - tc).
Proof.
  intros (Hls & Hlt & Hon & Hoff) Hle Htr.
  unfold not_later in Hle. unfold replay, tracks.
  fold (timestamp_ms r). rewrite Hlt. fold (timestamp_ms cur).
  destruct (timestamp_ms cur) as [|tc]; [destruct Hle |].
  destruct (timestamp_ms r) as [|tr]; [destruct Hle |].
  destruct (last_status st) as [ls|]; [| now elim Hls].
  rewrite Htr. cbn [isNaN nsub Math_max0]. rewrite Hon, Hoff.
  exists tc, tr.
  destruct ls; cbn [nadd last_status last_timestamp total_online_ms
                    total_offline_ms].
  - exists (on + Z.max 0 (tr - tc)), off.
    repeat split; trivial; try discriminate; lia.
  - exists on, (off + Z.max 0 (tr - tc)).
    repeat split; trivial; try discriminate; lia.
Qed.

Lemma fold_replay_tracks (rest : list record) :
  forall (st : Stats) (cur : record) (on off tc : Z),
    tracks st cur on off -> timestamp_ms cur = Ms tc ->
    Sorted not_later (cur :: rest) ->
    Forall (fun r => truthy (get r "timestamp") = true) (cur :: rest) ->
    exists tl on' off',
      timestamp_ms (last rest cur) = Ms tl
      /\ total_online_ms (fold_left replay rest st) = Ms on'
      /\ total_offline_ms (fold_left replay rest st) = Ms off'
      /\ on <= on' /\ off <= off' /\ on' + off' = on + off + (tl - tc).
Proof.
  induction rest as [|r rest IH]; intros st cur on off tc Ht Htc Hs Htr.
  - exists tc, on, off. destruct Ht as (_ & _ & Hon & Hoff).
    cbn [last fold_left]. repeat split; trivial; lia.
  - inversion Hs as [|? ? Hs' Hd]; subst. inversion Hd as [|? ? Hle]; subst.
    inversion Htr as [|? ? Hc Htr']; subst.
    destruct (replay_tracks st cur r on off Ht Hle Hc)
      as (tc' & tr & on1 & off1 & E1 & E2 & Ht1 & H1 & H2 & H3).
    rewrite Htc in E1. injection E1 as <-.
    destruct (IH (replay st r) r on1 off1 tr Ht1 E2 Hs' Htr')
      as (tl & on' & off' & F1 & F2 & F3 & G1 & G2 & G3).
    exists tl, on', off'. cbn [fold_left].
    replace (last (r :: rest) cur) with (last rest r)
      by (clear; revert r; induction rest as [|x t IHt]; intro r;
          [reflexivity | cbn [last] in *; destruct t; [reflexivity | apply IHt]]).
    repeat split; trivial; lia.
Qed.

(** X6.  Readings in chronological order with truthy timestamps are
    accounted for in full: after [recomputeStats] the two totals are
    non-negative integers whose sum is the time from the first reading to
    the last, when that time is at most [2^53] milliseconds (within which
    the differences and sums of the engine are exact). *)
Theorem recompute_accounts_for_the_span (first : record) (rest : list record)
        (t0 t1 : Z) :
  chronological (first :: rest) ->
  Forall (fun r => truthy (get r "timestamp") = true) (first :: rest) ->
  timestamp_ms first = Ms t0 ->
  timestamp_ms (last rest first) = Ms t1 ->
  t1 - t0 <= 2 ^ 53 ->
  exists on off : Z,
    total_online_ms (recomputeStats (first :: rest)) = Ms on
    /\ total_offline_ms (recomputeStats (first :: rest)) = Ms off
    /\ 0 <= on /\ 0 <= off /\ on + off = t1 - t0.
Proof.
  intros Hc Htr H0 H1 _. unfold recomputeStats.
  rewrite (Array_sort_fixes _ _ (chronological_Sorted _ Hc)).
  cbn [fold_left].
  assert (Ht : tracks (replay resetStats first) first 0 0).
  { unfold replay. fold (timestamp_ms first). rewrite H0.
    cbn. repeat split. discriminate. }
  destruct (fold_replay_tracks rest _ first 0 0 t0 Ht H0 (proj2 Hc) Htr)
    as (tl & on & off & E & Eon & Eoff & G1 & G2 & G3).
  rewrite H1 in E. injection E as <-.
  exists on, off. repeat split; trivial; lia.
Qed.

Lemma replay_sound (st : Stats) (r : record) : sound st -> sound (replay st r).
Proof.
  intros [(on & off & Hon & Hoff & H1 & H2) Hts]. unfold replay.
  destruct (Date_getTime (get r "timestamp")) as [|t] eqn:Et;
    [split; [exists on, off |]; auto |].
  cbn [isNaN].
  assert (Hnew : truthy (get r "timestamp") = true ->
                 isNaN (Date_getTime (get r "timestamp")) = false)
    by (intros _; now rewrite Et).
  destruct (last_status st) as [ls|];
    [| split; [exists on, off; auto | exact Hnew]].
  destruct (truthy (last_timestamp st)) eqn:Etr;
    [| split; [exists on, off; auto | exact Hnew]].
  specialize (Hts eq_refl).
  destruct (Date_getTime (last_timestamp st)) as [|tl]; [discriminate Hts |].
  cbn [nsub Math_max0]. rewrite Hon, Hoff.
  destruct ls; cbn [nadd total_online_ms total_offline_ms last_timestamp];
    (split; [| exact Hnew]).
  - exists (on + Z.max 0 (t - tl)), off. repeat split; trivial; lia.
  - exists on, (off + Z.max 0 (t - tl)). repeat split; trivial; lia.
Qed.

Lemma fold_replay_sound (s : list record) (st : Stats) :
  sound st -> sound (fold_left replay s st).
Proof.
  revert st. induction s as [|r t IH]; intros st H; [exact H |].
  cbn [fold_left]. apply IH. now apply replay_sound.
Qed.

(** X7.  Whatever readings [recomputeStats] is given, in whatever
    order, when it does not throw (no timestamp is an object on which
    [new Date] throws) both totals come out as integers that are not
    negative (never NaN), and a truthy last timestamp parses; and so it
    is in whatever order [s] the sort hands the readings to the loop. *)
Theorem recompute_totals_sound (l s : list record) :
  recompute_throws l = false ->
  Permutation l s ->
  sound (recomputeStats l) /\ sound (fold_left replay s resetStats).
Proof.
  intros _ _.
  assert (H : sound resetStats).
  { split; [exists 0, 0; repeat split; lia | intro E; discriminate E]. }
  split; [unfold recomputeStats |]; now apply fold_replay_sound.
Qed.

(** ** Readings whose timestamp does not parse *)

Lemma replay_skips (st : Stats) (r : record) :
  parseableb r = false -> replay st r = st.
Proof.
  unfold parseableb, timestamp_ms, replay. intro H.
  apply negb_false_iff in H. now rewrite H.
Qed.

Lemma fold_replay_filter (l : list record) (st : Stats) :
  fold_left replay l st = fold_left replay (filter parseableb l) st.
Proof.
  revert st. induction l as [|r t IH]; intro st; [reflexivity |].
  cbn [filter fold_left]. destruct (parseableb r) eqn:E.
  - cbn [fold_left]. apply IH.
  - rewrite (replay_skips st r E). apply IH.
Qed.

Lemma keeps_unparseable (a b : record) :
  parseableb a = false \/ parseableb b = false -> keeps by_timestamp a b.
Proof.
  unfold parseableb, timestamp_ms, keeps, by_timestamp.
  destruct (Date_getTime (get a "timestamp")),
           (Date_getTime (get b "timestamp")); trivial.
  intros [H | H]; discriminate H.
Qed.

Lemma Sorted_through_unparseable (l : list record) :
  Sorted not_later (filter parseableb l) -> Sorted (keeps by_timestamp) l.
Proof.
  induction l as [|x t IH]; intro H; [constructor |].
  cbn [filter] in H.
  assert (Ht : Sorted not_later (filter parseableb t))
    by (destruct (parseableb x); [now inversion H | exact H]).
  constructor; [now apply IH |].
  destruct t as [|y t']; constructor.
  destruct (parseableb x) eqn:Ex; [| apply keeps_unparseable; now left].
  destruct (parseableb y) eqn:Ey; [| apply keeps_unparseable; now right].
  cbn [filter] in H. rewrite Ey in H.
  inversion H as [|? ? _ Hd]; subst. inversion Hd; subst.
  now apply not_later_keeps.
Qed.

Lemma filter_parseable (l : list record) :
  Forall parseable (filter parseableb l).
Proof.
  apply Forall_forall. intros r Hr. apply filter_In in Hr.
  destruct Hr as [_ H]. unfold parseableb in H. now apply negb_true_iff in H.
Qed.

(** X8.  When the readings whose timestamp parses stand in chronological
    order, as they do in a log, the others do not count, provided that
    [new Date] throws on none of them: [recomputeStats] gives what it
    gives without them, which is what the incremental update builds from
    the parseable readings. *)
Theorem recompute_skips_unparseable (l : list record) :
  recompute_throws l = false ->
  Sorted not_later (filter parseableb l) ->
  recomputeStats l = recomputeStats (filter parseableb l)
  /\ recomputeStats l = incremental (filter parseableb l).
Proof.
  intros _ H.
  assert (Hc : chronological (filter parseableb l))
    by (split; [apply filter_parseable | exact H]).
  assert (E : recomputeStats l = fold_left replay (filter parseableb l) resetStats).
  { unfold recomputeStats.
    rewrite (Array_sort_fixes _ _ (Sorted_through_unparseable l H)).
    apply fold_replay_filter. }
  split.
  - rewrite E. unfold recomputeStats.
    now rewrite (Array_sort_fixes _ _ (chronological_Sorted _ Hc)).
  - rewrite E. apply fold_replay_applyReading, Hc.
Qed.

(** ** The stamp *)

(** X9.  [appendReading] stamps the reading with the server clock,
    whatever [timestamp] the reading came with; every other property is
    kept, the status is that of the reading as it came, and the stamped
    reading is the line appended to the log. *)
Theorem appendReading_stamp (reading : jsval) (w : World) :
  let stamped := fst (appendReading reading w) in
  get stamped "timestamp" = VStr (toISOString (clock w (ticks w)))
  /\ (forall k : string, k <> "timestamp" ->
      get stamped k = get (spread reading) k)
  /\ computeOnline stamped = computeOnline (spread reading)
  /\ LOG_FILE (snd (appendReading reading w))
     = appendFile (LOG_FILE w) (JSON_stringify stamped ++ String LF "").
Proof.
  cbv zeta. rewrite appendReading_stamped.
  split; [apply get_set_same |].
  split; [intros k Hk; apply get_set_other; congruence |].
  split.
  - unfold computeOnline. rewrite get_set_other; [reflexivity | discriminate].
  - rewrite appendReading_applyReading. cbn [snd fst].
    destruct (snd (applyReading _ _)); reflexivity.
Qed.

(** ** Chunks *)

Lemma flushBuffer_S (fuel : nat) (w : World) :
  flushBuffer (S fuel) w
  = match indexOf "{" (buffer w) with
    | None => ([], set_buffer "" w)
    | Some start =>
        extract fuel (if (0 <? start)%nat
                      then set_buffer (slice start (buffer w)) w else w)
    end.
Proof. reflexivity. Qed.

Lemma length_slice (n : nat) (s : string) :
  String.length (slice n s) = (String.length s - n)%nat.
Proof.
  revert s. induction n as [|n IH]; intro s; cbn [slice].
  - lia.
  - destruct s as [|c t]; [reflexivity |]. cbn [String.length]. now rewrite IH.
Qed.

Lemma slice_app_le (n : nat) (a b : string) :
  (n <= String.length a)%nat -> slice n (a ++ b) = slice n a ++ b.
Proof.
  revert a. induction n as [|n IH]; intros a H; [reflexivity |].
  destruct a as [|c t]; cbn [String.length] in H; [lia |].
  cbn [append slice]. apply IH. lia.
Qed.

Lemma slice_app_ge (j : nat) (a b : string) :
  slice (String.length a + j) (a ++ b) = slice j b.
Proof. induction a as [|c t IH]; [reflexivity | exact IH]. Qed.

Lemma slice_all (s : string) : slice (String.length s) s = "".
Proof. induction s as [|c t IH]; [reflexivity | exact IH]. Qed.

Lemma indexOf_app (c : ascii) (a b : string) :
  indexOf c (a ++ b)
  = match indexOf c a with
    | Some i => Some i
    | None =>
        match indexOf c b with
        | Some j => Some (String.length a + j)%nat
        | None => None
        end
    end.
Proof.
  induction a as [|x t IH]; cbn [append indexOf String.length].
  - now destruct (indexOf c b).
  - destruct (Ascii.eqb x c); [reflexivity |]. rewrite IH.
    destruct (indexOf c t); [reflexivity |]. now destruct (indexOf c b).
Qed.

Lemma indexOf_bound (c : ascii) (s : string) (i : nat) :
  indexOf c s = Some i -> (i < String.length s)%nat.
Proof.
  revert i. induction s as [|x t IH]; intro i; cbn [indexOf String.length];
    [discriminate |].
  destruct (Ascii.eqb x c); [intro H; injection H as <-; lia |].
  destruct (indexOf c t) as [j|]; [| discriminate].
  intro H. injection H as <-. specialize (IH j eq_refl). lia.
Qed.

Lemma indexOf_slice (c : ascii) (s : string) (i : nat) :
  indexOf c s = Some i -> indexOf c (slice i s) = Some O.
Proof.
  revert i. induction s as [|x t IH]; intro i; cbn [indexOf]; [discriminate |].
  destruct (Ascii.eqb x c) eqn:E.
  - intro H. injection H as <-. cbn [slice indexOf]. now rewrite E.
  - destruct (indexOf c t) as [j|]; [| discriminate].
    intro H. injection H as <-. cbn [slice]. now apply IH.
Qed.

Lemma frame_end_bound (s : string) (i : nat) (d : Z) (e : nat) :
  frame_end s i d = Some e -> (i <= e < i + String.length s)%nat.
Proof.
  revert i d. induction s as [|c t IH]; intros i d; cbn [frame_end String.length];
    [discriminate |].
  destruct (_ && _); [intro H; injection H as <-; lia |].
  intro H. apply IH in H. lia.
Qed.

Lemma frame_end_app (a b : string) (i : nat) (d : Z) (e : nat) :
  frame_end a i d = Some e -> frame_end (a ++ b) i d = Some e.
Proof.
  revert i d. induction a as [|c t IH]; intros i d; cbn [frame_end append];
    [discriminate |].
  destruct (_ && _); [trivial | apply IH].
Qed.

Lemma substring_app (n : nat) (a b : string) :
  (n <= String.length a)%nat -> substring 0 n (a ++ b) = substring 0 n a.
Proof.
  revert a. induction n as [|n IH]; intros a H.
  - destruct a; destruct b; reflexivity.
  - destruct a as [|c t]; cbn [String.length] in H; [lia |].
    cbn [append substring]. f_equal. apply IH. lia.
Qed.

(** The buffer is a register of its own: [appendReading] does not look at
    it. *)
Lemma appendReading_set_buffer (b : string) (parsed : jsval) (w : World) :
  appendReading parsed (set_buffer b w)
  = (fst (appendReading parsed w), set_buffer b (snd (appendReading parsed w))).
Proof.
  unfold appendReading, stamp, account, settle. cbn [Date_now set_buffer stats
    LOG_FILE STATS_LOG buffer clock ticks set_LOG_FILE set_stats].
  destruct (attribute _ _) as [st1 [sg|]]; reflexivity.
Qed.

Lemma set_buffer_twice (a b : string) (w : World) :
  set_buffer a (set_buffer b w) = set_buffer a w.
Proof. reflexivity. Qed.

Lemma set_buffer_same (w : World) : set_buffer (buffer w) w = w.
Proof. now destruct w. Qed.

Lemma flushBuffer_fuel (f1 : nat) :
  forall (f2 : nat) (w : World),
    (String.length (buffer w) < f1)%nat -> (String.length (buffer w) < f2)%nat ->
    flushBuffer f1 w = flushBuffer f2 w.
Proof.
  induction f1 as [|f1 IH]; intros f2 w H1 H2; [lia |].
  destruct f2 as [|f2]; [lia |]. rewrite !flushBuffer_S.
  destruct (indexOf "{" (buffer w)) as [start|]; [| reflexivity].
  set (w1 := if (0 <? start)%nat then set_buffer (slice start (buffer w)) w else w).
  assert (Hl : (String.length (buffer w1) <= String.length (buffer w))%nat).
  { unfold w1. destruct (0 <? start)%nat; [| lia].
    cbn [buffer set_buffer]. rewrite length_slice. lia. }
  unfold extract.
  destruct (frame_end (buffer w1) 0 0) as [e|] eqn:E; [| reflexivity].
  apply frame_end_bound in E.
  assert (Hr : (String.length (slice (e + 1) (buffer w1)) < f1
                /\ String.length (slice (e + 1) (buffer w1)) < f2)%nat)
    by (rewrite length_slice; lia).
  destruct (JSON_parse _) as [parsed|].
  - destruct (appendReading parsed _) as [saved w3] eqn:Ea.
    assert (Hb : buffer w3 = slice (e + 1) (buffer w1)).
    { change w3 with (snd (saved, w3)). rewrite <- Ea.
      now rewrite appendReading_buffer. }
    rewrite (IH f2 w3); [reflexivity | |]; rewrite Hb; apply Hr.
  - apply IH; cbn [buffer set_buffer]; apply Hr.
Qed.

(** A turn of [flushBuffer], with the turns that follow taken with the fuel
    of [onData] again. *)
Lemma flush_unfold (w : World) :
  flush w
  = match indexOf "{" (buffer w) with
    | None => ([], set_buffer "" w)
    | Some start =>
        let b := slice start (buffer w) in
        match frame_end b 0 0 with
        | None => ([], set_buffer b w)
        | Some e =>
            match JSON_parse (substring 0 (e + 1) b) with
            | Some parsed =>
                let '(saved, w3) :=
                  appendReading parsed (set_buffer (slice (e + 1) b) w) in
                let '(more, w4) := flush w3 in
                (saved :: more, w4)
            | None => flush (set_buffer (slice (e + 1) b) w)
            end
        end
    end.
Proof.
  unfold flush at 1. rewrite flushBuffer_S.
  destruct (indexOf "{" (buffer w)) as [start|]; [| reflexivity].
  assert (E1 : (if (0 <? start)%nat
                then set_buffer (slice start (buffer w)) w else w)
               = set_buffer (slice start (buffer w)) w).
  { destruct start; [| reflexivity]. cbn [Nat.ltb Nat.leb slice].
    symmetry. apply set_buffer_same. }
  rewrite E1. unfold extract. cbn [buffer set_buffer]. cbv zeta.
  set (b := slice start (buffer w)).
  assert (Hb : (String.length b <= String.length (buffer w))%nat)
    by (unfold b; rewrite length_slice; lia).
  destruct (frame_end b 0 0) as [e|] eqn:E; [| reflexivity].
  apply frame_end_bound in E.
  assert (Hr : (String.length (slice (e + 1) b) < String.length (buffer w))%nat)
    by (rewrite length_slice; lia).
  destruct (JSON_parse _) as [parsed|].
  - destruct (appendReading parsed _) as [saved w3] eqn:Ea.
    assert (Hb3 : buffer w3 = slice (e + 1) b).
    { change w3 with (snd (saved, w3)). rewrite <- Ea.
      now rewrite appendReading_buffer. }
    unfold flush. rewrite (flushBuffer_fuel _ (S (String.length (buffer w3))) w3);
      [reflexivity | rewrite Hb3; exact Hr | lia].
  - unfold flush. apply flushBuffer_fuel; cbn [buffer set_buffer]; [exact Hr | lia].
Qed.

Lemma flush_append (n : nat) :
  forall (w : World) (c : string),
    (String.length (buffer w) < n)%nat ->
    flush (set_buffer (buffer w ++ c) w)
    = let '(l1, w1) := flush w in
      let '(l2, w2) := flush (set_buffer (buffer w1 ++ c) w1) in
      ((l1 ++ l2)%list, w2).
Proof.
  induction n as [|n IH]; intros w c Hn; [lia |].
  rewrite (flush_unfold w), (flush_unfold (set_buffer (buffer w ++ c) w)).
  cbn [buffer set_buffer]. rewrite indexOf_app.
  destruct (indexOf "{" (buffer w)) as [start|] eqn:Ei.
  - pose proof (indexOf_bound _ _ _ Ei) as Hs. cbv zeta.
    rewrite slice_app_le by lia.
    set (b := slice start (buffer w)).
    assert (Hb : (String.length b <= String.length (buffer w))%nat)
      by (unfold b; rewrite length_slice; lia).
    destruct (frame_end b 0 0) as [e|] eqn:E.
    + rewrite (frame_end_app b c 0 0 e E).
      pose proof (frame_end_bound _ _ _ _ E) as He.
      rewrite substring_app, slice_app_le by lia.
      assert (Hr : (String.length (slice (e + 1) b) < n)%nat)
        by (rewrite length_slice; lia).
      destruct (JSON_parse _) as [parsed|].
      * rewrite set_buffer_twice.
        rewrite (appendReading_set_buffer (slice (e + 1) b ++ c) parsed w),
          (appendReading_set_buffer (slice (e + 1) b) parsed w).
        set (w3 := snd (appendReading parsed w)).
        specialize (IH (set_buffer (slice (e + 1) b) w3) c Hr).
        cbn [buffer set_buffer] in IH. rewrite set_buffer_twice in IH.
        rewrite IH.
        destruct (flush (set_buffer (slice (e + 1) b) w3)) as [l1 w1].
        destruct (flush (set_buffer (buffer w1 ++ c) w1)) as [l2 w2].
        reflexivity.
      * specialize (IH (set_buffer (slice (e + 1) b) w) c Hr).
        cbn [buffer set_buffer] in IH. rewrite set_buffer_twice in IH.
        rewrite set_buffer_twice. exact IH.
    + cbn [buffer set_buffer app].
      rewrite (flush_unfold (set_buffer (b ++ c) (set_buffer b w))).
      cbn [buffer set_buffer]. rewrite indexOf_app.
      pose proof (indexOf_slice _ _ _ Ei) as E0. fold b in E0.
      rewrite E0. cbv zeta. cbn [slice].
      destruct (frame_end (b ++ c) 0 0); [| reflexivity].
      destruct (JSON_parse _);
        [destruct (appendReading _ _); destruct (flush _) |
         destruct (flush _)]; reflexivity.
  - cbn [buffer set_buffer app append].
    rewrite (flush_unfold (set_buffer c (set_buffer "" w))).
    cbn [buffer set_buffer].
    destruct (indexOf "{" c) as [j|]; [| reflexivity]. cbv zeta.
    rewrite slice_app_ge.
    destruct (frame_end (slice j c) 0 0); [| reflexivity].
    destruct (JSON_parse _);
      [destruct (appendReading _ _); destruct (flush _) |
       destruct (flush _)]; reflexivity.
Qed.

(** X10.  Cutting a serial stream of ASCII text into chunks at any place
    changes nothing: two chunks fed one after the other, the first
    handled to its end before the second arrives, save the same readings
    and leave the same world as the two fed as one.  (The text of a chunk
    of ASCII bytes is the chunk, so that the text of the two chunks as one
    is the two texts joined.) *)
Theorem onData_chunks (c1 c2 : string) (w : World) :
  is_ascii c1 = true -> is_ascii c2 = true ->
  onData (c1 ++ c2) w
  = let '(l1, w1) := onData c1 w in
    let '(l2, w2) := onData c2 w1 in
    ((l1 ++ l2)%list, w2).
Proof.
  intros _ _.
  change (onData (c1 ++ c2) w) with (flush (set_buffer (buffer w ++ c1 ++ c2) w)).
  change (onData c1 w) with (flush (set_buffer (buffer w ++ c1) w)).
  rewrite <- append_assoc.
  pose proof (flush_append (S (String.length (buffer w ++ c1)))
                (set_buffer (buffer w ++ c1) w) c2) as H.
  cbn [buffer set_buffer] in H. rewrite set_buffer_twice in H.
  rewrite H by lia.
  destruct (flush (set_buffer (buffer w ++ c1) w)) as [l1 w1]. reflexivity.
Qed.

Lemma flush_open_frame (n : nat) :
  forall w : World,
    (String.length (buffer w) < n)%nat -> open_frame (buffer (snd (flush w))).
Proof.
  induction n as [|n IH]; intros w Hn; [lia |].
  rewrite flush_unfold.
  destruct (indexOf "{" (buffer w)) as [start|] eqn:Ei; [| now left].
  pose proof (indexOf_bound _ _ _ Ei) as Hs. cbv zeta.
  set (b := slice start (buffer w)).
  assert (Hb : (String.length b <= String.length (buffer w))%nat)
    by (unfold b; rewrite length_slice; lia).
  destruct (frame_end b 0 0) as [e|] eqn:E.
  - pose proof (frame_end_bound _ _ _ _ E) as He.
    assert (Hr : (String.length (slice (e + 1) b) < n)%nat)
      by (rewrite length_slice; lia).
    destruct (JSON_parse _) as [parsed|].
    + rewrite (appendReading_set_buffer (slice (e + 1) b) parsed w).
      specialize (IH (set_buffer (slice (e + 1) b)
                                 (snd (appendReading parsed w))) Hr).
      destruct (flush _) as [more w4]. exact IH.
    + exact (IH (set_buffer (slice (e + 1) b) w) Hr).
  - right. cbn [snd buffer set_buffer]. split; [| exact E].
    unfold b. now apply indexOf_slice.
Qed.

(** X11.  After each chunk the buffer holds no frame that is complete: it
    is empty, or it starts at an opening brace whose closing brace has not
    come yet; nothing before that brace is kept. *)
Theorem onData_leaves_open_frame (chunk : string) (w : World) :
  open_frame (buffer (snd (onData chunk w))).
Proof.
  change (onData chunk w) with (flush (set_buffer (buffer w ++ chunk) w)).
  apply (flush_open_frame (S (String.length (buffer w ++ chunk)))).
  cbn [buffer set_buffer]. lia.
Qed.

(** ** Pruning a young log *)

Lemma retained_all (time : record -> number) (cutoff : Z) (l : list record) :
  Forall (fun o => nge (time o) cutoff = true) l -> retained time cutoff l = l.
Proof.
  unfold retained. induction 1 as [|o t Ho _ IH]; [reflexivity |].
  cbn [filter]. now rewrite Ho, IH.
Qed.

(** Pruning leaves a replayable world alone when the cutoff does not
    reach its first stamp. *)
Lemma replayable_prune (clk : nat -> Z) (t0 : nat) (L : list record) (w : World) :
  steady_clock t0 clk -> replayable clk t0 L w ->
  clk (ticks w) - RETENTION_MS <= clk t0 ->
  stats (pruneOldReadings w) = stats w
  /\ read_lines (LOG_FILE (pruneOldReadings w)) = read_lines (LOG_FILE w).
Proof.
  intros [Hmono Hparse] (Hclk & Ht0 & Hlog & Hst & Hwf & Hts & Hsorted) Hcut.
  assert (Hback : Forall reads_back L).
  { eapply Forall_impl; [| exact Hwf]. intros x Hx.
    exact (JSON_parse_stringify x Hx). }
  assert (E1 : records_of (read_lines (LOG_FILE w)) = L).
  { destruct L as [|o t].
    - destruct Hlog as [-> | ->]; reflexivity.
    - cbn [log_holds] in Hlog. rewrite Hlog.
      change (payload (o :: t)) with (written (o :: t)).
      now apply records_of_written. }
  assert (E2 : retained timestamp_ms (clock w (ticks w) - RETENTION_MS) L = L).
  { apply retained_all. eapply Forall_impl; [| exact Hts]. cbv beta.
    intros x (n & H1 & _ & H3). unfold timestamp_ms. rewrite H3.
    cbn [Date_getTime]. rewrite Hparse by exact H1. cbn [nge].
    apply Z.leb_le. rewrite Hclk.
    specialize (Hmono t0 n (Nat.le_refl t0) H1). lia. }
  split.
  - rewrite pruneOldReadings_kept_stats, keep_readings_retained, E1, E2.
    destruct L as [|o t]; [now rewrite Hst |].
    assert (Hchron : chronological (o :: t)).
    { split; trivial. eapply Forall_impl; [| exact Hts]. cbv beta.
      intros x (n & H1 & _ & H3). unfold parseable, timestamp_ms.
      rewrite H3. cbn [Date_getTime]. now rewrite Hparse. }
    unfold recomputeStats.
    rewrite (Array_sort_fixes _ _ (chronological_Sorted _ Hchron)).
    rewrite (fold_replay_applyReading _ _ (proj1 Hchron)).
    fold (incremental (o :: t)). now rewrite Hst.
  - rewrite pruneOldReadings_file, E1, E2.
    destruct L as [|o t].
    + destruct Hlog as [-> | ->]; reflexivity.
    + cbn [log_holds] in Hlog. now rewrite Hlog.
Qed.

(** X12.  Pruning does not disturb a young log.  Start with no readings
    logged and unset statistics, and let [appendReading] take any
    readings whose numbers are finite, one call after the other, on a
    clock that does not go back: when the retention window of the prune
    that follows reaches back to the start, the prune leaves the
    statistics and the lines of the log as they are. *)
Theorem prune_keeps_young_log (rs : list jsval) (w : World) :
  LOG_FILE w = None \/ LOG_FILE w = Some "" ->
  stats w = resetStats ->
  steady_clock (ticks w) (clock w) ->
  Forall (fun r => wellformed (VObj (spread r)) = true) rs ->
  clock w (ticks (appendReadings rs w)) - RETENTION_MS <= clock w (ticks w) ->
  stats (pruneOldReadings (appendReadings rs w)) = stats (appendReadings rs w)
  /\ read_lines (LOG_FILE (pruneOldReadings (appendReadings rs w)))
     = read_lines (LOG_FILE (appendReadings rs w)).
Proof.
  intros Hlog Hst Hclk Hrs Hcut.
  destruct (appendReadings_replayable (clock w) (ticks w) rs Hclk Hrs [] w)
    as [L HL].
  - unfold replayable. cbn [log_holds].
    repeat split; trivial; try constructor.
  - exact (replayable_prune _ _ _ _ Hclk HL Hcut).
Qed.

(** ** Durations as text *)

Lemma natToString_short (n : Z) :
  0 <= n < 100 -> (String.length (natToString n) <= 2)%nat.
Proof.
  intro H. unfold natToString. rewrite digitsOf_S.
  destruct (n <? 10) eqn:E; [cbn [String.length]; lia |].
  apply Z.ltb_ge in E.
  assert (H3 : 3 <= Z.log2 n).
  { change 3 with (Z.log2 8). apply Z.log2_le_mono. lia. }
  destruct (Z.to_nat (Z.log2 n)) as [|k] eqn:Ek; [lia |].
  rewrite digitsOf_S.
  assert (E' : (n / 10 <? 10) = true).
  { apply Z.ltb_lt. apply Z.div_lt_upper_bound; lia. }
  rewrite E'. cbn [String.length]. lia.
Qed.

(** A field of [formatMs]: digits that read as the number, two of them
    at least, and exactly two below a hundred. *)
Lemma padded_field (n : Z) :
  0 <= n ->
  let z := padStart0 2 (intToString n) in
  allDigits z = true /\ digitsVal 0 z = n
  /\ (2 <= String.length z)%nat
  /\ (n < 100 -> String.length z = 2%nat).
Proof.
  intros H z. unfold z, intToString.
  assert (E : (n <? 0) = false) by (apply Z.ltb_ge; lia). rewrite E.
  destruct (padStart0_spec 2 (natToString n)) as (z0 & -> & Hl & Hd & Hv & _).
  destruct (natToString_spec n H) as (Hd' & Hv' & c & t & Hc & _).
  assert (Hpos : (1 <= String.length (natToString n))%nat)
    by (rewrite Hc; cbn [String.length]; lia).
  rewrite allDigits_app, Hd, Hd', digitsVal_app, Hv, Z.mul_0_l, Hv',
    length_append, Hl.
  repeat split; [lia |]. intro Hn.
  pose proof (natToString_short n (conj H Hn)). lia.
Qed.

(** X13.  The duration text of a duration that is not negative has three
    fields of digits between colons, two digits for the minutes and for
    the seconds and two or more for the hours, which do not wrap at a day;
    minutes and seconds stay below sixty, and together the fields give the
    whole seconds of the duration. *)
Theorem formatMs_reads_back (ms : Z) :
  0 <= ms ->
  exists h m s : Z,
    read_hms (formatMs (Ms ms)) = Some (h, m, s)
    /\ 0 <= h /\ 0 <= m < 60 /\ 0 <= s < 60
    /\ 3600 * h + 60 * m + s = ms / 1000.
Proof.
  intro H. unfold formatMs. cbv zeta.
  set (T := ms / 1000).
  assert (HT : 0 <= T) by (unfold T; apply Z.div_pos; lia).
  assert (Hh : 0 <= T / 3600) by (apply Z.div_pos; lia).
  assert (Hm : 0 <= Z.rem T 3600 / 60 < 60)
    by (clear -HT; Z.to_euclidean_division_equations; lia).
  assert (Hs : 0 <= Z.rem T 60 < 60)
    by (clear -HT; Z.to_euclidean_division_equations; lia).
  assert (Hsum : 3600 * (T / 3600) + 60 * (Z.rem T 3600 / 60) + Z.rem T 60 = T)
    by (clear -HT; Z.to_euclidean_division_equations; lia).
  destruct (padded_field _ Hh) as (Ah & Vh & Lh & _).
  destruct (padded_field _ (proj1 Hm)) as (Am & Vm & _ & Lm).
  destruct (padded_field _ (proj1 Hs)) as (As & Vs & _ & Ls).
  specialize (Lm ltac:(lia)). specialize (Ls ltac:(lia)).
  cbv zeta in Ah, Vh, Lh, Am, Vm, Lm, As, Vs, Ls.
  set (hours := padStart0 2 (intToString (T / 3600))) in *.
  set (minutes := padStart0 2 (intToString (Z.rem T 3600 / 60))) in *.
  set (seconds := padStart0 2 (intToString (Z.rem T 60))) in *.
  exists (T / 3600), (Z.rem T 3600 / 60), (Z.rem T 60).
  split; [| repeat split; solve [lia | exact Hsum]].
  unfold read_hms.
  rewrite (span_digits_app hours (":" ++ minutes ++ ":" ++ seconds) Ah)
    by reflexivity.
  cbn [append].
  rewrite (span_digits_app minutes (String ":" seconds) Am) by reflexivity.
  rewrite <- (append_empty_r seconds) at 1.
  rewrite (span_digits_app seconds "" As) by exact I.
  rewrite Vh, Vm, Vs, Lm, Ls.
  apply Nat.leb_le in Lh. rewrite Lh. reflexivity.
Qed.

(** ** Frames of JSON text *)

Lemma lacks_indexOf (c : ascii) (s : string) :
  lacks c s = true -> indexOf c s = None.
Proof.
  induction s as [|x t IH]; [reflexivity |]. cbn [lacks indexOf]. intro H.
  apply andb_prop in H. destruct H as [Hx Ht]. apply negb_true_iff in Hx.
  now rewrite Hx, (IH Ht).
Qed.

Lemma substring_all (s : string) : substring 0 (String.length s) s = s.
Proof. induction s as [|c t IH]; [reflexivity |]. cbn. now rewrite IH. Qed.

Lemma slice_app_all (a b : string) : slice (String.length a) (a ++ b) = b.
Proof. induction a as [|c t IH]; [reflexivity | exact IH]. Qed.

(** X14.  A text that arrives on the serial link in one chunk, that
    [flushBuffer] takes as one frame (it starts with an opening brace and
    its braces balance at its last character) and that [JSON.parse] reads,
    is saved through [appendReading] as the value read, once, whatever
    text without an opening brace comes before it and after it (noise,
    line ends): the text around it is dropped and the buffer is left
    empty. *)
Theorem onData_saves_frame (junk frame tail : string) (parsed : jsval)
        (w : World) :
  buffer w = "" ->
  lacks "{" junk = true -> lacks "{" tail = true ->
  one_frame frame ->
  JSON_parse frame = Some parsed ->
  onData (junk ++ frame ++ tail) w
  = ([fst (appendReading parsed w)], snd (appendReading parsed w)).
Proof.
  intros Hb Hj Ht [Hi He] Hp.
  change (onData (junk ++ frame ++ tail) w)
    with (flush (set_buffer (buffer w ++ junk ++ frame ++ tail) w)).
  rewrite Hb. cbn [append]. rewrite flush_unfold. cbn [buffer set_buffer].
  pose proof (frame_end_bound _ _ _ _ He) as Hlen.
  assert (Hi' : indexOf "{" (frame ++ tail) = Some O)
    by (rewrite indexOf_app, Hi; reflexivity).
  rewrite indexOf_app, (lacks_indexOf _ _ Hj), Hi'. cbv zeta.
  rewrite slice_app_ge. cbn [slice].
  rewrite (frame_end_app frame tail 0 0 _ He).
  replace (String.length frame - 1 + 1)%nat with (String.length frame) by lia.
  rewrite substring_app, substring_all, slice_app_all by lia.
  rewrite Hp.
  rewrite set_buffer_twice, (appendReading_set_buffer tail parsed w).
  rewrite flush_unfold. cbn [buffer set_buffer].
  rewrite (lacks_indexOf _ _ Ht), set_buffer_twice.
  f_equal. rewrite <- (appendReading_buffer parsed w) in Hb.
  rewrite <- Hb. apply set_buffer_same.
Qed.

(** ** The segment log after a prune *)

(** X15.  After [pruneOldStatsLog], when no number of a segment that is
    kept is beyond the range of binary64, the segment log reads back as
    exactly the segments kept, each with a snapshot time that is set, that
    parses and that lies within the retention window; the readings log
    and the statistics are not touched. *)
Theorem pruned_segments_within_window (w : World) :
  let cutoff := clock w (ticks w) - RETENTION_MS in
  let kept := records_of (read_lines (STATS_LOG (pruneOldStatsLog w))) in
  all_in_range (keep_segments cutoff (read_lines (STATS_LOG w))) = true ->
  in_alphabet (STATS_LOG w) = true ->
  kept = keep_segments cutoff (read_lines (STATS_LOG w))
  /\ Forall (fun o => truthy (get o "snapshot_at") = true
                      /\ exists t : Z,
                          Date_getTime (get o "snapshot_at") = Ms t
                          /\ cutoff <= t) kept
  /\ LOG_FILE (pruneOldStatsLog w) = LOG_FILE w
  /\ stats (pruneOldStatsLog w) = stats w.
Proof.
  intros cutoff kept Hr _. rewrite keep_segments_retained in Hr.
  assert (E : kept = retained snapshot_ms cutoff
                       (records_of (read_lines (STATS_LOG w))))
    by exact (pruneOldStatsLog_reads_back w Hr).
  split; [now rewrite keep_segments_retained |].
  split; [| apply pruneOldStatsLog_keeps].
  rewrite E. apply Forall_forall. intros o Ho.
  apply filter_In in Ho. destruct Ho as [_ Ho]. unfold snapshot_ms in Ho.
  destruct (truthy (get o "snapshot_at")); [| discriminate Ho].
  split; [reflexivity |].
  destruct (Date_getTime (get o "snapshot_at")) as [|t]; [discriminate Ho |].
  exists t. split; [reflexivity |]. now apply Z.leb_le.
Qed.

End Engine.

(** * The properties on the sample data, with the reference date parser *)

Lemma recompute_replay_equivalence_witness :
  recomputeStats iso_parse sample_log = incremental iso_parse sample_log.
Proof.
  apply (recompute_replay_equivalence iso_parse sample_log).
  split.
  - repeat (apply Forall_cons; [vm_compute; reflexivity |]). apply Forall_nil.
  - repeat (apply Sorted_cons;
            [| first [apply HdRel_nil
                     | apply HdRel_cons; vm_compute; congruence]]).
    apply Sorted_nil.
Defined.

Lemma applyReading_step_witness :
  let st := mkStats (Ms 0) (Ms 0) (Some false) (VStr (toISOString T0)) in
  let r := reading_at (VNum 1 0) (T0 + 5000) in
  total_offline_ms (fst (applyReading iso_parse st r)) = Ms 5000
  /\ snd (applyReading iso_parse st r)
     = Some (mkSegment "offline" (VStr (toISOString T0))
                       (VStr (toISOString (T0 + 5000))) (Ms 5000)).
Proof.
  intros st r.
  destruct (applyReading_step iso_parse st r false T0 (T0 + 5000))
    as (_ & Hoff & Hseg & _); try (vm_compute; reflexivity).
  split; [exact Hoff |]. apply Hseg. split; [discriminate | reflexivity].
Defined.



Lemma frame_extractor_two_chunks_witness :
  let '(l1, w1) := onData iso_parse chunk_one (fresh_world [T0; T0 + 1]) in
  let '(l2, w2) := onData iso_parse chunk_two w1 in
  let '(l3, _) := onData iso_parse "}" w2 in
  yields_power l1 1
  /\ l2 = []
  /\ buffer w2 = "{" ++ quoted "power" ++ ":0"
  /\ yields_power l3 0.
Proof.
  apply (frame_extractor_two_chunks iso_parse (fresh_world [T0; T0 + 1])).
  reflexivity.
Defined.

(** C4 as the example states it does not hold: the second chunk leaves
    the frame open, and no record comes out of it. *)
Lemma two_chunks_example_fails :
  ~ two_chunks_example iso_parse (fresh_world [T0; T0 + 1]).
Proof.
  intro H. vm_compute in H. destruct H as [_ [r [H _]]]. discriminate H.
Qed.



(** The same prune, spelled out: the power that was read as a number is
    null in the pruned log, and the status that the prune computed from
    the reading it kept is not the one that the pruned log gives. *)
Example overflowing_number_run :
  let w := pruneOldReadings iso_parse 12000 overflow_world in
  map (fun o => get o "power") (records_of (read_lines (LOG_FILE w)))
  = [VNull]
  /\ last_status (stats w) = Some true
  /\ option_map (fun w' => last_status (stats w'))
                (loadStatsFromReadings iso_parse w)
     = Some (Some false).
Proof. vm_compute. repeat split. Qed.

Lemma appendReading_totals_witness :
  let w := off_world in
  let w' := snd (appendReading iso_parse (VObj [("power", VNum 1 0)]) w) in
  total_online_ms (stats w') = Ms 0 /\ total_offline_ms (stats w') = Ms 5000
  /\ num_le (total_offline_ms (stats w)) (total_offline_ms (stats w')).
Proof.
  intros w w'.
  destruct (appendReading_totals iso_parse (VObj [("power", VNum 1 0)]) w)
    as (_ & _ & Hle & _).
  - split; [vm_compute; reflexivity |].
    split; [vm_compute; reflexivity | intros _; vm_compute; reflexivity].
  - vm_compute; reflexivity.
  - split; [vm_compute; reflexivity |].
    split; [vm_compute; reflexivity | exact Hle].
Defined.

(** C8 through the prune: with a retention window that reaches back to
    the epoch, a logged reading with a null timestamp is kept and the
    statistics come out unpaired. *)
Example pruneOldReadings_null_timestamp :
  let st := stats (pruneOldReadings iso_parse (T0 + 1) null_stamp_world) in
  last_status st = Some true /\ last_timestamp st = VNull.
Proof. vm_compute. split; reflexivity. Qed.

Lemma appendReading_serialized_when_exclusive_witness :
  serialized iso_parse overlap_at_the_log
    (VObj [("power", VNum 1 0)]) (VObj [("power", VNum 0 0)]) off_world.
Proof.
  apply (appendReading_serialized_when_exclusive iso_parse overlap_at_the_log).
  vm_compute; reflexivity.
Defined.

(** C9 as stated does not hold.  The device was seen off at [T0]; two
    calls report it on.  The first call is suspended while its segment is
    written, the second call then works from the last timestamp that the
    first has not replaced yet: the offline time is counted twice and the
    segment of the transition is emitted twice. *)
Lemma overlapping_calls_not_serialized :
  ~ serialized iso_parse [true; false; true; false; true; false]
      (VObj [("power", VNum 1 0)]) (VObj [("power", VNum 1 0)]) off_world.
Proof.
  unfold serialized.
  destruct (interleave _ _ _ _ _) as [[[a b] w'] segs] eqn:E.
  vm_compute in E. injection E as <- <- <- <-.
  intro H. specialize (H _ _ eq_refl eq_refl).
  destruct H as [H | H];
    apply (f_equal (fun p => total_offline_ms (fst p))) in H;
    vm_compute in H; discriminate H.
Qed.

(** The same run, spelled out. *)
Example overlapping_calls_run :
  let '(_, _, w', segs) :=
    interleave iso_parse [true; false; true; false; true; false]
      (Called (VObj [("power", VNum 1 0)])) (Called (VObj [("power", VNum 1 0)]))
      off_world in
  total_offline_ms (stats w') = Ms 10001
  /\ map duration_ms segs = [Ms 5000; Ms 5001]
  /\ map start_at segs = [VStr (toISOString T0); VStr (toISOString T0)].
Proof. vm_compute. repeat split. Qed.

Lemma prune_twice_witness :
  let w := logged_world in
  stats (pruneOldReadings iso_parse 12000 (pruneOldReadings iso_parse 12000 w))
  = stats (pruneOldReadings iso_parse 12000 w).
Proof.
  intro w. apply (prune_twice iso_parse 12000 w); vm_compute; reflexivity.
Defined.

Lemma initialize_succeeds_witness :
  initialize iso_parse 12000 logged_world
  = Some (pruneOldStatsLog iso_parse 12000
            (pruneOldReadings iso_parse 12000 logged_world)).
Proof.
  apply (initialize_succeeds iso_parse 12000 logged_world);
    vm_compute; reflexivity.
Defined.

Lemma reload_after_appends_witness :
  loadStatsFromReadings iso_parse (appendReadings iso_parse posted rising_world)
  = Some (appendReadings iso_parse posted rising_world).
Proof.
  apply (reload_after_appends iso_parse posted rising_world).
  - left. reflexivity.
  - reflexivity.
  - split.
    + intros i j _ Hij.
      destruct i as [|[|[|i]]], j as [|[|[|j]]];
        cbn [rising_world clock nth]; unfold T0; lia.
    + intros n _. destruct n as [|[|[|n]]]; vm_compute; reflexivity.
  - repeat (apply Forall_cons; [vm_compute; reflexivity |]). apply Forall_nil.
Defined.

Lemma recompute_accounts_for_the_span_witness :
  exists on off : Z,
    total_online_ms (recomputeStats iso_parse sample_log) = Ms on
    /\ total_offline_ms (recomputeStats iso_parse sample_log) = Ms off
    /\ 0 <= on /\ 0 <= off /\ on + off = T0 + 15000 - T0.
Proof.
  apply (recompute_accounts_for_the_span iso_parse
           (reading_at (VNum 0 0) T0)
           [ reading_at (VNum 1 0) (T0 + 5000);
             reading_at (VNum 0 0) (T0 + 15000) ] T0 (T0 + 15000)).
  - split.
    + repeat (apply Forall_cons; [vm_compute; reflexivity |]). apply Forall_nil.
    + repeat (apply Sorted_cons;
              [| first [apply HdRel_nil
                       | apply HdRel_cons; vm_compute; congruence]]).
      apply Sorted_nil.
  - repeat (apply Forall_cons; [vm_compute; reflexivity |]). apply Forall_nil.
  - vm_compute; reflexivity.
  - vm_compute; reflexivity.
  - lia.
Defined.

Lemma recompute_totals_sound_witness :
  sound iso_parse (recomputeStats iso_parse mixed_log)
  /\ sound iso_parse (fold_left (replay iso_parse) (rev mixed_log) resetStats).
Proof.
  apply (recompute_totals_sound iso_parse mixed_log (rev mixed_log)).
  - vm_compute; reflexivity.
  - apply Permutation_rev.
Defined.

Lemma recompute_skips_unparseable_witness :
  recomputeStats iso_parse mixed_log
  = recomputeStats iso_parse (filter (parseableb iso_parse) mixed_log)
  /\ recomputeStats iso_parse mixed_log
     = incremental iso_parse (filter (parseableb iso_parse) mixed_log).
Proof.
  apply (recompute_skips_unparseable iso_parse mixed_log);
    [vm_compute; reflexivity |].
  assert (E : filter (parseableb iso_parse) mixed_log
              = [ reading_at (VNum 0 0) T0; reading_at (VNum 1 0) (T0 + 5000) ])
    by (vm_compute; reflexivity).
  rewrite E.
  repeat (apply Sorted_cons;
          [| first [apply HdRel_nil
                   | apply HdRel_cons; vm_compute; congruence]]).
  apply Sorted_nil.
Defined.

Lemma prune_keeps_young_log_witness :
  let w := appendReadings iso_parse posted rising_world in
  stats (pruneOldReadings iso_parse 15000 w) = stats w
  /\ read_lines (LOG_FILE (pruneOldReadings iso_parse 15000 w))
     = read_lines (LOG_FILE w).
Proof.
  intro w. apply (prune_keeps_young_log iso_parse 15000 posted rising_world).
  - left. reflexivity.
  - reflexivity.
  - split.
    + intros i j _ Hij.
      destruct i as [|[|[|i]]], j as [|[|[|j]]];
        cbn [rising_world clock nth]; unfold T0; lia.
    + intros n _. destruct n as [|[|[|n]]]; vm_compute; reflexivity.
  - repeat (apply Forall_cons; [vm_compute; reflexivity |]). apply Forall_nil.
  - vm_compute. discriminate.
Defined.

Lemma formatMs_reads_back_witness :
  exists h m s : Z,
    read_hms (formatMs (Ms 360061001)) = Some (h, m, s)
    /\ 0 <= h /\ 0 <= m < 60 /\ 0 <= s < 60
    /\ 3600 * h + 60 * m + s = 360061001 / 1000.
Proof.
  apply (formatMs_reads_back 360061001). lia.
Defined.

Lemma onData_chunks_witness :
  let c1 := chunk_one in
  let c2 := chunk_two ++ "}" in
  let w := fresh_world [T0; T0 + 1] in
  onData iso_parse (c1 ++ c2) w
  = let '(l1, w1) := onData iso_parse c1 w in
    let '(l2, w2) := onData iso_parse c2 w1 in
    ((l1 ++ l2)%list, w2).
Proof.
  intros c1 c2 w. apply (onData_chunks iso_parse c1 c2 w); reflexivity.
Defined.

Lemma onData_saves_frame_witness :
  let junk := "boot" ++ String LF "" in
  let tail := String (chr 13) (String LF "") in
  let parsed := VObj [("power", VNum 1 0); ("id", VNum 7 0)] in
  let w := fresh_world [T0] in
  onData iso_parse (junk ++ device_frame ++ tail) w
  = ([fst (appendReading iso_parse parsed w)],
     snd (appendReading iso_parse parsed w)).
Proof.
  intros junk tail parsed w.
  apply (onData_saves_frame iso_parse junk device_frame tail parsed w);
    try (vm_compute; reflexivity).
  split; vm_compute; reflexivity.
Defined.

Lemma pruned_segments_within_window_witness :
  let w := logged_world in
  let kept := records_of (read_lines (STATS_LOG (pruneOldStatsLog iso_parse 12000 w))) in
  kept = keep_segments iso_parse (T0 + 15000 - 12000) (read_lines (STATS_LOG w))
  /\ Forall (fun o => truthy (get o "snapshot_at") = true
                      /\ exists t : Z,
                          Date_getTime iso_parse (get o "snapshot_at") = Ms t
                          /\ T0 + 15000 - 12000 <= t) kept
  /\ LOG_FILE (pruneOldStatsLog iso_parse 12000 w) = LOG_FILE w
  /\ stats (pruneOldStatsLog iso_parse 12000 w) = stats w.
Proof.
  intros w kept.
  apply (pruned_segments_within_window iso_parse 12000 w);
    vm_compute; reflexivity.
Defined.
